(** * Consent Ledger Protocol (CNL-1.0): a shallow embedding and its properties

    The development follows the TypeScript sources file by file:
    - [types.ts]           the records and enumerations of the data model;
    - [hash.ts]            [chainHash] and the two canonical payloads;
    - [matcher.ts]         [matchConsent] and the seven constraint evaluators;
    - [drift-detector.ts]  the five scope-creep detectors;
    - [consent-ledger.ts]  the [ConsentLedger] class, as explicit state passing.

    JavaScript numbers are IEEE 754 binary64 values and are modelled by Rocq's
    primitive floats, which are the same format with the same operations.
    Counters and array lengths are natural numbers, and epoch milliseconds are
    integers; both are exact in binary64 over the range a ledger can reach.
    Strings are byte strings.  What the sources obtain from the JavaScript
    runtime (SHA-256, [parseFloat], [Date] parsing, case mapping, trimming,
    number printing, JSON) is taken through the interface [JSRuntime], so every
    theorem holds for whatever the runtime computes. *)

From Stdlib Require Import ZArith Floats Uint63 Bool Ascii String.
From stdpp Require Import base option list gmap strings fin_maps pretty sorting.

Set Default Proof Using "Type".
Set Warnings "-inexact-float,-register-all".
Local Open Scope string_scope.

(** ** JavaScript values held in an action's open parameter mapping *)

(** [Record<string, unknown>]: the values a parameter can hold.  [JUndefined]
    is also what reading an absent key yields. *)
Inductive JSValue : Type :=
  | JUndefined
  | JNull
  | JBool (b : bool)
  | JNumber (n : float)
  | JString (s : string)
  | JArray (items : list JSValue)
  | JObject (props : list (string * JSValue)).

(** [a ?? b]: [b] when [a] is [null] or [undefined], else [a]. *)
Definition nullish (v : JSValue) : bool :=
  match v with JUndefined | JNull => true | _ => false end.

Definition coalesce (a b : JSValue) : JSValue := if nullish a then b else a.

Infix "??" := coalesce (at level 61, left associativity).

(** [parameters.key] on a plain object used as a map. *)
Definition prop (parameters : gmap string JSValue) (key : string) : JSValue :=
  default JUndefined (parameters !! key).

(** ** types.ts *)

Definition schema : string := "CNL-1.0".

Inductive ConsentScope :=
  | specific | categorical | standing | emergency | delegated.

Inductive ConsentStatus :=
  | authorised | exceeded | within_bounds | revoked_status | expired
  | pending_ratification.

Inductive ConstraintType :=
  | monetary_limit | domain_restriction | time_window | approval_required
  | recipient_restriction | frequency_limit | custom.

Inductive ViolationSeverity := minor | major | critical.

#[global] Instance ConsentScope_eq_dec : EqDecision ConsentScope.
Proof. solve_decision. Defined.
#[global] Instance ConsentStatus_eq_dec : EqDecision ConsentStatus.
Proof. solve_decision. Defined.
#[global] Instance ConstraintType_eq_dec : EqDecision ConstraintType.
Proof. solve_decision. Defined.
#[global] Instance ViolationSeverity_eq_dec : EqDecision ViolationSeverity.
Proof. solve_decision. Defined.

(** The string each member of a union of string literals is at run time. *)
Definition ConsentScope_str (s : ConsentScope) : string :=
  match s with
  | specific => "specific" | categorical => "categorical"
  | standing => "standing" | emergency => "emergency"
  | delegated => "delegated"
  end.

Definition ConstraintType_str (t : ConstraintType) : string :=
  match t with
  | monetary_limit => "monetary_limit"
  | domain_restriction => "domain_restriction"
  | time_window => "time_window"
  | approval_required => "approval_required"
  | recipient_restriction => "recipient_restriction"
  | frequency_limit => "frequency_limit"
  | custom => "custom"
  end.

Definition ConsentStatus_str (s : ConsentStatus) : string :=
  match s with
  | authorised => "authorised" | exceeded => "exceeded"
  | within_bounds => "within_bounds" | revoked_status => "revoked"
  | expired => "expired" | pending_ratification => "pending_ratification"
  end.

Definition ViolationSeverity_str (s : ViolationSeverity) : string :=
  match s with minor => "minor" | major => "major" | critical => "critical" end.

Module ConsentConstraint.
Record t := mk {
  type : ConstraintType;
  description : string;
  parameter : string;
}.
End ConsentConstraint.

Module AuthorisationEntry.
Record t := mk {
  id : string;
  timestamp : string;
  principal_id : string;
  agent_id : string;
  scope : ConsentScope;
  description : string;
  constraints : list ConsentConstraint.t;
  expires_at : option string;
  revoked : bool;
  revoked_at : option string;
  hash : string;
  previous_hash : string;
}.

Definition set_hash (h : string) (a : t) : t :=
  mk (id a) (timestamp a) (principal_id a) (agent_id a) (scope a)
     (description a) (constraints a) (expires_at a) (revoked a)
     (revoked_at a) h (previous_hash a).
End AuthorisationEntry.

Module ActionRecord.
Record t := mk {
  id : string;
  timestamp : string;
  agent_id : string;
  authorisation_id : string;
  action_type : string;
  description : string;
  parameters : gmap string JSValue;
  clearpath_trace_id : option string;
  hash : string;
  previous_hash : string;
}.

Definition set_hash (h : string) (a : t) : t :=
  mk (id a) (timestamp a) (agent_id a) (authorisation_id a) (action_type a)
     (description a) (parameters a) (clearpath_trace_id a) h
     (previous_hash a).
End ActionRecord.

Module ConsentViolation.
Record t := mk {
  constraint_type : string;
  expected : string;
  actual : string;
  severity : ViolationSeverity;
  description : string;
}.
End ConsentViolation.

Module ConsentMatch.
Record t := mk {
  authorisation_id : string;
  action_id : string;
  status : ConsentStatus;
  violations : list ConsentViolation.t;
  matched_at : string;
}.
End ConsentMatch.

Inductive ScopeCreepPatternType :=
  | gradual_expansion | constraint_erosion | frequency_escalation
  | domain_drift | authority_inflation.

#[global] Instance ScopeCreepPatternType_eq_dec :
  EqDecision ScopeCreepPatternType.
Proof. solve_decision. Defined.

Module ScopeCreepPattern.
Record t := mk {
  id : string;
  pattern_type : ScopeCreepPatternType;
  description : string;
  evidence_ids : list string;
  severity : float;
  first_detected : string;
  occurrences : nat;
}.
End ScopeCreepPattern.

Module LedgerSnapshot.
Record t := mk {
  schema : string;
  principal_id : string;
  authorisations : list AuthorisationEntry.t;
  actions : list ActionRecord.t;
}.
End LedgerSnapshot.

Module VerifyResult.
Record t := mk {
  valid : bool;
  authorisations_checked : nat;
  actions_checked : nat;
}.
End VerifyResult.

(** What a throwing method returns: its value, or the thrown message. *)
Inductive result (A : Type) : Type :=
  | Ok (a : A)
  | Throw (message : string).
Arguments Ok {A} a.
Arguments Throw {A} message.

(** ** The JavaScript runtime the sources call into *)

Class JSRuntime := {
  (** [createHash('sha256').update(data, 'utf8').digest('hex')] *)
  sha256 : string → string;
  (** [parseFloat(s)]; the result is NaN when no prefix of [s] is a number *)
  parseFloat : string → float;
  (** [new Date(s).getTime()]: epoch milliseconds, [None] for an invalid date
      (where JavaScript has NaN) *)
  Date_getTime : string → option Z;
  (** [s.toLowerCase()] and [s.trim()] *)
  toLowerCase : string → string;
  trim : string → string;
  (** [String(n)] for a number *)
  Number_toString : float → string;
  (** [Object.keys(o).sort()] and [JSON.stringify(o, keys)] *)
  Object_keys_sorted : gmap string JSValue → list string;
  JSON_stringify : gmap string JSValue → list string → string;
  (** [JSON.stringify(snapshot, null, 2)], and [JSON.parse(json)] read as a
      snapshot; [JSON.parse] throws on a text that is not JSON *)
  JSON_stringify_snapshot : LedgerSnapshot.t → string;
  JSON_parse : string → result LedgerSnapshot.t;
  (** [randomBytes(16).toString('hex')], by the number of earlier draws, and
      [new Date().toISOString()], by the number of earlier readings *)
  randomBytes_hex : nat → string;
  Date_now_iso : nat → string;
  (** what every implementation does on the empty string *)
  toLowerCase_empty : toLowerCase "" = "";
}.

(** ** Reading the environment

    [generateId()] and [new Date()] read the process's random source and its
    clock.  A computation that reads them is a function of the [World], which
    counts the draws and the clock readings made so far. *)

Record World := mkWorld { drawn : nat; clock_reads : nat }.

Definition M (A : Type) : Type := World → A * World.

Definition ret {A} (a : A) : M A := λ w, (a, w).

Definition bind {A B} (c : M A) (k : A → M B) : M B :=
  λ w, let '(a, w') := c w in k a w'.

Notation "x <~ c ;; k" := (bind c (λ x, k))
  (at level 100, c at next level, right associativity).

(** One step per element, left to right: [l.map(f)] for an effectful [f]. *)
Fixpoint mapM {A B} (f : A → M B) (l : list A) : M (list B) :=
  match l with
  | [] => ret []
  | x :: l' => y <~ f x ;; ys <~ mapM f l' ;; ret (y :: ys)
  end.

(** ** hash.ts *)

Section Hash.
Context `{JSRuntime}.

(** Generate a unique ID (hex string) for entries. *)
Definition generateId : M string :=
  λ w, (randomBytes_hex (drawn w), mkWorld (S (drawn w)) (clock_reads w)).

(** [new Date().toISOString()] *)
Definition isoNow : M string :=
  λ w, (Date_now_iso (clock_reads w), mkWorld (drawn w) (S (clock_reads w))).

(** Chain hash: hash(previous_hash + payload). *)
Definition chainHash (previousHash payload : string) : string :=
  sha256 (previousHash +:+ payload).

(** [`${c.type}:${c.description}:${c.parameter}`] *)
Definition constraintStr (c : ConsentConstraint.t) : string :=
  ConstraintType_str (ConsentConstraint.type c) +:+ ":" +:+
  ConsentConstraint.description c +:+ ":" +:+ ConsentConstraint.parameter c.

(** The line feed the payloads join their fields with. *)
Definition LF : string := String (Ascii.ascii_of_nat 10) EmptyString.

(** [String(b)] for a boolean *)
Definition Boolean_toString (b : bool) : string :=
  if b then "true" else "false".

Definition authorisationPayload (entry : AuthorisationEntry.t) : string :=
  let constraintsStr :=
    String.concat "|" (map constraintStr (AuthorisationEntry.constraints entry)) in
  String.concat LF [
    AuthorisationEntry.id entry;
    AuthorisationEntry.timestamp entry;
    AuthorisationEntry.principal_id entry;
    AuthorisationEntry.agent_id entry;
    ConsentScope_str (AuthorisationEntry.scope entry);
    AuthorisationEntry.description entry;
    constraintsStr;
    default "" (AuthorisationEntry.expires_at entry);
    Boolean_toString (AuthorisationEntry.revoked entry);
    default "" (AuthorisationEntry.revoked_at entry)
  ].

Definition actionPayload (record : ActionRecord.t) : string :=
  let paramsStr :=
    JSON_stringify (ActionRecord.parameters record)
      (Object_keys_sorted (ActionRecord.parameters record)) in
  String.concat LF [
    ActionRecord.id record;
    ActionRecord.timestamp record;
    ActionRecord.agent_id record;
    ActionRecord.authorisation_id record;
    ActionRecord.action_type record;
    ActionRecord.description record;
    paramsStr;
    default "" (ActionRecord.clearpath_trace_id record)
  ].
End Hash.

(** ** String operations of the sources, on byte strings *)

(** [s.includes(needle)] *)
Fixpoint includes (s needle : string) : bool :=
  String.prefix needle s ||
  match s with
  | EmptyString => false
  | String _ rest => includes rest needle
  end.

(** [s.split(sep)] for a one-character separator *)
Fixpoint split (sep : Ascii.ascii) (s : string) : list string :=
  match s with
  | EmptyString => [EmptyString]
  | String c rest =>
      if Ascii.eqb c sep then EmptyString :: split sep rest
      else match split sep rest with
           | [] => [String c EmptyString]
           | piece :: pieces => String c piece :: pieces
           end
  end.

(** A string is truthy when it is not empty. *)
Definition truthy (s : string) : bool := negb (String.eqb s "").

(** ** matcher.ts *)

Module MatcherContext.
Record t := mk {
  actionCountByAuthorisationInPeriod : option (gmap string float);
  frequencyLimitByConstraint : option (gmap string float);
}.
End MatcherContext.

Section Matcher.
Context `{JSRuntime}.

(** [String(v)] *)
Fixpoint ToString (v : JSValue) : string :=
  match v with
  | JUndefined => "undefined"
  | JNull => "null"
  | JBool b => Boolean_toString b
  | JNumber n => Number_toString n
  | JString s => s
  | JArray items =>
      String.concat ","
        ((fix each (l : list JSValue) : list string :=
            match l with
            | [] => []
            | x :: l' => (if nullish x then "" else ToString x) :: each l'
            end) items)
  | JObject _ => "[object Object]"
  end.

Definition parseNumber (value : JSValue) : option float :=
  match value with
  | JNumber n => if PrimFloat.is_nan n then None else Some n
  | JString s =>
      let n := parseFloat s in
      if PrimFloat.is_nan n then None else Some n
  | _ => None
  end.

Definition checkMonetaryLimit (constraint : ConsentConstraint.t)
    (parameters : gmap string JSValue) : option ConsentViolation.t :=
  match parseNumber (JString (ConsentConstraint.parameter constraint)) with
  | None => None
  | Some limit =>
      match parseNumber (prop parameters "amount" ?? prop parameters "value"
                         ?? prop parameters "cost") with
      | None => None
      | Some amount =>
          if (limit <? amount)%float then
            Some {|
              ConsentViolation.constraint_type := "monetary_limit";
              ConsentViolation.expected :=
                "≤ " +:+ ConsentConstraint.parameter constraint;
              ConsentViolation.actual := Number_toString amount;
              ConsentViolation.severity :=
                if (limit * 1.5 <? amount)%float then critical else major;
              ConsentViolation.description :=
                ConsentConstraint.description constraint;
            |}
          else None
      end
  end.

(** [allowed.some((d) => domain.includes(d) || d.includes(domain))] *)
Definition allowedMatch (allowed : list string) (token : string) : bool :=
  existsb (λ d, includes token d || includes d token) allowed.

Definition checkDomainRestriction (constraint : ConsentConstraint.t)
    (parameters : gmap string JSValue) : option ConsentViolation.t :=
  let allowed :=
    map trim (split ","%char (toLowerCase (ConsentConstraint.parameter constraint))) in
  let domain :=
    toLowerCase (ToString (prop parameters "domain" ?? prop parameters "category"
                           ?? prop parameters "type" ?? JString "")) in
  if negb (truthy domain) then None
  else if negb (allowedMatch allowed domain) then
    Some {|
      ConsentViolation.constraint_type := "domain_restriction";
      ConsentViolation.expected := String.concat ", " allowed;
      ConsentViolation.actual := domain;
      ConsentViolation.severity := major;
      ConsentViolation.description := ConsentConstraint.description constraint;
    |}
  else None.

Definition checkTimeWindow (constraint : ConsentConstraint.t)
    (actionTimestamp : string) : option ConsentViolation.t :=
  let parts := map trim (split "/"%char (ConsentConstraint.parameter constraint)) in
  match parts !! 0%nat, parts !! 1%nat with
  | Some start, Some end_ =>
      if negb (truthy start) || negb (truthy end_) then None
      else
        match Date_getTime start, Date_getTime end_ with
        | Some startDate, Some endDate =>
            match Date_getTime actionTimestamp with
            | Some t =>
                if ((t <? startDate) || (endDate <? t))%Z then
                  Some {|
                    ConsentViolation.constraint_type := "time_window";
                    ConsentViolation.expected := start +:+ " – " +:+ end_;
                    ConsentViolation.actual := actionTimestamp;
                    ConsentViolation.severity := major;
                    ConsentViolation.description :=
                      ConsentConstraint.description constraint;
                  |}
                else None
            | None => None
            end
        | _, _ => None
        end
  | _, _ => None
  end.

(** [approved !== true && approved !== 'true'] *)
Definition isApproved (approved : JSValue) : bool :=
  match approved with
  | JBool true => true
  | JString s => String.eqb s "true"
  | _ => false
  end.

Definition checkApprovalRequired (constraint : ConsentConstraint.t)
    (parameters : gmap string JSValue) : option ConsentViolation.t :=
  let approved := prop parameters "approval_obtained" ?? prop parameters "approved" in
  if negb (isApproved approved) then
    Some {|
      ConsentViolation.constraint_type := "approval_required";
      ConsentViolation.expected := "approval obtained";
      ConsentViolation.actual := ToString (approved ?? JString "none");
      ConsentViolation.severity := major;
      ConsentViolation.description := ConsentConstraint.description constraint;
    |}
  else None.

Definition checkRecipientRestriction (constraint : ConsentConstraint.t)
    (parameters : gmap string JSValue) : option ConsentViolation.t :=
  let allowed :=
    map (λ s, toLowerCase (trim s))
        (split ","%char (ConsentConstraint.parameter constraint)) in
  let recipient :=
    toLowerCase (ToString (prop parameters "recipient" ?? prop parameters "to"
                           ?? prop parameters "payee" ?? JString "")) in
  if negb (truthy recipient) then None
  else if negb (allowedMatch allowed recipient) then
    Some {|
      ConsentViolation.constraint_type := "recipient_restriction";
      ConsentViolation.expected := String.concat ", " allowed;
      ConsentViolation.actual := recipient;
      ConsentViolation.severity := critical;
      ConsentViolation.description := ConsentConstraint.description constraint;
    |}
  else None.

(** The third argument of [checkFrequencyLimit], field by field:
    [{ actionCountForAuthInPeriod?: number; limit?: number }]. *)
Definition checkFrequencyLimit (_constraint : ConsentConstraint.t)
    (_parameters : gmap string JSValue)
    (actionCountForAuthInPeriod : option float) (ctx_limit : option float)
    : option ConsentViolation.t :=
  let limit :=
    match ctx_limit with
    | Some l => Some l
    | None => parseNumber (JString (ConsentConstraint.parameter _constraint))
    end in
  let count := default 0%float actionCountForAuthInPeriod in
  match limit with
  | None => None
  | Some limit =>
      if (limit <? count)%float then
        Some {|
          ConsentViolation.constraint_type := "frequency_limit";
          ConsentViolation.expected :=
            "≤ " +:+ Number_toString limit +:+ " in period";
          ConsentViolation.actual := Number_toString count;
          ConsentViolation.severity :=
            if (limit * 2 <? count)%float then critical else major;
          ConsentViolation.description :=
            ConsentConstraint.description _constraint;
        |}
      else None
  end.

Definition checkCustom (constraint : ConsentConstraint.t)
    (action : ActionRecord.t) : option ConsentViolation.t :=
  let descMatch :=
    includes (toLowerCase (ActionRecord.description action))
             (toLowerCase (ConsentConstraint.description constraint)) in
  if negb descMatch then
    Some {|
      ConsentViolation.constraint_type := "custom";
      ConsentViolation.expected := ConsentConstraint.description constraint;
      ConsentViolation.actual := ActionRecord.description action;
      ConsentViolation.severity := minor;
      ConsentViolation.description := ConsentConstraint.description constraint;
    |}
  else None.
(** [authorisation.expires_at && new Date(authorisation.expires_at) <
    new Date(action.timestamp)]; a comparison with an invalid date is false. *)
Definition isExpired (authorisation : AuthorisationEntry.t)
    (action : ActionRecord.t) : bool :=
  match AuthorisationEntry.expires_at authorisation with
  | Some expires_at =>
      truthy expires_at &&
      match Date_getTime expires_at,
            Date_getTime (ActionRecord.timestamp action) with
      | Some e, Some t => (e <? t)%Z
      | _, _ => false
      end
  | None => false
  end.

(** [context?.field?.get(key)] *)
Definition optionalGet (context : option MatcherContext.t)
    (field : MatcherContext.t → option (gmap string float)) (key : string)
    : option float :=
  match context with
  | Some c => match field c with Some m => m !! key | None => None end
  | None => None
  end.

(** The body of the loop over [authorisation.constraints]: the [switch]. *)
Definition evaluateConstraint (authorisation : AuthorisationEntry.t)
    (action : ActionRecord.t) (context : option MatcherContext.t)
    (constraint : ConsentConstraint.t) : option ConsentViolation.t :=
  match ConsentConstraint.type constraint with
  | monetary_limit =>
      checkMonetaryLimit constraint (ActionRecord.parameters action)
  | domain_restriction =>
      checkDomainRestriction constraint (ActionRecord.parameters action)
  | time_window =>
      checkTimeWindow constraint (ActionRecord.timestamp action)
  | approval_required =>
      checkApprovalRequired constraint (ActionRecord.parameters action)
  | recipient_restriction =>
      checkRecipientRestriction constraint (ActionRecord.parameters action)
  | frequency_limit =>
      let count :=
        optionalGet context MatcherContext.actionCountByAuthorisationInPeriod
                    (AuthorisationEntry.id authorisation) in
      let limit :=
        match optionalGet context MatcherContext.frequencyLimitByConstraint
                          (ConsentConstraint.parameter constraint) with
        | Some l => Some l
        | None => parseNumber (JString (ConsentConstraint.parameter constraint))
        end in
      checkFrequencyLimit constraint (ActionRecord.parameters action) count limit
  | custom => checkCustom constraint action
  end.

(** [matchConsent] once [matched_at] has been read from the clock. *)
Definition matchConsentAt (matched_at : string)
    (authorisation : option AuthorisationEntry.t) (action : ActionRecord.t)
    (context : option MatcherContext.t) : ConsentMatch.t :=
  match authorisation with
  | None =>
      {| ConsentMatch.authorisation_id := ActionRecord.authorisation_id action;
         ConsentMatch.action_id := ActionRecord.id action;
         ConsentMatch.status := exceeded;
         ConsentMatch.violations := [
           {| ConsentViolation.constraint_type := "authorisation";
              ConsentViolation.expected := "valid authorisation";
              ConsentViolation.actual := "none";
              ConsentViolation.severity := critical;
              ConsentViolation.description :=
                "Action has no matching authorisation" |} ];
         ConsentMatch.matched_at := matched_at |}
  | Some authorisation =>
      if AuthorisationEntry.revoked authorisation then
        {| ConsentMatch.authorisation_id := AuthorisationEntry.id authorisation;
           ConsentMatch.action_id := ActionRecord.id action;
           ConsentMatch.status := revoked_status;
           ConsentMatch.violations := [
             {| ConsentViolation.constraint_type := "revocation";
                ConsentViolation.expected := "active authorisation";
                ConsentViolation.actual :=
                  "revoked at " +:+
                  default "null" (AuthorisationEntry.revoked_at authorisation);
                ConsentViolation.severity := critical;
                ConsentViolation.description :=
                  "Action performed after authorisation was revoked" |} ];
           ConsentMatch.matched_at := matched_at |}
      else if isExpired authorisation action then
        {| ConsentMatch.authorisation_id := AuthorisationEntry.id authorisation;
           ConsentMatch.action_id := ActionRecord.id action;
           ConsentMatch.status := expired;
           ConsentMatch.violations := [
             {| ConsentViolation.constraint_type := "expiry";
                ConsentViolation.expected :=
                  "valid before " +:+
                  default "null" (AuthorisationEntry.expires_at authorisation);
                ConsentViolation.actual := ActionRecord.timestamp action;
                ConsentViolation.severity := critical;
                ConsentViolation.description :=
                  "Action performed after authorisation expired" |} ];
           ConsentMatch.matched_at := matched_at |}
      else if decide (AuthorisationEntry.scope authorisation = emergency) then
        {| ConsentMatch.authorisation_id := AuthorisationEntry.id authorisation;
           ConsentMatch.action_id := ActionRecord.id action;
           ConsentMatch.status := pending_ratification;
           ConsentMatch.violations := [];
           ConsentMatch.matched_at := matched_at |}
      else
        let violations :=
          omap (evaluateConstraint authorisation action context)
               (AuthorisationEntry.constraints authorisation) in
        {| ConsentMatch.authorisation_id := AuthorisationEntry.id authorisation;
           ConsentMatch.action_id := ActionRecord.id action;
           ConsentMatch.status :=
             if (0 <? length violations)%nat then exceeded else within_bounds;
           ConsentMatch.violations := violations;
           ConsentMatch.matched_at := matched_at |}
  end.

(** Compare a single action against its authorisation and return a
    ConsentMatch. *)
Definition matchConsent (authorisation : option AuthorisationEntry.t)
    (action : ActionRecord.t) (context : option MatcherContext.t)
    : M ConsentMatch.t :=
  matched_at <~ isoNow ;;
  ret (matchConsentAt matched_at authorisation action context).
End Matcher.

(** ** Arrays, Maps and [Math.min] of the runtime *)

Section JSArray.
Context {A : Type}.

(** [l.sort(compare)].  The sort is stable, and a comparator result that is
    NaN ([None]) counts as 0.  One element at a time is put before the first
    element it does not follow. *)
Fixpoint sort_insert (compare : A → A → option Z) (x : A) (sorted : list A)
    : list A :=
  match sorted with
  | [] => [x]
  | y :: rest =>
      if match compare x y with Some d => (d <=? 0)%Z | None => true end
      then x :: y :: rest
      else y :: sort_insert compare x rest
  end.

Definition Array_sort (compare : A → A → option Z) (l : list A) : list A :=
  foldr (sort_insert compare) [] l.

(** [l.slice(-n)] *)
Definition slice_last (n : nat) (l : list A) : list A :=
  drop (length l - n) l.

(** The loops of the detectors that look for a trend:
    [for (i = 1; i < l.length; i++) if (l[i] <= l[i - 1]) { ok = false; break }] *)
Fixpoint rising (leb : A → A → bool) (l : list A) : bool :=
  match l with
  | x :: (y :: _) as rest => if leb y x then false else rising leb rest
  | _ => true
  end.
End JSArray.

(** A JavaScript [Map]: [get], [set], and iteration in insertion order.
    Setting a key the map holds keeps the key's place. *)
Module JSMap.
Section JSMap.
Context {K V : Type} `{EqDecision K}.

Fixpoint get (m : list (K * V)) (key : K) : option V :=
  match m with
  | [] => None
  | (k, v) :: m' => if decide (key = k) then Some v else get m' key
  end.

Fixpoint set (m : list (K * V)) (key : K) (value : V) : list (K * V) :=
  match m with
  | [] => [(key, value)]
  | (k, v) :: m' =>
      if decide (key = k) then (k, value) :: m' else (k, v) :: set m' key value
  end.
End JSMap.
End JSMap.

(** [Math.min(a, b)]: NaN when either is, and -0 is below +0. *)
Definition Math_min (a b : float) : float :=
  if PrimFloat.is_nan a || PrimFloat.is_nan b then nan
  else if (a <? b)%float then a
  else if (b <? a)%float then b
  else match PrimFloat.classify a with NZero => a | _ => b end.

(** An array length or a counter as a number. *)
Definition Number_of_nat (n : nat) : float :=
  PrimFloat.of_uint63 (Uint63.of_Z (Z.of_nat n)).

(** ** drift-detector.ts *)

Module DataPoint.
Record t := mk { id : string; ts : string; v : float }.
End DataPoint.

Module DriftDetectorInput.
Record t := mk {
  authorisations : list AuthorisationEntry.t;
  actions : list ActionRecord.t;
  (** pre-computed violations per action, each a
      [{ constraint_type: string; severity: string }] *)
  violationsByAction : option (list (string * list (string * string)));
  (** pre-computed match status per action *)
  matchStatusByAction : option (gmap string string);
}.
End DriftDetectorInput.

Section DriftDetector.
Context `{JSRuntime}.

Definition MIN_DATA_POINTS : nat := 3.

Definition getMonetaryValue (parameters : gmap string JSValue) : option float :=
  parseNumber (prop parameters "amount" ?? prop parameters "value"
               ?? prop parameters "cost").

Definition getLimitForAuth (auth : AuthorisationEntry.t) (type : ConstraintType)
    : option float :=
  match List.find (λ x, bool_decide (ConsentConstraint.type x = type))
                  (AuthorisationEntry.constraints auth) with
  | Some c => parseNumber (JString (ConsentConstraint.parameter c))
  | None => None
  end.

(** The loop every detector starts with: the actions of each authorisation,
    in the order they were recorded. *)
Definition groupByAuthorisation (actions : list ActionRecord.t)
    : gmap string (list ActionRecord.t) :=
  foldl (λ byAuth a,
           let group := default [] (byAuth !! ActionRecord.authorisation_id a) in
           <[ActionRecord.authorisation_id a := (group ++ [a])%list]> byAuth)
        ∅ actions.

(** [(x, y) => new Date(x.timestamp).getTime() - new Date(y.timestamp).getTime()] *)
Definition byTimestamp (x y : ActionRecord.t) : option Z :=
  match Date_getTime (ActionRecord.timestamp x),
        Date_getTime (ActionRecord.timestamp y) with
  | Some tx, Some ty => Some (tx - ty)%Z
  | _, _ => None
  end.

(** [(byAuth.get(auth.id) ?? []).slice().sort(...)] *)
Definition sortedActionsOf (byAuth : gmap string (list ActionRecord.t))
    (auth : AuthorisationEntry.t) : list ActionRecord.t :=
  Array_sort byTimestamp (default [] (byAuth !! AuthorisationEntry.id auth)).

(** A loop that pushes at most one pattern per element. *)
Fixpoint pushEach {A B} (body : A → M (option B)) (l : list A) : M (list B) :=
  match l with
  | [] => ret []
  | x :: l' =>
      pushed <~ body x ;;
      patterns <~ pushEach body l' ;;
      ret (match pushed with Some p => p :: patterns | None => patterns end)
  end.

(** [list.map(...).filter((x) => x.v !== null)] *)
Definition monetaryValues (sorted : list ActionRecord.t) : list DataPoint.t :=
  omap (λ a, match getMonetaryValue (ActionRecord.parameters a) with
             | Some v => Some (DataPoint.mk (ActionRecord.id a)
                                            (ActionRecord.timestamp a) v)
             | None => None
             end) sorted.

(** The body of [detectGradualExpansion]'s loop over the authorisations. *)
Definition gradualExpansionFor (byAuth : gmap string (list ActionRecord.t))
    (auth : AuthorisationEntry.t) : M (option ScopeCreepPattern.t) :=
  match getLimitForAuth auth monetary_limit with
  | None => ret None
  | Some limit =>
      let sorted := sortedActionsOf byAuth auth in
      let values := monetaryValues sorted in
      if (length values <? MIN_DATA_POINTS)%nat then ret None
      else
        let ratios := map (λ x, (DataPoint.v x / limit)%float) values in
        let increasing := rising PrimFloat.leb ratios in
        let final := default nan (last ratios) in
        if increasing && (0.7 <=? final)%float then
          id <~ generateId ;;
          ret (Some {|
            ScopeCreepPattern.id := id;
            ScopeCreepPattern.pattern_type := gradual_expansion;
            ScopeCreepPattern.description :=
              "Spending or value creeping toward limit (" +:+
              Number_toString limit +:+ ") over " +:+
              pretty (length values) +:+ " actions";
            ScopeCreepPattern.evidence_ids := map DataPoint.id values;
            ScopeCreepPattern.severity :=
              Math_min 0.9 (0.3 + final * 0.5)%float;
            ScopeCreepPattern.first_detected :=
              default "" (DataPoint.ts <$> head values);
            ScopeCreepPattern.occurrences := length values;
          |})
        else ret None
  end.

(** Detect gradual_expansion: spending (or similar) creeping toward limit
    over time. *)
Definition detectGradualExpansion (authorisations : list AuthorisationEntry.t)
    (actions : list ActionRecord.t) : M (list ScopeCreepPattern.t) :=
  let byAuth := groupByAuthorisation actions in
  pushEach (gradualExpansionFor byAuth) authorisations.

Definition periodMs : Z := 24 * 60 * 60 * 1000.

(** [Math.floor(t / periodMs) * periodMs], NaN for an invalid date *)
Definition bucketOf (t : option Z) : option Z :=
  (λ t, (t / periodMs) * periodMs)%Z <$> t.

Definition countBuckets (sorted : list ActionRecord.t) : list (option Z * float) :=
  foldl (λ buckets a,
           let bucket := bucketOf (Date_getTime (ActionRecord.timestamp a)) in
           JSMap.set buckets bucket
             (default 0 (JSMap.get buckets bucket) + 1)%float)
        [] sorted.

(** [(a, b) => a[0] - b[0]] *)
Definition byKey (a b : option Z * float) : option Z :=
  match a.1, b.1 with
  | Some ka, Some kb => Some (ka - kb)%Z
  | _, _ => None
  end.

Definition frequencyEscalationFor (byAuth : gmap string (list ActionRecord.t))
    (auth : AuthorisationEntry.t) : M (option ScopeCreepPattern.t) :=
  let sorted := sortedActionsOf byAuth auth in
  if (length sorted <? MIN_DATA_POINTS)%nat then ret None
  else
    let buckets := countBuckets sorted in
    let counts := map snd (Array_sort byKey buckets) in
    if (length counts <? MIN_DATA_POINTS)%nat then ret None
    else
      let escalating := rising PrimFloat.leb counts in
      if escalating then
        id <~ generateId ;;
        ret (Some {|
          ScopeCreepPattern.id := id;
          ScopeCreepPattern.pattern_type := frequency_escalation;
          ScopeCreepPattern.description :=
            "Action frequency increasing over time (" +:+
            String.concat " → " (map Number_toString counts) +:+
            " per period)";
          ScopeCreepPattern.evidence_ids :=
            map ActionRecord.id (slice_last MIN_DATA_POINTS sorted);
          ScopeCreepPattern.severity :=
            Math_min 0.9 (0.2 + default nan (last counts) / 10)%float;
          ScopeCreepPattern.first_detected :=
            default "" (ActionRecord.timestamp <$> head sorted);
          ScopeCreepPattern.occurrences := length counts;
        |})
      else ret None.

(** Detect frequency_escalation: action count per period increasing. *)
Definition detectFrequencyEscalation (authorisations : list AuthorisationEntry.t)
    (actions : list ActionRecord.t) : M (list ScopeCreepPattern.t) :=
  let byAuth := groupByAuthorisation actions in
  pushEach (frequencyEscalationFor byAuth) authorisations.

(** The body of [detectDomainDrift]'s loop over the authorisations. *)
Definition domainDriftFor (byAuth : gmap string (list ActionRecord.t))
    (auth : AuthorisationEntry.t) : M (option ScopeCreepPattern.t) :=
  match List.find (λ c, bool_decide (ConsentConstraint.type c = domain_restriction))
                  (AuthorisationEntry.constraints auth) with
  | None => ret None
  | Some domainConstraint =>
      let allowed :=
        map trim (split ","%char
                    (toLowerCase (ConsentConstraint.parameter domainConstraint))) in
      let sorted := sortedActionsOf byAuth auth in
      if (length sorted <? MIN_DATA_POINTS)%nat then ret None
      else
        let outside :=
          omap (λ a,
                  let domain :=
                    toLowerCase
                      (ToString (prop (ActionRecord.parameters a) "domain"
                                 ?? prop (ActionRecord.parameters a) "category"
                                 ?? prop (ActionRecord.parameters a) "type"
                                 ?? JString "")) in
                  if negb (truthy domain) then None
                  else if negb (allowedMatch allowed domain)
                  then Some (ActionRecord.id a, ActionRecord.timestamp a)
                  else None) sorted in
        if (MIN_DATA_POINTS <=? length outside)%nat then
          id <~ generateId ;;
          ret (Some {|
            ScopeCreepPattern.id := id;
            ScopeCreepPattern.pattern_type := domain_drift;
            ScopeCreepPattern.description :=
              "Actions increasingly outside authorised domain (" +:+
              String.concat ", " allowed +:+ ")";
            ScopeCreepPattern.evidence_ids := map fst outside;
            ScopeCreepPattern.severity :=
              Math_min 0.9 (0.3 + Number_of_nat (length outside) * 0.1)%float;
            ScopeCreepPattern.first_detected := default "" (snd <$> head outside);
            ScopeCreepPattern.occurrences := length outside;
          |})
        else ret None
  end.

(** Detect domain_drift: actions increasingly outside original authorised
    domain. *)
Definition detectDomainDrift (authorisations : list AuthorisationEntry.t)
    (actions : list ActionRecord.t) : M (list ScopeCreepPattern.t) :=
  let byAuth := groupByAuthorisation actions in
  pushEach (domainDriftFor byAuth) authorisations.

(** [severityOrder[severity] ?? 0] with
    [severityOrder = { minor: 1, major: 2, critical: 3 }] *)
Definition severityOrder (severity : string) : nat :=
  if String.eqb severity "minor" then 1
  else if String.eqb severity "major" then 2
  else if String.eqb severity "critical" then 3
  else 0.

(** The first loop of [detectConstraintErosion]: every violation filed under
    its constraint type, as [{ actionId, severity }]. *)
Definition groupByType (violationsByAction : list (string * list (string * string)))
    : list (string * list (string * string)) :=
  foldl (λ byType entry,
           let '(actionId, violations) := entry in
           foldl (λ byType v,
                    let '(constraint_type, severity) := v in
                    let filed := default [] (JSMap.get byType constraint_type) in
                    JSMap.set byType constraint_type
                      (filed ++ [(actionId, severity)])%list)
                 byType violations)
        [] violationsByAction.

(** The body of its second loop, over the constraint types. *)
Definition constraintErosionFor (entry : string * list (string * string))
    : M (option ScopeCreepPattern.t) :=
  let '(constraintType, filed) := entry in
  if (length filed <? MIN_DATA_POINTS)%nat then ret None
  else
    let ordered := map (λ x, severityOrder x.2) filed in
    let increasing := rising Nat.leb ordered in
    if increasing then
      id <~ generateId ;;
      first_detected <~ isoNow ;;
      ret (Some {|
        ScopeCreepPattern.id := id;
        ScopeCreepPattern.pattern_type := constraint_erosion;
        ScopeCreepPattern.description :=
          "Repeated violations of " +:+ constraintType +:+
          " with increasing severity";
        ScopeCreepPattern.evidence_ids := map fst filed;
        ScopeCreepPattern.severity := 0.7%float;
        ScopeCreepPattern.first_detected := first_detected;
        ScopeCreepPattern.occurrences := length filed;
      |})
    else ret None.

(** constraint_erosion: same constraint violated repeatedly with increasing
    severity. *)
Definition detectConstraintErosion (_authorisations : list AuthorisationEntry.t)
    (actions : list ActionRecord.t)
    (violationsByAction : list (string * list (string * string)))
    : M (list ScopeCreepPattern.t) :=
  pushEach constraintErosionFor (groupByType violationsByAction).

(** authority_inflation: actions referencing revoked or expired auth, or no
    auth. *)
Definition detectAuthorityInflation (authorisations : list AuthorisationEntry.t)
    (actions : list ActionRecord.t) (matchStatusByAction : gmap string string)
    : M (list ScopeCreepPattern.t) :=
  let inflated :=
    filter (λ a, default "" (matchStatusByAction !! ActionRecord.id a)
                 ∈ ["exceeded"; "revoked"; "expired"]) actions in
  if (length inflated <? MIN_DATA_POINTS)%nat then ret []
  else
    let authIds : gset string :=
      list_to_set (map AuthorisationEntry.id authorisations) in
    let noAuth :=
      filter (λ a, ActionRecord.authorisation_id a ∉ authIds) inflated in
    if (MIN_DATA_POINTS <=? length noAuth)%nat then
      id <~ generateId ;;
      ret [ {|
        ScopeCreepPattern.id := id;
        ScopeCreepPattern.pattern_type := authority_inflation;
        ScopeCreepPattern.description :=
          "Actions without valid authorisation (no auth or exceeded/revoked/expired)";
        ScopeCreepPattern.evidence_ids := map ActionRecord.id noAuth;
        ScopeCreepPattern.severity := 0.8%float;
        ScopeCreepPattern.first_detected :=
          default "" (ActionRecord.timestamp <$> head noAuth);
        ScopeCreepPattern.occurrences := length noAuth;
      |} ]
    else ret [].

(** Run all scope-creep detectors. Returns patterns that have 3+ evidence
    points. *)
Definition detectScopeCreep (input : DriftDetectorInput.t)
    : M (list ScopeCreepPattern.t) :=
  let authorisations := DriftDetectorInput.authorisations input in
  let actions := DriftDetectorInput.actions input in
  let violationsByAction :=
    default [] (DriftDetectorInput.violationsByAction input) in
  let matchStatusByAction :=
    default ∅ (DriftDetectorInput.matchStatusByAction input) in
  gradual <~ detectGradualExpansion authorisations actions ;;
  frequency <~ detectFrequencyEscalation authorisations actions ;;
  drift <~ detectDomainDrift authorisations actions ;;
  erosion <~ detectConstraintErosion authorisations actions violationsByAction ;;
  inflation <~ detectAuthorityInflation authorisations actions matchStatusByAction ;;
  let all := (gradual ++ frequency ++ drift ++ erosion ++ inflation)%list in
  ret (filter (λ p, (MIN_DATA_POINTS ≤ length (ScopeCreepPattern.evidence_ids p))%nat)
              all).
End DriftDetector.

(** ** consent-ledger.ts *)

Definition GENESIS : string := "0".

Module ConsentLedger.

Record t := mk {
  principal_id : string;
  authorisations : list AuthorisationEntry.t;
  actions : list ActionRecord.t;
  authById : gmap string AuthorisationEntry.t;
  actionById : gmap string ActionRecord.t;
}.

(** [Omit<AuthorisationEntry, 'id' | 'timestamp' | 'hash' | 'previous_hash' |
    'revoked' | 'revoked_at'>] *)
Record AuthorisationFields := mkAuthorisationFields {
  entry_principal_id : string;
  entry_agent_id : string;
  entry_scope : ConsentScope;
  entry_description : string;
  entry_constraints : list ConsentConstraint.t;
  entry_expires_at : option string;
}.

(** [Omit<ActionRecord, 'id' | 'timestamp' | 'hash' | 'previous_hash'>] *)
Record ActionFields := mkActionFields {
  action_agent_id : string;
  action_authorisation_id : string;
  action_action_type : string;
  action_description : string;
  action_parameters : gmap string JSValue;
  action_clearpath_trace_id : option string;
}.

Section Methods.
Context `{JSRuntime}.

(** [new ConsentLedger(principal_id)] *)
Definition new (principal_id : string) : t := mk principal_id [] [] ∅ ∅.

Definition authorise (this : t) (entry : AuthorisationFields)
    : M (t * AuthorisationEntry.t) :=
  id <~ generateId ;;
  timestamp <~ isoNow ;;
  let previous_hash :=
    match last (authorisations this) with
    | None => GENESIS
    | Some tip => AuthorisationEntry.hash tip
    end in
  let full :=
    {| AuthorisationEntry.id := id;
       AuthorisationEntry.timestamp := timestamp;
       AuthorisationEntry.principal_id := entry_principal_id entry;
       AuthorisationEntry.agent_id := entry_agent_id entry;
       AuthorisationEntry.scope := entry_scope entry;
       AuthorisationEntry.description := entry_description entry;
       AuthorisationEntry.constraints := entry_constraints entry;
       AuthorisationEntry.expires_at := entry_expires_at entry;
       AuthorisationEntry.revoked := false;
       AuthorisationEntry.revoked_at := None;
       AuthorisationEntry.hash := "";
       AuthorisationEntry.previous_hash := previous_hash |} in
  let full :=
    AuthorisationEntry.set_hash
      (chainHash previous_hash (authorisationPayload full)) full in
  ret (mk (principal_id this) (authorisations this ++ [full])%list
          (actions this) (<[id := full]> (authById this)) (actionById this),
       full).

Definition revoke (this : t) (authorisation_id : string)
    : M (result (t * AuthorisationEntry.t)) :=
  match authById this !! authorisation_id with
  | None => ret (Throw ("Authorisation not found: " +:+ authorisation_id))
  | Some auth =>
      if AuthorisationEntry.revoked auth then ret (Ok (this, auth))
      else
        revoked_at <~ isoNow ;;
        let updated :=
          {| AuthorisationEntry.id := AuthorisationEntry.id auth;
             AuthorisationEntry.timestamp := AuthorisationEntry.timestamp auth;
             AuthorisationEntry.principal_id := AuthorisationEntry.principal_id auth;
             AuthorisationEntry.agent_id := AuthorisationEntry.agent_id auth;
             AuthorisationEntry.scope := AuthorisationEntry.scope auth;
             AuthorisationEntry.description := AuthorisationEntry.description auth;
             AuthorisationEntry.constraints := AuthorisationEntry.constraints auth;
             AuthorisationEntry.expires_at := AuthorisationEntry.expires_at auth;
             AuthorisationEntry.revoked := true;
             AuthorisationEntry.revoked_at := Some revoked_at;
             AuthorisationEntry.hash := "";
             AuthorisationEntry.previous_hash :=
               AuthorisationEntry.previous_hash auth |} in
        let updated :=
          AuthorisationEntry.set_hash
            (chainHash (AuthorisationEntry.previous_hash auth)
                       (authorisationPayload updated)) updated in
        (* [findIndex] is -1 when no element has the id, and a store at index
           -1 leaves the elements as they are *)
        let idx :=
          list_find (λ a, AuthorisationEntry.id a = authorisation_id)
                    (authorisations this) in
        let authorisations' :=
          match idx with
          | Some (i, _) => <[i := updated]> (authorisations this)
          | None => authorisations this
          end in
        ret (Ok (mk (principal_id this) authorisations' (actions this)
                    (<[authorisation_id := updated]> (authById this))
                    (actionById this),
                 updated))
  end.

Definition getAuthorisation (this : t) (id : string)
    : option AuthorisationEntry.t :=
  authById this !! id.

Definition recordAction (this : t) (action : ActionFields)
    : M (t * ActionRecord.t) :=
  id <~ generateId ;;
  timestamp <~ isoNow ;;
  let previous_hash :=
    match last (actions this) with
    | None => GENESIS
    | Some tip => ActionRecord.hash tip
    end in
  let full :=
    {| ActionRecord.id := id;
       ActionRecord.timestamp := timestamp;
       ActionRecord.agent_id := action_agent_id action;
       ActionRecord.authorisation_id := action_authorisation_id action;
       ActionRecord.action_type := action_action_type action;
       ActionRecord.description := action_description action;
       ActionRecord.parameters := action_parameters action;
       ActionRecord.clearpath_trace_id := action_clearpath_trace_id action;
       ActionRecord.hash := "";
       ActionRecord.previous_hash := previous_hash |} in
  let full :=
    ActionRecord.set_hash (chainHash previous_hash (actionPayload full)) full in
  ret (mk (principal_id this) (authorisations this)
          (actions this ++ [full])%list (authById this)
          (<[id := full]> (actionById this)),
       full).

(** [{ ...a.authorisation_id }]'s running count, with the bucket and the key
    that the loop computes for each action. *)
Definition buildMatcherContext (this : t) : MatcherContext.t :=
  let periodMs := (24 * 60 * 60 * 1000)%Z in
  let actionCountByAuthorisationInPeriod :=
    foldl (λ (counts : gmap string float) a,
             let bucket :=
               (λ t, (t / periodMs) * periodMs)%Z
                 <$> Date_getTime (ActionRecord.timestamp a) in
             let key :=
               ActionRecord.authorisation_id a +:+ ":" +:+
               match bucket with Some b => pretty b | None => "NaN" end in
             <[ActionRecord.authorisation_id a :=
                 (default 0 (counts !! ActionRecord.authorisation_id a) + 1)%float]>
               counts)
          ∅ (actions this) in
  MatcherContext.mk (Some actionCountByAuthorisationInPeriod) None.

Definition checkConsent (this : t) (action_id : string)
    : M (result ConsentMatch.t) :=
  match actionById this !! action_id with
  | None => ret (Throw ("Action not found: " +:+ action_id))
  | Some action =>
      let auth := getAuthorisation this (ActionRecord.authorisation_id action) in
      let context := buildMatcherContext this in
      m <~ matchConsent auth action (Some context) ;;
      ret (Ok m)
  end.

Definition checkAllActions (this : t) : M (list ConsentMatch.t) :=
  let context := buildMatcherContext this in
  mapM (λ action,
          let auth := getAuthorisation this (ActionRecord.authorisation_id action) in
          matchConsent auth action (Some context))
       (actions this).

(** The loop of [detectScopeCreep] over the matches, which fills both maps. *)
Definition indexMatches (matches : list ConsentMatch.t)
    : list (string * list (string * string)) * gmap string string :=
  foldl (λ maps m,
           let '(violationsByAction, matchStatusByAction) := maps in
           let matchStatusByAction :=
             <[ConsentMatch.action_id m := ConsentStatus_str (ConsentMatch.status m)]>
               matchStatusByAction in
           let violationsByAction :=
             if (0 <? length (ConsentMatch.violations m))%nat then
               JSMap.set violationsByAction (ConsentMatch.action_id m)
                 (map (λ v, (ConsentViolation.constraint_type v,
                             ViolationSeverity_str (ConsentViolation.severity v)))
                      (ConsentMatch.violations m))
             else violationsByAction in
           (violationsByAction, matchStatusByAction))
        ([], ∅) matches.

Definition detectScopeCreep (this : t) : M (list ScopeCreepPattern.t) :=
  matches <~ checkAllActions this ;;
  let '(violationsByAction, matchStatusByAction) := indexMatches matches in
  detectScopeCreep {|
    DriftDetectorInput.authorisations := authorisations this;
    DriftDetectorInput.actions := actions this;
    DriftDetectorInput.violationsByAction := Some violationsByAction;
    DriftDetectorInput.matchStatusByAction := Some matchStatusByAction;
  |}.

(** One chain's loop in [verify]: the flag and the expected previous hash,
    element by element. *)
Definition verifyChain {A} (previous_hash hash payload : A → string)
    (chain : list A) : bool :=
  fst (foldl (λ state a,
                let '(ok, prev) := state in
                let ok :=
                  if negb (String.eqb (previous_hash a) prev) then false else ok in
                let expected := chainHash (previous_hash a) (payload a) in
                let ok :=
                  if negb (String.eqb (hash a) expected) then false else ok in
                (ok, hash a))
             (true, GENESIS) chain).

Definition verify (this : t) : VerifyResult.t :=
  let authOk :=
    verifyChain AuthorisationEntry.previous_hash AuthorisationEntry.hash
                authorisationPayload (authorisations this) in
  let actionOk :=
    verifyChain ActionRecord.previous_hash ActionRecord.hash
                actionPayload (actions this) in
  {| VerifyResult.valid := authOk && actionOk;
     VerifyResult.authorisations_checked := length (authorisations this);
     VerifyResult.actions_checked := length (actions this) |}.

Definition toJSON (this : t) : string :=
  let snapshot :=
    {| LedgerSnapshot.schema := schema;
       LedgerSnapshot.principal_id := principal_id this;
       LedgerSnapshot.authorisations := authorisations this;
       LedgerSnapshot.actions := actions this |} in
  JSON_stringify_snapshot snapshot.

(** [new Map(entries)]: the entries are set one after the other. *)
Definition indexById {A} (id : A → string) (entries : list A) : gmap string A :=
  foldl (λ index a, <[id a := a]> index) ∅ entries.

Definition fromJSON (json : string) : result t :=
  match JSON_parse json with
  | Throw message => Throw message
  | Ok snapshot =>
      if negb (String.eqb (LedgerSnapshot.schema snapshot) schema)
      then Throw ("Invalid schema: expected " +:+ schema)
      else
        Ok {| principal_id := LedgerSnapshot.principal_id snapshot;
              authorisations := LedgerSnapshot.authorisations snapshot;
              actions := LedgerSnapshot.actions snapshot;
              authById :=
                indexById AuthorisationEntry.id
                          (LedgerSnapshot.authorisations snapshot);
              actionById :=
                indexById ActionRecord.id (LedgerSnapshot.actions snapshot) |}
  end.
End Methods.
End ConsentLedger.

(** * Specifications *)

Local Open Scope nat_scope.
Local Open Scope list_scope.

(** ** Histories of a ledger *)

(** The calls that append to a chain. *)
Inductive Op :=
  | OpAuthorise (entry : ConsentLedger.AuthorisationFields)
  | OpRecordAction (action : ConsentLedger.ActionFields).

Section Histories.
Context `{JSRuntime}.

Definition apply_op (this : ConsentLedger.t) (op : Op) : M ConsentLedger.t :=
  match op with
  | OpAuthorise entry => r <~ ConsentLedger.authorise this entry ;; ret r.1
  | OpRecordAction action => r <~ ConsentLedger.recordAction this action ;; ret r.1
  end.

Fixpoint run_ops (ops : list Op) (this : ConsentLedger.t) : M ConsentLedger.t :=
  match ops with
  | [] => ret this
  | op :: ops' => this' <~ apply_op this op ;; run_ops ops' this'
  end.

(** ** The chain invariant *)

(** Every element carries the hash of its own content, the first one points
    at the genesis sentinel, and every later one at the element before it. *)
Definition chain_invariant {A} (previous_hash hash payload : A → string)
    (chain : list A) : Prop :=
  (∀ i a, chain !! i = Some a →
          hash a = chainHash (previous_hash a) (payload a)) ∧
  (∀ a, chain !! 0%nat = Some a → previous_hash a = GENESIS) ∧
  (∀ i a b, chain !! i = Some a → chain !! S i = Some b →
            previous_hash b = hash a).

(** The same, read front to back from an expected previous hash. *)
Fixpoint linked_from {A} (previous_hash hash payload : A → string)
    (prev : string) (chain : list A) : Prop :=
  match chain with
  | [] => True
  | a :: rest =>
      previous_hash a = prev ∧
      hash a = chainHash (previous_hash a) (payload a) ∧
      linked_from previous_hash hash payload (hash a) rest
  end.

(** The hash a new element has to point at. *)
Definition tip {A} (hash : A → string) (prev : string) (chain : list A) : string :=
  match last chain with Some a => hash a | None => prev end.
End Histories.

(** * Properties *)

Section ChainProperties.
Context `{JSRuntime} {A : Type} (previous_hash hash payload : A → string).

Lemma tip_snoc prev (chain : list A) a :
  tip hash prev (chain ++ [a]) = hash a.
Proof. unfold tip. by rewrite last_snoc. Qed.

Lemma tip_cons prev a (chain : list A) :
  tip hash prev (a :: chain) = tip hash (hash a) chain.
Proof.
  unfold tip. rewrite last_cons. by destruct (last chain).
Qed.

Lemma linked_from_snoc prev chain a :
  linked_from previous_hash hash payload prev (chain ++ [a]) ↔
  linked_from previous_hash hash payload prev chain ∧
  previous_hash a = tip hash prev chain ∧
  hash a = chainHash (previous_hash a) (payload a).
Proof.
  revert prev. induction chain as [|b chain IH]; intros prev; simpl.
  - unfold tip; simpl. tauto.
  - rewrite IH, tip_cons. tauto.
Qed.

Lemma linked_from_invariant chain :
  linked_from previous_hash hash payload GENESIS chain ↔
  chain_invariant previous_hash hash payload chain.
Proof.
  unfold chain_invariant. generalize GENESIS as prev.
  induction chain as [|a chain IH]; intros prev; simpl.
  - split; [|done]. intros _. split_and!; intros; simplify_eq.
  - rewrite IH. split.
    + intros (Hprev & Hhash & Hown & Hfirst & Hnext). split_and!.
      * intros [|i] b ?; simplify_eq/=; eauto.
      * intros b ?; by simplify_eq/=.
      * intros [|i] b c ? ?; simplify_eq/=; eauto.
    + intros (Hown & Hfirst & Hnext). split_and!.
      * by apply Hfirst.
      * by apply (Hown 0%nat).
      * intros i b ?. by apply (Hown (S i)).
      * intros b ?. by apply (Hnext 0%nat a b).
      * intros i b c ? ?. by apply (Hnext (S i) b c).
Qed.

#[global] Instance linked_from_dec prev chain :
  Decision (linked_from previous_hash hash payload prev chain).
Proof. revert prev. induction chain; simpl; intros; apply _. Defined.

(** What the loop of [verify] has computed after a prefix of the chain. *)
Lemma verify_loop chain ok prev :
  foldl (λ state a,
           let '(ok, prev) := state in
           let ok :=
             if negb (String.eqb (previous_hash a) prev) then false else ok in
           let expected := chainHash (previous_hash a) (payload a) in
           let ok :=
             if negb (String.eqb (hash a) expected) then false else ok in
           (ok, hash a))
        (ok, prev) chain
  = (ok && bool_decide (linked_from previous_hash hash payload prev chain),
     tip hash prev chain).
Proof.
  revert ok prev. induction chain as [|a chain IH]; intros ok prev.
  - simpl. unfold tip; simpl. by rewrite andb_true_r.
  - cbn [foldl]. rewrite IH, tip_cons. f_equal.
    destruct (String.eqb_spec (previous_hash a) prev) as [Hp|Hp];
      destruct (String.eqb_spec (hash a)
                  (chainHash (previous_hash a) (payload a))) as [Hh|Hh];
      cbn [negb].
    + destruct ok; [|done]. simpl. apply bool_decide_ext. simpl. tauto.
    + rewrite (bool_decide_eq_false_2 (linked_from _ _ _ prev (a :: chain)))
        by (simpl; tauto). by rewrite andb_false_r.
    + rewrite (bool_decide_eq_false_2 (linked_from _ _ _ prev (a :: chain)))
        by (simpl; tauto). by rewrite andb_false_r.
    + rewrite (bool_decide_eq_false_2 (linked_from _ _ _ prev (a :: chain)))
        by (simpl; tauto). by rewrite andb_false_r.
Qed.
End ChainProperties.

Section LedgerChains.
Context `{JSRuntime}.

Lemma verifyChain_linked {A} (previous_hash hash payload : A → string) chain :
  ConsentLedger.verifyChain previous_hash hash payload chain
  = bool_decide (linked_from previous_hash hash payload GENESIS chain).
Proof. unfold ConsentLedger.verifyChain. by rewrite verify_loop. Qed.

(** The payloads do not read the hash. *)
Lemma authorisationPayload_set_hash h a :
  authorisationPayload (AuthorisationEntry.set_hash h a) = authorisationPayload a.
Proof. done. Qed.

Lemma actionPayload_set_hash h a :
  actionPayload (ActionRecord.set_hash h a) = actionPayload a.
Proof. done. Qed.

(** Both chains of a ledger are linked from the genesis sentinel. *)
Definition chains_linked (this : ConsentLedger.t) : Prop :=
  linked_from AuthorisationEntry.previous_hash AuthorisationEntry.hash
              authorisationPayload GENESIS (ConsentLedger.authorisations this) ∧
  linked_from ActionRecord.previous_hash ActionRecord.hash
              actionPayload GENESIS (ConsentLedger.actions this).

Lemma verify_chains_linked this :
  VerifyResult.valid (ConsentLedger.verify this) = true ↔ chains_linked this.
Proof.
  unfold ConsentLedger.verify, chains_linked; simpl.
  rewrite !verifyChain_linked, andb_true_iff, !bool_decide_eq_true. done.
Qed.

Lemma new_chains_linked principal_id :
  chains_linked (ConsentLedger.new principal_id).
Proof. by split. Qed.

Lemma authorise_chains_linked this entry w :
  chains_linked this →
  chains_linked (ConsentLedger.authorise this entry w).1.1.
Proof.
  intros [Hauth Hact]. split; [|done]. simpl.
  apply linked_from_snoc. split_and!; [done| |done].
  unfold tip. by destruct (last (ConsentLedger.authorisations this)).
Qed.

Lemma recordAction_chains_linked this action w :
  chains_linked this →
  chains_linked (ConsentLedger.recordAction this action w).1.1.
Proof.
  intros [Hauth Hact]. split; [done|]. simpl.
  apply linked_from_snoc. split_and!; [done| |done].
  unfold tip. by destruct (last (ConsentLedger.actions this)).
Qed.

Lemma apply_op_chains_linked this op w :
  chains_linked this → chains_linked (apply_op this op w).1.
Proof.
  destruct op as [entry|action]; intros Hlinked.
  - by apply (authorise_chains_linked this entry w).
  - by apply (recordAction_chains_linked this action w).
Qed.

Lemma run_ops_chains_linked ops this w :
  chains_linked this → chains_linked (run_ops ops this w).1.
Proof.
  revert this w. induction ops as [|op ops IH]; intros this w Hlinked; [done|].
  cbn [run_ops]. unfold bind.
  pose proof (apply_op_chains_linked this op w Hlinked) as Hstep.
  destruct (apply_op this op w) as [this' w']. by apply IH.
Qed.

(** C1.  After any sequence of [authorise] and [recordAction] calls on a new
    ledger, the empty sequence included, every entry of either chain carries
    [chainHash] of its previous hash and its canonical payload, the first
    entry of each chain points at the genesis sentinel and every later one at
    the hash of the entry before it, and [verify] answers valid with the two
    chain lengths as its counts.  The new ledger verifies with both counts 0. *)
Theorem appended_chains_verify (principal_id : string) (ops : list Op) (w : World) :
  let this := (run_ops ops (ConsentLedger.new principal_id) w).1 in
  chain_invariant AuthorisationEntry.previous_hash AuthorisationEntry.hash
                  authorisationPayload (ConsentLedger.authorisations this) ∧
  chain_invariant ActionRecord.previous_hash ActionRecord.hash
                  actionPayload (ConsentLedger.actions this) ∧
  ConsentLedger.verify this
  = {| VerifyResult.valid := true;
       VerifyResult.authorisations_checked :=
         length (ConsentLedger.authorisations this);
       VerifyResult.actions_checked := length (ConsentLedger.actions this) |} ∧
  ConsentLedger.verify (ConsentLedger.new principal_id)
  = {| VerifyResult.valid := true;
       VerifyResult.authorisations_checked := 0;
       VerifyResult.actions_checked := 0 |}.
Proof.
  intros this.
  pose proof (run_ops_chains_linked ops _ w (new_chains_linked principal_id))
    as Hlinked.
  fold this in Hlinked. split_and!.
  - apply linked_from_invariant, Hlinked.
  - apply linked_from_invariant, Hlinked.
  - apply verify_chains_linked in Hlinked.
    unfold ConsentLedger.verify in *. simpl in Hlinked. by rewrite Hlinked.
  - done.
Qed.
End LedgerChains.

Section Revocation.
Context `{JSRuntime}.

(** The ID index of the authorisations answers with the entries of the chain,
    and no two entries share an identifier. *)
Definition authorisations_indexed (this : ConsentLedger.t) : Prop :=
  NoDup (map AuthorisationEntry.id (ConsentLedger.authorisations this)) ∧
  ∀ a, a ∈ ConsentLedger.authorisations this →
       ConsentLedger.authById this !! AuthorisationEntry.id a = Some a.

Lemma append_cancel_l (p x y : string) : p +:+ x = p +:+ y → x = y.
Proof. induction p as [|c p IH]; simpl; [done|]. intros [=]. auto. Qed.

Lemma linked_from_app {A} (previous_hash hash payload : A → string) prev l1 l2 :
  linked_from previous_hash hash payload prev (l1 ++ l2) ↔
  linked_from previous_hash hash payload prev l1 ∧
  linked_from previous_hash hash payload (tip hash prev l1) l2.
Proof.
  revert prev. induction l1 as [|a l1 IH]; intros prev.
  - unfold tip; simpl. tauto.
  - simpl. rewrite IH, tip_cons. tauto.
Qed.

Lemma list_find_unique {A} (f : A → string) (l : list A) i a :
  NoDup (map f l) → l !! i = Some a →
  list_find (λ x, f x = f a) l = Some (i, a).
Proof.
  intros Hnodup Hi. apply list_find_Some. split_and!; [done..|].
  intros j y Hj Hlt Heq.
  assert (j = i); [|lia].
  eapply (NoDup_lookup _ j i (f a) Hnodup).
  - by rewrite list_lookup_fmap, Hj; simpl; rewrite Heq.
  - by rewrite list_lookup_fmap, Hi.
Qed.

(** Revoking changes the payload: the field [revoked] is printed in it. *)
Lemma revoked_payload_differs a r1 r2 h1 h2 :
  authorisationPayload
    (AuthorisationEntry.mk (AuthorisationEntry.id a)
       (AuthorisationEntry.timestamp a) (AuthorisationEntry.principal_id a)
       (AuthorisationEntry.agent_id a) (AuthorisationEntry.scope a)
       (AuthorisationEntry.description a) (AuthorisationEntry.constraints a)
       (AuthorisationEntry.expires_at a) true r1 h1
       (AuthorisationEntry.previous_hash a))
  ≠ authorisationPayload
    (AuthorisationEntry.mk (AuthorisationEntry.id a)
       (AuthorisationEntry.timestamp a) (AuthorisationEntry.principal_id a)
       (AuthorisationEntry.agent_id a) (AuthorisationEntry.scope a)
       (AuthorisationEntry.description a) (AuthorisationEntry.constraints a)
       (AuthorisationEntry.expires_at a) false r2 h2
       (AuthorisationEntry.previous_hash a)).
Proof.
  unfold authorisationPayload; cbn [String.concat AuthorisationEntry.id
    AuthorisationEntry.timestamp AuthorisationEntry.principal_id
    AuthorisationEntry.agent_id AuthorisationEntry.scope
    AuthorisationEntry.description AuthorisationEntry.constraints
    AuthorisationEntry.expires_at AuthorisationEntry.revoked
    AuthorisationEntry.revoked_at Boolean_toString].
  intros Heq.
  repeat (apply append_cancel_l in Heq; apply (append_cancel_l LF) in Heq).
  discriminate Heq.
Qed.

(** C2.  On a ledger that verifies, revoking a non-revoked authorisation
    replaces it in place by a copy with a different payload and a recomputed
    hash.  When the authorisation is the last element of its chain, [verify]
    still answers valid.  When an entry follows it, that entry keeps the
    previous hash it stored, which is the old hash of the revoked entry, so
    unless SHA-256 maps the two different payloads to one digest, [verify]
    answers invalid. *)
Theorem revoke_then_verify (this : ConsentLedger.t) (i : nat)
    (auth : AuthorisationEntry.t) (w : World) :
  VerifyResult.valid (ConsentLedger.verify this) = true →
  authorisations_indexed this →
  ConsentLedger.authorisations this !! i = Some auth →
  AuthorisationEntry.revoked auth = false →
  ∃ this' updated w',
    ConsentLedger.revoke this (AuthorisationEntry.id auth) w
    = (Ok (this', updated), w') ∧
    ConsentLedger.authorisations this'
    = <[i := updated]> (ConsentLedger.authorisations this) ∧
    AuthorisationEntry.revoked updated = true ∧
    authorisationPayload updated ≠ authorisationPayload auth ∧
    (S i = length (ConsentLedger.authorisations this) →
     VerifyResult.valid (ConsentLedger.verify this') = true) ∧
    (∀ next, ConsentLedger.authorisations this !! S i = Some next →
             AuthorisationEntry.hash updated ≠ AuthorisationEntry.hash auth →
             ConsentLedger.authorisations this' !! S i = Some next ∧
             AuthorisationEntry.previous_hash next
             ≠ AuthorisationEntry.hash updated ∧
             VerifyResult.valid (ConsentLedger.verify this') = false).
Proof.
  intros Hvalid [Hnodup Hindex] Hi Hrevoked.
  apply verify_chains_linked in Hvalid. destruct Hvalid as [Hauth Hact].
  pose proof (lookup_lt_Some _ _ _ Hi) as Hlt.
  unfold ConsentLedger.revoke.
  rewrite (Hindex auth) by (by eapply list_elem_of_lookup_2).
  rewrite Hrevoked. unfold bind, isoNow, ret.
  rewrite (list_find_unique AuthorisationEntry.id _ i auth Hnodup Hi).
  eexists _, _, _. split; [reflexivity|]. cbn [ConsentLedger.authorisations].
  split; [reflexivity|]. split; [reflexivity|].
  split.
  { pose proof (revoked_payload_differs auth
                  (Some (Date_now_iso (clock_reads w)))
                  (AuthorisationEntry.revoked_at auth)
                  (chainHash (AuthorisationEntry.previous_hash auth)
                     (authorisationPayload
                        (AuthorisationEntry.mk (AuthorisationEntry.id auth)
                           (AuthorisationEntry.timestamp auth)
                           (AuthorisationEntry.principal_id auth)
                           (AuthorisationEntry.agent_id auth)
                           (AuthorisationEntry.scope auth)
                           (AuthorisationEntry.description auth)
                           (AuthorisationEntry.constraints auth)
                           (AuthorisationEntry.expires_at auth) true
                           (Some (Date_now_iso (clock_reads w))) ""
                           (AuthorisationEntry.previous_hash auth))))
                  (AuthorisationEntry.hash auth)) as Hdiff.
    destruct auth; simpl in *; subst. exact Hdiff. }
  set (updated := AuthorisationEntry.set_hash _ _).
  rewrite <- (take_drop_middle _ i auth Hi) in Hauth.
  apply linked_from_app in Hauth. destruct Hauth as (Hpre & Hprev & Hhash & Hpost).
  assert (Hsplit : <[i := updated]> (ConsentLedger.authorisations this) =
                   (take i (ConsentLedger.authorisations this)
                    ++ updated :: drop (S i) (ConsentLedger.authorisations this))%list).
  { by rewrite insert_take_drop. }
  split.
  - intros Hlast. apply verify_chains_linked. split; [|done].
    cbn [ConsentLedger.authorisations]. rewrite Hsplit.
    apply linked_from_app. split; [done|].
    rewrite drop_ge by lia. simpl. done.
  - intros next Hnext Hfresh.
    assert (Hdrop : drop (S i) (ConsentLedger.authorisations this)
                    = next :: drop (S (S i)) (ConsentLedger.authorisations this)).
    { by apply drop_S. }
    rewrite Hdrop in Hpost. destruct Hpost as (Hnext_prev & _).
    split_and!.
    + rewrite list_lookup_insert_ne by lia. done.
    + rewrite Hnext_prev. done.
    + apply not_true_is_false. intros Hvalid'.
      apply verify_chains_linked in Hvalid'. destruct Hvalid' as [Hauth' _].
      cbn [ConsentLedger.authorisations] in Hauth'. rewrite Hsplit, Hdrop in Hauth'.
      apply linked_from_app in Hauth'. destruct Hauth' as (_ & _ & _ & Hbad & _).
      apply Hfresh. by rewrite <- Hbad, Hnext_prev.
Qed.
End Revocation.

Section MatcherProperties.
Context `{JSRuntime}.

(** C3.  [recordAction] has no failing path: also for an authorisation id that
    no authorisation of the ledger has, it appends the record to the action
    chain.  [checkConsent] on that record then answers [exceeded] with exactly
    one violation, of constraint type "authorisation" and severity critical. *)
Theorem recordAction_without_authorisation (this : ConsentLedger.t)
    (action : ConsentLedger.ActionFields) (w : World) :
  ConsentLedger.authById this !! ConsentLedger.action_authorisation_id action
  = None →
  ∃ this' record w1 m w2,
    ConsentLedger.recordAction this action w = ((this', record), w1) ∧
    ConsentLedger.actions this' = ConsentLedger.actions this ++ [record] ∧
    ActionRecord.authorisation_id record
    = ConsentLedger.action_authorisation_id action ∧
    ConsentLedger.checkConsent this' (ActionRecord.id record) w1 = (Ok m, w2) ∧
    ConsentMatch.status m = exceeded ∧
    ∃ v, ConsentMatch.violations m = [v] ∧
         ConsentViolation.constraint_type v = "authorisation" ∧
         ConsentViolation.severity v = critical.
Proof.
  intros Hnone.
  unfold ConsentLedger.recordAction, bind, generateId, isoNow, ret.
  eexists _, _, _, _, _. split; [reflexivity|].
  split; [reflexivity|]. split; [reflexivity|].
  unfold ConsentLedger.checkConsent, ConsentLedger.getAuthorisation.
  cbn [ConsentLedger.actionById ConsentLedger.authById ActionRecord.id
       ActionRecord.set_hash].
  rewrite lookup_insert_eq.
  cbn [ActionRecord.authorisation_id ActionRecord.set_hash]. rewrite Hnone.
  unfold matchConsent, bind, isoNow, ret. split; [reflexivity|].
  cbn [matchConsentAt ConsentMatch.status ConsentMatch.violations].
  split; [done|]. eexists. split; [reflexivity|]. done.
Qed.

(** C4.  For an authorisation with [revoked == true], [matchConsent] answers
    [revoked] with exactly one violation, of constraint type "revocation" and
    severity critical, whatever the expiry, the scope, the constraints and
    the context are; [checkConsent] answers the same for every recorded action
    whose authorisation the index finds revoked. *)
Theorem revoked_authorisation_match (authorisation : AuthorisationEntry.t)
    (action : ActionRecord.t) (context : option MatcherContext.t)
    (this : ConsentLedger.t) (w : World) :
  AuthorisationEntry.revoked authorisation = true →
  (let m := (matchConsent (Some authorisation) action context w).1 in
   ConsentMatch.status m = revoked_status ∧
   ∃ v, ConsentMatch.violations m = [v] ∧
        ConsentViolation.constraint_type v = "revocation" ∧
        ConsentViolation.severity v = critical) ∧
  (ConsentLedger.actionById this !! ActionRecord.id action = Some action →
   ConsentLedger.authById this !! ActionRecord.authorisation_id action
   = Some authorisation →
   ∃ m w',
     ConsentLedger.checkConsent this (ActionRecord.id action) w = (Ok m, w') ∧
     ConsentMatch.status m = revoked_status ∧
     ∃ v, ConsentMatch.violations m = [v] ∧
          ConsentViolation.constraint_type v = "revocation" ∧
          ConsentViolation.severity v = critical).
Proof.
  intros Hrevoked. split.
  - unfold matchConsent, bind, isoNow, ret; cbn [fst matchConsentAt].
    rewrite Hrevoked. cbn [ConsentMatch.status ConsentMatch.violations].
    split; [done|]. eexists. split; [reflexivity|]. done.
  - intros Haction Hauth.
    unfold ConsentLedger.checkConsent, ConsentLedger.getAuthorisation.
    rewrite Haction, Hauth.
    unfold matchConsent, bind, isoNow, ret; cbn [matchConsentAt].
    rewrite Hrevoked. eexists _, _. split; [reflexivity|].
    cbn [ConsentMatch.status ConsentMatch.violations].
    split; [done|]. eexists. split; [reflexivity|]. done.
Qed.
End MatcherProperties.

(** ** Comparisons of binary64 numbers *)

Section FloatFacts.

Lemma SFcompare_antisym x y : SFcompare y x = CompOpp <$> SFcompare x y.
Proof.
  destruct x as [sx|sx| |sx mx ex], y as [sy|sy| |sy my ey]; simpl;
    try destruct sx; try destruct sy; try reflexivity; f_equal.
  - rewrite (Z.compare_antisym ex ey). destruct (ex ?= ey)%Z; simpl; try done.
    f_equal. exact (eq_sym (Pos.compare_cont_antisym mx my Eq)).
  - rewrite (Z.compare_antisym ex ey). destruct (ex ?= ey)%Z; simpl; try done.
    exact (eq_sym (Pos.compare_cont_antisym mx my Eq)).
Qed.

Lemma SFcompare_refl x : x ≠ S754_nan → SFcompare x x = Some Eq.
Proof.
  destruct x as [s|s| |s m e]; simpl; intros Hx; try done.
  - by destruct s.
  - rewrite Z.compare_refl, Pos.compare_cont_refl. by destruct s.
Qed.

Lemma SFcompare_nan x y :
  SFcompare x y = None ↔ x = S754_nan ∨ y = S754_nan.
Proof.
  destruct x as [sx|sx| |sx mx ex], y as [sy|sy| |sy my ey]; simpl;
    split; intros Hxy; try done; try (by left); try (by right);
    by destruct Hxy.
Qed.

Lemma is_nan_Prim2SF x : PrimFloat.is_nan x = false ↔ Prim2SF x ≠ S754_nan.
Proof.
  unfold PrimFloat.is_nan. rewrite FloatAxioms.eqb_spec. unfold SFeqb. split.
  - intros Hx Hnan. rewrite Hnan in Hx. done.
  - intros Hx. by rewrite SFcompare_refl.
Qed.

(** [a <= b] excludes [b < a], and [a < b] excludes [b <= a]. *)
Lemma leb_true_ltb_false (a b : float) :
  (a <=? b)%float = true → (b <? a)%float = false.
Proof.
  rewrite FloatAxioms.leb_spec, FloatAxioms.ltb_spec. unfold SFleb, SFltb.
  rewrite (SFcompare_antisym (Prim2SF a) (Prim2SF b)).
  by destruct (SFcompare (Prim2SF a) (Prim2SF b)) as [[]|].
Qed.

Lemma ltb_true_leb_false (a b : float) :
  (a <? b)%float = true → (b <=? a)%float = false.
Proof.
  rewrite FloatAxioms.leb_spec, FloatAxioms.ltb_spec. unfold SFleb, SFltb.
  rewrite (SFcompare_antisym (Prim2SF a) (Prim2SF b)).
  by destruct (SFcompare (Prim2SF a) (Prim2SF b)) as [[]|].
Qed.

(** Between two numbers, neither NaN, "not [b <= a]" is [a < b]. *)
Lemma leb_false_iff_ltb (a b : float) :
  PrimFloat.is_nan a = false → PrimFloat.is_nan b = false →
  (b <=? a)%float = false ↔ (a <? b)%float = true.
Proof.
  rewrite !is_nan_Prim2SF. intros Ha Hb.
  rewrite FloatAxioms.leb_spec, FloatAxioms.ltb_spec. unfold SFleb, SFltb.
  rewrite (SFcompare_antisym (Prim2SF a) (Prim2SF b)).
  destruct (SFcompare (Prim2SF a) (Prim2SF b)) as [[]|] eqn:Hc; simpl;
    try (split; done).
  apply SFcompare_nan in Hc. tauto.
Qed.

(** For numbers that are not NaN, every pair is ordered one way or the
    other. *)
Lemma leb_or_ltb (a b : float) :
  PrimFloat.is_nan a = false → PrimFloat.is_nan b = false →
  (a <=? b)%float = true ∨ (b <? a)%float = true.
Proof.
  intros Ha Hb. destruct (b <? a)%float eqn:Hlt; [by right|left].
  destruct (a <=? b)%float eqn:Hle; [done|].
  apply (leb_false_iff_ltb b a) in Hle; [congruence|done..].
Qed.
End FloatFacts.

Section MonetaryLimit.
Context `{JSRuntime}.

Lemma parseNumber_not_nan value n :
  parseNumber value = Some n → PrimFloat.is_nan n = false.
Proof.
  destruct value; simpl; try done.
  - destruct (PrimFloat.is_nan n0) eqn:Hn; [done|]. by intros [= <-].
  - destruct (PrimFloat.is_nan (parseFloat s)) eqn:Hn; [done|]. by intros [= <-].
Qed.

(** Past the three short circuits, the violations of a match are those of
    the constraints, in their order. *)
Lemma matchConsent_constraints authorisation action context w :
  AuthorisationEntry.revoked authorisation = false →
  isExpired authorisation action = false →
  AuthorisationEntry.scope authorisation ≠ emergency →
  let m := (matchConsent (Some authorisation) action context w).1 in
  ConsentMatch.violations m
  = omap (evaluateConstraint authorisation action context)
         (AuthorisationEntry.constraints authorisation) ∧
  ConsentMatch.status m
  = if (0 <? length (ConsentMatch.violations m))%nat
    then exceeded else within_bounds.
Proof.
  intros Hrevoked Hexpired Hscope.
  unfold matchConsent, bind, isoNow, ret; cbn [fst matchConsentAt].
  rewrite Hrevoked, Hexpired. by rewrite decide_False.
Qed.

Lemma checkMonetaryLimit_rule constraint parameters L a :
  parseNumber (JString (ConsentConstraint.parameter constraint)) = Some L →
  parseNumber (prop parameters "amount" ?? prop parameters "value"
               ?? prop parameters "cost") = Some a →
  checkMonetaryLimit constraint parameters
  = if (L <? a)%float then
      Some {|
        ConsentViolation.constraint_type := "monetary_limit";
        ConsentViolation.expected :=
          "≤ " +:+ ConsentConstraint.parameter constraint;
        ConsentViolation.actual := Number_toString a;
        ConsentViolation.severity :=
          if (L * 1.5 <? a)%float then critical else major;
        ConsentViolation.description := ConsentConstraint.description constraint;
      |}
    else None.
Proof. intros HL Ha. unfold checkMonetaryLimit. by rewrite HL, Ha. Qed.

(** The lookup tries the keys [amount], [value] and [cost] in this order and
    stops at the first one that holds neither [null] nor [undefined]. *)
Lemma monetary_lookup_priority (parameters : gmap string JSValue) :
  prop parameters "amount" ?? prop parameters "value" ?? prop parameters "cost"
  = if negb (nullish (prop parameters "amount")) then prop parameters "amount"
    else if negb (nullish (prop parameters "value")) then prop parameters "value"
    else prop parameters "cost".
Proof.
  unfold coalesce.
  destruct (nullish (prop parameters "amount")) eqn:Hamount; simpl.
  - by destruct (nullish (prop parameters "value")).
  - by rewrite Hamount.
Qed.

(** C5.  For an authorisation that is neither revoked nor expired at the
    action's timestamp and whose scope is not emergency, take one of its
    monetary_limit constraints, with a parameter that parses to the number
    [L], and an action whose value under the keys amount, value, cost (the
    first that is present) is the number [a].  When [a <= L] the constraint
    yields no violation.  When [a > L] it yields a monetary_limit violation,
    which is among the violations of the match, the status is [exceeded], and
    the severity is critical when [a > L * 1.5] (the binary64 product the code
    computes) and major otherwise.  One of the two cases always applies.  With
    the single limit "500", the amount 320 gives [within_bounds] and the
    amount 1200 gives [exceeded] with one critical monetary_limit violation. *)
Theorem monetary_limit_rule (authorisation : AuthorisationEntry.t)
    (action : ActionRecord.t) (context : option MatcherContext.t) (w : World)
    (constraint : ConsentConstraint.t) (L a : float) :
  AuthorisationEntry.revoked authorisation = false →
  isExpired authorisation action = false →
  AuthorisationEntry.scope authorisation ≠ emergency →
  constraint ∈ AuthorisationEntry.constraints authorisation →
  ConsentConstraint.type constraint = monetary_limit →
  parseNumber (JString (ConsentConstraint.parameter constraint)) = Some L →
  parseNumber (prop (ActionRecord.parameters action) "amount"
               ?? prop (ActionRecord.parameters action) "value"
               ?? prop (ActionRecord.parameters action) "cost") = Some a →
  let m := (matchConsent (Some authorisation) action context w).1 in
  ((a <=? L)%float = true →
   evaluateConstraint authorisation action context constraint = None) ∧
  ((L <? a)%float = true →
   ∃ v, evaluateConstraint authorisation action context constraint = Some v ∧
        v ∈ ConsentMatch.violations m ∧
        ConsentMatch.status m = exceeded ∧
        ConsentViolation.constraint_type v = "monetary_limit" ∧
        ConsentViolation.severity v
        = if (L * 1.5 <? a)%float then critical else major) ∧
  ((a <=? L)%float = true ∨ (L <? a)%float = true) ∧
  (AuthorisationEntry.constraints authorisation = [constraint] →
   L = 500%float →
   (a = 320%float →
    ConsentMatch.status m = within_bounds ∧ ConsentMatch.violations m = []) ∧
   (a = 1200%float →
    ConsentMatch.status m = exceeded ∧
    ∃ v, ConsentMatch.violations m = [v] ∧
         ConsentViolation.constraint_type v = "monetary_limit" ∧
         ConsentViolation.severity v = critical)).
Proof.
  intros Hrevoked Hexpired Hscope Hin Htype HL Ha m.
  destruct (matchConsent_constraints authorisation action context w
              Hrevoked Hexpired Hscope) as [Hviolations Hstatus].
  fold m in Hviolations, Hstatus.
  assert (Heval : evaluateConstraint authorisation action context constraint
                  = checkMonetaryLimit constraint (ActionRecord.parameters action)).
  { unfold evaluateConstraint. by rewrite Htype. }
  rewrite Heval, (checkMonetaryLimit_rule _ _ L a HL Ha).
  split_and!.
  - intros Hle. by rewrite (leb_true_ltb_false a L Hle).
  - intros Hlt. rewrite Hlt. eexists. split; [reflexivity|].
    assert (Hv : {| ConsentViolation.constraint_type := "monetary_limit";
                    ConsentViolation.expected :=
                      "≤ " +:+ ConsentConstraint.parameter constraint;
                    ConsentViolation.actual := Number_toString a;
                    ConsentViolation.severity :=
                      if (L * 1.5 <? a)%float then critical else major;
                    ConsentViolation.description :=
                      ConsentConstraint.description constraint |}
                 ∈ ConsentMatch.violations m).
    { rewrite Hviolations. apply list_elem_of_omap. exists constraint.
      split; [done|]. by rewrite Heval, (checkMonetaryLimit_rule _ _ L a HL Ha), Hlt. }
    split_and!; [done| |done..].
    rewrite Hstatus. destruct (ConsentMatch.violations m); [|done].
    by apply elem_of_nil in Hv.
  - apply leb_or_ltb; by eapply parseNumber_not_nan.
  - intros Honly ->.
    assert (Hone : ConsentMatch.violations m
                   = omap (evaluateConstraint authorisation action context)
                          [constraint]).
    { by rewrite Hviolations, Honly. }
    cbn [omap list_omap] in Hone.
    rewrite Heval, (checkMonetaryLimit_rule _ _ _ a HL Ha) in Hone.
    split; intros ->.
    + rewrite Hstatus, Hone. done.
    + rewrite Hstatus, Hone. split; [done|].
      eexists. split; [reflexivity|]. done.
Qed.
End MonetaryLimit.

Section NotApplicable.
Context `{JSRuntime}.

(** None of the keys is a key of the action's parameters. *)
Definition keys_missing (parameters : gmap string JSValue) (keys : list string)
    : Prop :=
  Forall (λ key, parameters !! key = None) keys.

(** The inputs a constraint evaluator looks up are missing or do not parse:
    per constraint type, the keys it reads off the action's parameters and
    the numbers and dates it parses.  [custom] reads the two descriptions
    only, which are always there. *)
Definition inputs_unavailable (constraint : ConsentConstraint.t)
    (action : ActionRecord.t) (context : option MatcherContext.t) : Prop :=
  let parameters := ActionRecord.parameters action in
  let parameter := ConsentConstraint.parameter constraint in
  match ConsentConstraint.type constraint with
  | monetary_limit =>
      keys_missing parameters ["amount"; "value"; "cost"] ∨
      parseNumber (JString parameter) = None ∨
      parseNumber (prop parameters "amount" ?? prop parameters "value"
                   ?? prop parameters "cost") = None
  | domain_restriction => keys_missing parameters ["domain"; "category"; "type"]
  | time_window =>
      let parts := map trim (split "/"%char parameter) in
      match parts !! 0%nat, parts !! 1%nat with
      | Some start, Some end_ =>
          start = "" ∨ end_ = "" ∨ Date_getTime start = None ∨
          Date_getTime end_ = None ∨
          Date_getTime (ActionRecord.timestamp action) = None
      | _, _ => True
      end
  | approval_required => keys_missing parameters ["approval_obtained"; "approved"]
  | recipient_restriction => keys_missing parameters ["recipient"; "to"; "payee"]
  | frequency_limit =>
      optionalGet context MatcherContext.frequencyLimitByConstraint parameter
      = None ∧
      parseNumber (JString parameter) = None
  | custom => False
  end.

Lemma prop_missing (parameters : gmap string JSValue) key :
  parameters !! key = None → prop parameters key = JUndefined.
Proof. unfold prop. by intros ->. Qed.

Lemma unavailable_monetary_limit constraint parameters :
  keys_missing parameters ["amount"; "value"; "cost"] ∨
  parseNumber (JString (ConsentConstraint.parameter constraint)) = None ∨
  parseNumber (prop parameters "amount" ?? prop parameters "value"
               ?? prop parameters "cost") = None →
  checkMonetaryLimit constraint parameters = None.
Proof.
  unfold checkMonetaryLimit, keys_missing.
  intros [Hkeys|[Hlimit|Hamount]].
  - rewrite !Forall_cons in Hkeys. destruct Hkeys as (Ha & Hv & Hc & _).
    rewrite !prop_missing by done. cbn [coalesce nullish].
    change (parseNumber JUndefined) with (@None float).
    by destruct (parseNumber (JString _)).
  - by rewrite Hlimit.
  - rewrite Hamount. by destruct (parseNumber (JString _)).
Qed.

Lemma unavailable_domain_restriction constraint parameters :
  keys_missing parameters ["domain"; "category"; "type"] →
  checkDomainRestriction constraint parameters = None.
Proof.
  unfold checkDomainRestriction, keys_missing. rewrite !Forall_cons.
  intros (Hd & Hc & Ht & _). rewrite !prop_missing by done.
  cbn [coalesce nullish ToString]. by rewrite toLowerCase_empty.
Qed.

Lemma unavailable_recipient_restriction constraint parameters :
  keys_missing parameters ["recipient"; "to"; "payee"] →
  checkRecipientRestriction constraint parameters = None.
Proof.
  unfold checkRecipientRestriction, keys_missing. rewrite !Forall_cons.
  intros (Hr & Ht & Hp & _). rewrite !prop_missing by done.
  cbn [coalesce nullish ToString]. by rewrite toLowerCase_empty.
Qed.

Lemma unavailable_time_window constraint actionTimestamp :
  (let parts := map trim (split "/"%char (ConsentConstraint.parameter constraint)) in
   match parts !! 0%nat, parts !! 1%nat with
   | Some start, Some end_ =>
       start = "" ∨ end_ = "" ∨ Date_getTime start = None ∨
       Date_getTime end_ = None ∨ Date_getTime actionTimestamp = None
   | _, _ => True
   end) →
  checkTimeWindow constraint actionTimestamp = None.
Proof.
  unfold checkTimeWindow. cbn zeta.
  destruct (map trim _ !! 0%nat) as [start|]; [|done].
  destruct (map trim _ !! 1%nat) as [end_|]; [|done].
  intros [->|[->|[Hs|[He|Ht]]]].
  - done.
  - by rewrite orb_true_r.
  - rewrite Hs. by destruct (_ || _).
  - rewrite He. by destruct (_ || _), (Date_getTime start).
  - rewrite Ht. by destruct (_ || _), (Date_getTime start), (Date_getTime end_).
Qed.

Lemma unavailable_frequency_limit constraint parameters count :
  parseNumber (JString (ConsentConstraint.parameter constraint)) = None →
  checkFrequencyLimit constraint parameters count None = None.
Proof. unfold checkFrequencyLimit. by intros ->. Qed.

(** An approval that was never recorded is a violation. *)
Lemma missing_approval constraint parameters :
  keys_missing parameters ["approval_obtained"; "approved"] →
  checkApprovalRequired constraint parameters
  = Some {|
      ConsentViolation.constraint_type := "approval_required";
      ConsentViolation.expected := "approval obtained";
      ConsentViolation.actual := "none";
      ConsentViolation.severity := major;
      ConsentViolation.description := ConsentConstraint.description constraint;
    |}.
Proof.
  unfold checkApprovalRequired, keys_missing. rewrite !Forall_cons.
  intros (Ho & Ha & _). by rewrite !prop_missing.
Qed.

(** C6, as amended.  For every constraint type but approval_required, when
    the keys the evaluator looks up are missing from the action's parameters,
    or what it parses as a number or a date does not parse, the evaluator
    yields no violation.  For approval_required, the approval keys being
    missing is itself a violation, of severity major, whose actual value reads
    "none". *)
Theorem unavailable_inputs_rule (authorisation : AuthorisationEntry.t)
    (action : ActionRecord.t) (context : option MatcherContext.t)
    (constraint : ConsentConstraint.t) :
  inputs_unavailable constraint action context →
  (ConsentConstraint.type constraint ≠ approval_required →
   evaluateConstraint authorisation action context constraint = None) ∧
  (ConsentConstraint.type constraint = approval_required →
   ∃ v, evaluateConstraint authorisation action context constraint = Some v ∧
        ConsentViolation.constraint_type v = "approval_required" ∧
        ConsentViolation.severity v = major ∧
        ConsentViolation.actual v = "none").
Proof.
  unfold inputs_unavailable, evaluateConstraint. cbn zeta.
  destruct (ConsentConstraint.type constraint); intros Hmissing;
    (split; [intros Hother|intros [=]]); try done.
  - by apply unavailable_monetary_limit.
  - by apply unavailable_domain_restriction.
  - by apply unavailable_time_window.
  - rewrite (missing_approval _ _ Hmissing). eexists. split; [reflexivity|done].
  - by apply unavailable_recipient_restriction.
  - destruct Hmissing as [-> Hlimit]. rewrite Hlimit.
    by apply unavailable_frequency_limit.
Qed.
End NotApplicable.

Section FrequencyCount.
Context `{JSRuntime}.

(** What [n] rounds of [(count ?? 0) + 1] leave in a map entry. *)
Definition counted (n : nat) (entry : option float) : option float :=
  Nat.iter n (λ entry, Some (default 0 entry + 1)%float) entry.

(** The recorded actions that claim an authorisation. *)
Definition claiming (authorisation_id : string) (actions : list ActionRecord.t)
    : list ActionRecord.t :=
  filter (λ a, ActionRecord.authorisation_id a = authorisation_id) actions.

Lemma count_loop (actions : list ActionRecord.t) (counts : gmap string float) aid :
  foldl (λ (counts : gmap string float) a,
           <[ActionRecord.authorisation_id a :=
               (default 0 (counts !! ActionRecord.authorisation_id a) + 1)%float]>
             counts)
        counts actions !! aid
  = counted (length (claiming aid actions)) (counts !! aid).
Proof.
  revert counts. induction actions as [|a actions IH]; intros counts; [done|].
  cbn [foldl]. rewrite IH. unfold claiming. rewrite filter_cons.
  destruct (decide (ActionRecord.authorisation_id a = aid)) as [<-|Hne].
  - rewrite lookup_insert_eq. cbn [length]. unfold counted.
    by rewrite Nat.iter_succ_r.
  - by rewrite lookup_insert_ne.
Qed.

(** The count the facade hands to the matcher for an authorisation is one
    per recorded action that claims it, whenever the action was recorded. *)
Lemma buildMatcherContext_count this aid :
  optionalGet (Some (ConsentLedger.buildMatcherContext this))
              MatcherContext.actionCountByAuthorisationInPeriod aid
  = counted (length (claiming aid (ConsentLedger.actions this))) None.
Proof.
  unfold ConsentLedger.buildMatcherContext, optionalGet.
  cbn [MatcherContext.actionCountByAuthorisationInPeriod].
  by rewrite count_loop, lookup_empty.
Qed.
End FrequencyCount.

(** Two actions under one authorisation, recorded two days apart. *)
Definition action_on_day_1 : ActionRecord.t :=
  {| ActionRecord.id := "action-1";
     ActionRecord.timestamp := "2024-01-01T00:00:00.000Z";
     ActionRecord.agent_id := "agent-1";
     ActionRecord.authorisation_id := "auth-1";
     ActionRecord.action_type := "query";
     ActionRecord.description := "Query 1";
     ActionRecord.parameters := ∅;
     ActionRecord.clearpath_trace_id := None;
     ActionRecord.hash := "h1";
     ActionRecord.previous_hash := "0" |}.

Definition action_on_day_3 : ActionRecord.t :=
  {| ActionRecord.id := "action-2";
     ActionRecord.timestamp := "2024-01-03T00:00:00.000Z";
     ActionRecord.agent_id := "agent-1";
     ActionRecord.authorisation_id := "auth-1";
     ActionRecord.action_type := "query";
     ActionRecord.description := "Query 2";
     ActionRecord.parameters := ∅;
     ActionRecord.clearpath_trace_id := None;
     ActionRecord.hash := "h2";
     ActionRecord.previous_hash := "h1" |}.

Definition once_a_day : ConsentConstraint.t :=
  {| ConsentConstraint.type := frequency_limit;
     ConsentConstraint.description := "At most one query a day";
     ConsentConstraint.parameter := "1" |}.

Section FrequencyCountExample.
Context `{JSRuntime}.

(** C7, what the code does.  The count [buildMatcherContext] supplies for an
    authorisation is the number of all recorded actions that claim it, added
    up one by one from 0: the 24-hour bucket the loop computes for each action
    is not used.  Two actions recorded two days apart are counted as 2, and a
    limit of 1 is then reported as violated, with severity major. *)
Theorem frequency_count_is_total (this : ConsentLedger.t) (aid : string)
    (principal_id : string) (authorisations : list AuthorisationEntry.t)
    (authById : gmap string AuthorisationEntry.t)
    (actionById : gmap string ActionRecord.t) :
  optionalGet (Some (ConsentLedger.buildMatcherContext this))
              MatcherContext.actionCountByAuthorisationInPeriod aid
  = counted (length (claiming aid (ConsentLedger.actions this))) None ∧
  optionalGet
    (Some (ConsentLedger.buildMatcherContext
             (ConsentLedger.mk principal_id authorisations
                [action_on_day_1; action_on_day_3] authById actionById)))
    MatcherContext.actionCountByAuthorisationInPeriod "auth-1"
  = Some 2%float ∧
  ∃ v, checkFrequencyLimit once_a_day ∅ (Some 2%float) (Some 1%float) = Some v ∧
       ConsentViolation.constraint_type v = "frequency_limit" ∧
       ConsentViolation.severity v = major.
Proof.
  split; [apply buildMatcherContext_count|]. split.
  - by rewrite buildMatcherContext_count.
  - eexists. split; [reflexivity|]. done.
Qed.
End FrequencyCountExample.

Section RoundTrip.
Context `{JSRuntime}.

(** The snapshot [toJSON] serialises. *)
Definition snapshot_of (this : ConsentLedger.t) : LedgerSnapshot.t :=
  {| LedgerSnapshot.schema := schema;
     LedgerSnapshot.principal_id := ConsentLedger.principal_id this;
     LedgerSnapshot.authorisations := ConsentLedger.authorisations this;
     LedgerSnapshot.actions := ConsentLedger.actions this |}.

(** C10.  Provided [JSON.parse] gives back the snapshot that
    [JSON.stringify] was given, [fromJSON (toJSON this)] is a ledger with the
    same principal, the same authorisations in the same order, the same
    actions in the same order, and the same [verify] result, validity and
    counts. *)
Theorem export_import_round_trip (this : ConsentLedger.t) :
  JSON_parse (JSON_stringify_snapshot (snapshot_of this)) = Ok (snapshot_of this) →
  ∃ restored,
    ConsentLedger.fromJSON (ConsentLedger.toJSON this) = Ok restored ∧
    ConsentLedger.principal_id restored = ConsentLedger.principal_id this ∧
    ConsentLedger.authorisations restored = ConsentLedger.authorisations this ∧
    ConsentLedger.actions restored = ConsentLedger.actions this ∧
    ConsentLedger.verify restored = ConsentLedger.verify this.
Proof.
  intros Hcodec. unfold ConsentLedger.fromJSON, ConsentLedger.toJSON.
  fold (snapshot_of this). rewrite Hcodec.
  cbn [snapshot_of LedgerSnapshot.schema negb].
  eexists. split; [reflexivity|]. done.
Qed.
End RoundTrip.

(** ** Loops that push patterns *)

Section PushEach.
Context {A B : Type}.

Lemma pushEach_source (body : A → M (option B)) l w p :
  p ∈ (pushEach body l w).1 → ∃ x w', x ∈ l ∧ (body x w').1 = Some p.
Proof.
  revert w. induction l as [|x l IH]; intros w; cbn [pushEach].
  - unfold ret; simpl. by intros ?%elem_of_nil.
  - unfold bind, ret. destruct (body x w) as [pushed w1] eqn:Hbody.
    specialize (IH w1). destruct (pushEach body l w1) as [patterns w2].
    cbn [fst] in *. intros Hp.
    assert (Hcases : pushed = Some p ∨ p ∈ patterns).
    { destruct pushed as [q|]; [|by right].
      apply elem_of_cons in Hp as [->|Hp]; [by left|by right]. }
    destruct Hcases as [->|Hp'].
    + exists x, w. split; [apply list_elem_of_here|]. by rewrite Hbody.
    + destruct (IH Hp') as (y & w' & Hy & Hbody'). exists y, w'.
      split; [by apply list_elem_of_further|done].
Qed.


Lemma pushEach_none (body : A → M (option B)) l w :
  (∀ x w', x ∈ l → (body x w').1 = None) → (pushEach body l w).1 = [].
Proof.
  intros Hnone. destruct (pushEach body l w).1 as [|p patterns] eqn:Hpushed;
    [done|].
  destruct (pushEach_source body l w p) as (x & w' & Hx & Hbody).
  - rewrite Hpushed. apply list_elem_of_here.
  - by rewrite (Hnone x w' Hx) in Hbody.
Qed.
End PushEach.

(** ** The sort and the grouping of the detectors *)

Section SortFacts.
Context {A : Type} (compare : A → A → option Z).

Lemma sort_insert_perm x l : sort_insert compare x l ≡ₚ x :: l.
Proof.
  induction l as [|y l IH]; cbn [sort_insert]; [done|].
  destruct (match compare x y with Some d => (d <=? 0)%Z | None => true end);
    [done|].
  rewrite IH. apply perm_swap.
Qed.

Lemma Array_sort_perm l : Array_sort compare l ≡ₚ l.
Proof.
  induction l as [|x l IH]; [done|].
  unfold Array_sort in *. cbn [foldr]. by rewrite sort_insert_perm, IH.
Qed.

Lemma Array_sort_length l : length (Array_sort compare l) = length l.
Proof. by rewrite Array_sort_perm. Qed.

Lemma Array_sort_elem x l : x ∈ Array_sort compare l ↔ x ∈ l.
Proof. by rewrite Array_sort_perm. Qed.

(** A list in which no element has to move is left as it is. *)
Lemma Array_sort_in_order l :
  (∀ x y, x ∈ l → y ∈ l →
          match compare x y with Some d => (d <=? 0)%Z | None => true end = true) →
  Array_sort compare l = l.
Proof.
  induction l as [|x l IH]; intros Hle; [done|].
  unfold Array_sort in *. cbn [foldr]. rewrite IH.
  - destruct l as [|y l]; [done|]. cbn [sort_insert].
    rewrite Hle; [done|apply list_elem_of_here|].
    apply list_elem_of_further, list_elem_of_here.
  - intros y z Hy Hz. apply Hle; by apply list_elem_of_further.
Qed.

(** When the comparator is the difference of an integer key, the result is
    in ascending order of the key. *)
Lemma sort_insert_sorted (key : A → Z) x l :
  (∀ y, compare x y = Some (key x - key y)%Z) →
  Sorted (λ a b, (key a ≤ key b)%Z) l →
  Sorted (λ a b, (key a ≤ key b)%Z) (sort_insert compare x l).
Proof.
  intros Hcompare. induction 1 as [|y l Hsorted IH Hhd]; cbn [sort_insert].
  - by repeat constructor.
  - rewrite Hcompare. destruct (Z.leb_spec (key x - key y) 0).
    + constructor; [by constructor|]. constructor. lia.
    + constructor; [done|].
      destruct l as [|z l]; cbn [sort_insert].
      * constructor. lia.
      * rewrite Hcompare. destruct (Z.leb_spec (key x - key z) 0).
        -- constructor. lia.
        -- constructor. by inversion Hhd.
Qed.

Lemma Array_sort_sorted (key : A → Z) l :
  (∀ x y, compare x y = Some (key x - key y)%Z) →
  Sorted (λ a b, (key a ≤ key b)%Z) (Array_sort compare l).
Proof.
  intros Hcompare. induction l as [|x l IH]; [constructor|].
  unfold Array_sort in *. cbn [foldr]. by apply sort_insert_sorted.
Qed.
End SortFacts.

Section Grouping.
Context `{JSRuntime}.

Lemma group_loop (actions : list ActionRecord.t)
    (byAuth : gmap string (list ActionRecord.t)) aid :
  default [] (foldl (λ byAuth a,
                       let group :=
                         default [] (byAuth !! ActionRecord.authorisation_id a) in
                       <[ActionRecord.authorisation_id a := (group ++ [a])%list]>
                         byAuth)
                    byAuth actions !! aid)
  = (default [] (byAuth !! aid) ++ claiming aid actions)%list.
Proof.
  revert byAuth. induction actions as [|a actions IH]; intros byAuth.
  - by rewrite app_nil_r.
  - cbn [foldl]. rewrite IH. unfold claiming. rewrite filter_cons.
    destruct (decide (ActionRecord.authorisation_id a = aid)) as [<-|Hne].
    + rewrite lookup_insert_eq. simpl. by rewrite <- app_assoc.
    + by rewrite lookup_insert_ne.
Qed.

(** The actions a detector looks at for an authorisation: the recorded
    actions that claim its id, sorted by timestamp. *)
Lemma sortedActionsOf_claiming actions auth :
  sortedActionsOf (groupByAuthorisation actions) auth
  = Array_sort byTimestamp (claiming (AuthorisationEntry.id auth) actions).
Proof.
  unfold sortedActionsOf, groupByAuthorisation.
  by rewrite group_loop, lookup_empty.
Qed.

(** When every timestamp is a valid date, that order is ascending in time. *)
Lemma sortedActionsOf_ascending actions auth (time : ActionRecord.t → Z) :
  (∀ a, Date_getTime (ActionRecord.timestamp a) = Some (time a)) →
  Sorted (λ a b, (time a ≤ time b)%Z)
         (sortedActionsOf (groupByAuthorisation actions) auth).
Proof.
  intros Hvalid. rewrite sortedActionsOf_claiming.
  apply Array_sort_sorted. intros x y. unfold byTimestamp.
  by rewrite !Hvalid.
Qed.
End Grouping.

(** ** Gradual expansion *)

Section GradualExpansion.
Context `{JSRuntime}.

(** The data points of an authorisation: its actions in timestamp order, the
    ones without a parseable amount left out. *)
Definition gradual_values (actions : list ActionRecord.t)
    (auth : AuthorisationEntry.t) : list DataPoint.t :=
  monetaryValues
    (Array_sort byTimestamp (claiming (AuthorisationEntry.id auth) actions)).

Definition ratios_of (limit : float) (values : list DataPoint.t) : list float :=
  map (λ x, (DataPoint.v x / limit)%float) values.

Definition final_ratio (ratios : list float) : float := default nan (last ratios).

(** No ratio is less than or equal to the ratio before it: what the loop of
    the detector checks. *)
Definition no_step_back (ratios : list float) : Prop :=
  ∀ i x y, ratios !! i = Some x → ratios !! S i = Some y →
           (y <=? x)%float = false.


(** The condition under which the detector pushes a pattern. *)
Definition gradual_condition (limit : float) (values : list DataPoint.t) : Prop :=
  (3 ≤ length values)%nat ∧
  no_step_back (ratios_of limit values) ∧
  (0.7 <=? final_ratio (ratios_of limit values))%float = true.

(** The pattern the detector pushes for these data points. *)
Definition gradual_pattern_of (limit : float) (values : list DataPoint.t)
    (p : ScopeCreepPattern.t) : Prop :=
  ScopeCreepPattern.pattern_type p = gradual_expansion ∧
  ScopeCreepPattern.evidence_ids p = map DataPoint.id values ∧
  ScopeCreepPattern.severity p
  = Math_min 0.9 (0.3 + final_ratio (ratios_of limit values) * 0.5)%float ∧
  ScopeCreepPattern.occurrences p = length values.

Lemma rising_no_step_back (ratios : list float) :
  rising PrimFloat.leb ratios = true ↔ no_step_back ratios.
Proof.
  unfold no_step_back. induction ratios as [|x [|y ratios] IH]; cbn [rising].
  - split; [|done]. by intros _ i x y ?.
  - split; [|done]. intros _ [|i] a b ? ?; simplify_eq/=.
  - destruct (y <=? x)%float eqn:Hle.
    + split; [done|]. intros Hall.
      specialize (Hall 0%nat x y eq_refl eq_refl). congruence.
    + rewrite IH. split.
      * intros Hall [|i] a b ? ?; simplify_eq/=; [done|by eapply Hall].
      * intros Hall i a b ? ?. by apply (Hall (S i)).
Qed.


Lemma gradualExpansionFor_spec actions auth limit w :
  getLimitForAuth auth monetary_limit = Some limit →
  let values := gradual_values actions auth in
  match (gradualExpansionFor (groupByAuthorisation actions) auth w).1 with
  | Some p => gradual_condition limit values ∧ gradual_pattern_of limit values p
  | None => ¬ gradual_condition limit values
  end.
Proof.
  intros Hlimit values. unfold gradualExpansionFor. rewrite Hlimit.
  rewrite sortedActionsOf_claiming. fold (gradual_values actions auth).
  fold values. unfold gradual_condition, MIN_DATA_POINTS.
  destruct (Nat.ltb_spec (length values) 3) as [Hshort|Hlong].
  { unfold ret; simpl. lia. }
  fold (ratios_of limit values). fold (final_ratio (ratios_of limit values)).
  pose proof (rising_no_step_back (ratios_of limit values)) as Hiff.
  destruct (rising PrimFloat.leb (ratios_of limit values)) eqn:Hrising;
    destruct (0.7 <=? final_ratio (ratios_of limit values))%float eqn:Hfinal;
    cbn [andb]; unfold bind, generateId, ret; cbn [fst].
  - split; [|by split_and!]. split_and!; [done| |done]. by apply Hiff.
  - intros (_ & _ & ?). done.
  - intros (_ & Hback & _). apply Hiff in Hback. done.
  - intros (_ & Hback & _). apply Hiff in Hback. done.
Qed.

Lemma gradualExpansionFor_no_limit actions auth w :
  getLimitForAuth auth monetary_limit = None →
  (gradualExpansionFor (groupByAuthorisation actions) auth w).1 = None.
Proof. intros Hlimit. unfold gradualExpansionFor. by rewrite Hlimit. Qed.
End GradualExpansion.

(** ** What [detectScopeCreep] returns *)

Section ScopeCreep.
Context `{JSRuntime}.

(** The input the facade hands to the detectors. *)
Definition drift_input (this : ConsentLedger.t) (matches : list ConsentMatch.t)
    : DriftDetectorInput.t :=
  {| DriftDetectorInput.authorisations := ConsentLedger.authorisations this;
     DriftDetectorInput.actions := ConsentLedger.actions this;
     DriftDetectorInput.violationsByAction :=
       Some (ConsentLedger.indexMatches matches).1;
     DriftDetectorInput.matchStatusByAction :=
       Some (ConsentLedger.indexMatches matches).2 |}.

Lemma facade_detectScopeCreep this w :
  ConsentLedger.detectScopeCreep this w
  = detectScopeCreep (drift_input this (ConsentLedger.checkAllActions this w).1)
                     (ConsentLedger.checkAllActions this w).2.
Proof.
  unfold ConsentLedger.detectScopeCreep, bind, drift_input.
  destruct (ConsentLedger.checkAllActions this w) as [matches w1].
  cbn [fst snd]. by destruct (ConsentLedger.indexMatches matches).
Qed.

Lemma detectScopeCreep_source input w p :
  p ∈ (detectScopeCreep input w).1 →
  (3 ≤ length (ScopeCreepPattern.evidence_ids p))%nat ∧
  ((∃ w', p ∈ (detectGradualExpansion (DriftDetectorInput.authorisations input)
                 (DriftDetectorInput.actions input) w').1) ∨
   (∃ w', p ∈ (detectFrequencyEscalation (DriftDetectorInput.authorisations input)
                 (DriftDetectorInput.actions input) w').1) ∨
   (∃ w', p ∈ (detectDomainDrift (DriftDetectorInput.authorisations input)
                 (DriftDetectorInput.actions input) w').1) ∨
   (∃ w', p ∈ (detectConstraintErosion (DriftDetectorInput.authorisations input)
                 (DriftDetectorInput.actions input)
                 (default [] (DriftDetectorInput.violationsByAction input)) w').1) ∨
   (∃ w', p ∈ (detectAuthorityInflation (DriftDetectorInput.authorisations input)
                 (DriftDetectorInput.actions input)
                 (default ∅ (DriftDetectorInput.matchStatusByAction input)) w').1)).
Proof.
  unfold detectScopeCreep, bind, ret.
  destruct (detectGradualExpansion _ _ w) as [gradual w1] eqn:Hg.
  destruct (detectFrequencyEscalation _ _ w1) as [frequency w2] eqn:Hf.
  destruct (detectDomainDrift _ _ w2) as [drift w3] eqn:Hd.
  destruct (detectConstraintErosion _ _ _ w3) as [erosion w4] eqn:He.
  destruct (detectAuthorityInflation _ _ _ w4) as [inflation w5] eqn:Hi.
  cbn [fst]. rewrite list_elem_of_filter, !elem_of_app.
  intros [Hlen Hp]. split; [done|].
  destruct Hp as [Hp|[Hp|[Hp|[Hp|Hp]]]].
  - left. exists w. by rewrite Hg.
  - right; left. exists w1. by rewrite Hf.
  - do 2 right; left. exists w2. by rewrite Hd.
  - do 3 right; left. exists w3. by rewrite He.
  - do 4 right. exists w4. by rewrite Hi.
Qed.


Lemma monetaryValues_ids sorted :
  map DataPoint.id (monetaryValues sorted) ⊆ map ActionRecord.id sorted.
Proof.
  intros e. unfold monetaryValues.
  rewrite !list_elem_of_fmap. intros (x & -> & Hx).
  apply list_elem_of_omap in Hx as (a & Ha & Hsome).
  destruct (getMonetaryValue _); [|done]. simplify_eq/=. by exists a.
Qed.

Lemma monetaryValues_length sorted :
  (length (monetaryValues sorted) ≤ length sorted)%nat.
Proof.
  unfold monetaryValues. induction sorted as [|a sorted IH]; [done|].
  cbn [omap list_omap]. destruct (getMonetaryValue _); cbn [length]; lia.
Qed.

(** Every pattern of [detectGradualExpansion] was pushed for one of the
    authorisations, under the detector's condition. *)
Lemma detectGradualExpansion_source authorisations actions w p :
  p ∈ (detectGradualExpansion authorisations actions w).1 →
  ∃ auth limit,
    auth ∈ authorisations ∧
    getLimitForAuth auth monetary_limit = Some limit ∧
    gradual_condition limit (gradual_values actions auth) ∧
    gradual_pattern_of limit (gradual_values actions auth) p.
Proof.
  unfold detectGradualExpansion. intros Hp.
  apply pushEach_source in Hp as (auth & w' & Hauth & Hbody).
  destruct (getLimitForAuth auth monetary_limit) as [limit|] eqn:Hlimit.
  - exists auth, limit. split_and!; [done..| |].
    + pose proof (gradualExpansionFor_spec actions auth limit w' Hlimit) as Hspec.
      rewrite Hbody in Hspec. apply Hspec.
    + pose proof (gradualExpansionFor_spec actions auth limit w' Hlimit) as Hspec.
      rewrite Hbody in Hspec. apply Hspec.
  - by rewrite gradualExpansionFor_no_limit in Hbody.
Qed.

End ScopeCreep.

(** * A runtime to run the code on

    [ExampleRuntime] implements [JSRuntime] well enough to execute the ledger
    on the inputs of the examples below: decimal integers for [parseFloat],
    the [toISOString] format for dates, ASCII for case mapping and trimming.
    Its digest is an injective stand-in for SHA-256, its clock ticks once a
    second from 2024-01-01, and its JSON codec knows one snapshot.  The
    theorems do not depend on it: they hold for every runtime. *)

Module Example.

Definition digit_of (c : ascii) : option Z :=
  let n := Z.of_N (N_of_ascii c) in
  if ((48 <=? n) && (n <=? 57))%Z then Some (n - 48)%Z else None.

Fixpoint digits_value (acc : Z) (s : string) : option Z :=
  match s with
  | EmptyString => Some acc
  | String c rest =>
      match digit_of c with
      | Some d => digits_value (10 * acc + d)%Z rest
      | None => None
      end
  end.

Definition decimal (s : string) : option Z :=
  match s with
  | EmptyString => None
  | _ => digits_value 0 s
  end.

Definition parseFloat (s : string) : float :=
  match decimal s with
  | Some z => PrimFloat.of_uint63 (Uint63.of_Z z)
  | None => nan
  end.

(** Days from 1970-01-01 to a date of the proleptic Gregorian calendar. *)
Definition days_from_civil (y m d : Z) : Z :=
  let y := (if m <=? 2 then y - 1 else y)%Z in
  let era := (y / 400)%Z in
  let yoe := (y - era * 400)%Z in
  let doy := ((153 * (if 2 <? m then m - 3 else m + 9) + 2) / 5 + d - 1)%Z in
  let doe := (yoe * 365 + yoe / 4 - yoe / 100 + doy)%Z in
  (era * 146097 + doe - 719468)%Z.

Definition has_char (s : string) (i : nat) (c : ascii) : bool :=
  match String.get i s with
  | Some c' => Ascii.eqb c c'
  | None => false
  end.

(** Dates in the format of [toISOString], [YYYY-MM-DDTHH:mm:ss.sssZ]. *)
Definition Date_getTime (s : string) : option Z :=
  if negb ((String.length s =? 24)%nat && has_char s 4 "-" && has_char s 7 "-"
           && has_char s 10 "T" && has_char s 13 ":" && has_char s 16 ":"
           && has_char s 19 "." && has_char s 23 "Z")
  then None
  else
    match decimal (substring 0 4 s), decimal (substring 5 2 s),
          decimal (substring 8 2 s), decimal (substring 11 2 s),
          decimal (substring 14 2 s), decimal (substring 17 2 s),
          decimal (substring 20 3 s) with
    | Some y, Some m, Some d, Some hh, Some mm, Some ss, Some ms =>
        if ((1 <=? m) && (m <=? 12) && (1 <=? d) && (d <=? 31) && (hh <? 24)
            && (mm <? 60) && (ss <? 60))%Z
        then Some ((((days_from_civil y m d * 24 + hh) * 60 + mm) * 60 + ss)
                   * 1000 + ms)%Z
        else None
    | _, _, _, _, _, _, _ => None
    end.

Definition lower (c : ascii) : ascii :=
  let n := N_of_ascii c in
  if ((65 <=? n) && (n <=? 90))%N then ascii_of_N (n + 32) else c.

Fixpoint toLowerCase (s : string) : string :=
  match s with
  | EmptyString => EmptyString
  | String c rest => String (lower c) (toLowerCase rest)
  end.

Definition is_space (c : ascii) : bool :=
  let n := N_of_ascii c in ((n =? 32) || ((9 <=? n) && (n <=? 13)))%N.

Fixpoint trim_start (s : string) : string :=
  match s with
  | EmptyString => EmptyString
  | String c rest => if is_space c then trim_start rest else s
  end.

Fixpoint trim_end (s : string) : string :=
  match s with
  | EmptyString => EmptyString
  | String c rest =>
      match trim_end rest with
      | EmptyString => if is_space c then EmptyString else String c EmptyString
      | rest' => String c rest'
      end
  end.

Definition trim (s : string) : string := trim_end (trim_start s).

Fixpoint trim_zeros (s : string) : string :=
  match s with
  | EmptyString => EmptyString
  | String c rest =>
      match trim_zeros rest with
      | EmptyString =>
          if Ascii.eqb c "0" then EmptyString else String c EmptyString
      | rest' => String c rest'
      end
  end.

(** Integers are printed as JavaScript prints them; other finite numbers by
    their exact decimal expansion. *)
Definition Number_toString (n : float) : string :=
  match Prim2SF n with
  | S754_zero _ => "0"
  | S754_infinity s => if s then "-Infinity" else "Infinity"
  | S754_nan => "NaN"
  | S754_finite s m e =>
      let sign := if s then "-" else "" in
      match e with
      | Zneg k =>
          let unit := Z.pow 2 (Zpos k) in
          let whole := (Zpos m / unit)%Z in
          let part := (Zpos m mod unit)%Z in
          if (part =? 0)%Z then sign +:+ pretty whole
          else
            let digits := pretty (part * Z.pow 5 (Zpos k))%Z in
            sign +:+ pretty whole +:+ "." +:+
            trim_zeros
              (String.concat ""
                 (replicate (Pos.to_nat k - String.length digits) "0")
               +:+ digits)
      | _ => sign +:+ pretty (Zpos m * Z.pow 2 e)%Z
      end
  end.

Definition Object_keys_sorted (o : gmap string JSValue) : list string :=
  Array_sort (λ a b, Some match String.compare a b with
                          | Lt => (-1)%Z | Eq => 0%Z | Gt => 1%Z
                          end)
             (map fst (map_to_list o)).

Definition quote : string := String (ascii_of_nat 34) EmptyString.

Fixpoint render (v : JSValue) : option string :=
  match v with
  | JUndefined => None
  | JNull => Some "null"
  | JBool b => Some (Boolean_toString b)
  | JNumber n =>
      Some match Prim2SF n with
           | S754_nan | S754_infinity _ => "null"
           | _ => Number_toString n
           end
  | JString s => Some (quote +:+ s +:+ quote)
  | JArray items =>
      Some ("[" +:+
            String.concat ","
              ((fix each (l : list JSValue) : list string :=
                  match l with
                  | [] => []
                  | x :: l' => default "null" (render x) :: each l'
                  end) items)
            +:+ "]")
  | JObject _ => Some "{}"
  end.

Definition JSON_stringify (o : gmap string JSValue) (keys : list string)
    : string :=
  "{" +:+
  String.concat ","
    (omap (λ key, match o !! key with
                  | Some v => (λ text, quote +:+ key +:+ quote +:+ ":" +:+ text)
                              <$> render v
                  | None => None
                  end) keys)
  +:+ "}".

Definition sha256 (data : string) : string := "sha256(" +:+ data +:+ ")".

Definition randomBytes_hex (draws : nat) : string := "id-" +:+ pretty draws.

Definition two_digits (n : nat) : string :=
  if (n <? 10)%nat then "0" +:+ pretty n else pretty n.

Definition Date_now_iso (reads : nat) : string :=
  "2024-01-" +:+ two_digits (1 + reads / (24 * 60 * 60)) +:+ "T" +:+
  two_digits (reads / (60 * 60) mod 24) +:+ ":" +:+
  two_digits (reads / 60 mod 60) +:+ ":" +:+
  two_digits (reads mod 60) +:+ ".000Z".

(** The codec of a runtime that holds one snapshot. *)
Definition snapshot_key (snapshot : LedgerSnapshot.t) : string :=
  LedgerSnapshot.schema snapshot +:+ "/" +:+
  LedgerSnapshot.principal_id snapshot +:+ "/" +:+
  pretty (length (LedgerSnapshot.authorisations snapshot)) +:+ "/" +:+
  pretty (length (LedgerSnapshot.actions snapshot)).

Definition runtime_holding (stored : option LedgerSnapshot.t) : JSRuntime :=
  Build_JSRuntime sha256 parseFloat Date_getTime toLowerCase trim Number_toString
    Object_keys_sorted JSON_stringify snapshot_key
    (λ json, match stored with
             | Some snapshot =>
                 if String.eqb json (snapshot_key snapshot) then Ok snapshot
                 else Throw "SyntaxError"
             | None => Throw "SyntaxError"
             end)
    randomBytes_hex Date_now_iso eq_refl.

Definition ExampleRuntime : JSRuntime := runtime_holding None.

End Example.

(** * The rest of consent-ledger.ts, and reporter.ts *)

Module ActionFilters.
Record t := mk {
  agent_id : option string;
  authorisation_id : option string;
  status : option ConsentStatus;
}.
End ActionFilters.

Module ComplianceReport.
Record summary_t := mkSummary {
  total_authorisations : nat;
  active_authorisations : nat;
  total_actions : nat;
  within_bounds : nat;
  exceeded : nat;
  revoked : nat;
  expired : nat;
  pending_ratification : nat;
  no_authorisation : nat;
}.

Record violations_summary_t := mkViolationsSummary {
  critical : nat;
  major : nat;
  minor : nat;
}.

Record t := mk {
  schema : string;
  generated_at : string;
  principal_id : string;
  summary : summary_t;
  violations_summary : violations_summary_t;
  scope_creep_patterns : nat;
  integrity : option VerifyResult.t;
}.
End ComplianceReport.

Module AuditReport.
Record t := mk {
  schema : string;
  generated_at : string;
  principal_id : string;
  authorisations : list AuthorisationEntry.t;
  actions : list ActionRecord.t;
  matches : list ConsentMatch.t;
  violations : list ConsentMatch.t;
  scope_creep : list ScopeCreepPattern.t;
  integrity : option VerifyResult.t;
}.
End AuditReport.

(** The calls that change a ledger. *)
Inductive Call :=
  | CallAuthorise (entry : ConsentLedger.AuthorisationFields)
  | CallRecordAction (action : ConsentLedger.ActionFields)
  | CallRevoke (authorisation_id : string).

Section Queries.
Context `{JSRuntime}.

(** [new Date()] as epoch milliseconds.  The clock is read once; a date and
    its [toISOString] text stand for the same instant. *)
Definition DateNow : M (option Z) := now <~ isoNow ;; ret (Date_getTime now).

(** [new Date(text) > now], false when either is not a valid date *)
Definition isAfter (text : string) (now : option Z) : bool :=
  match Date_getTime text, now with
  | Some t, Some n => (n <? t)%Z
  | _, _ => false
  end.

Definition getActiveAuthorisations (this : ConsentLedger.t)
    : M (list AuthorisationEntry.t) :=
  now <~ DateNow ;;
  ret (List.filter
         (λ a, negb (AuthorisationEntry.revoked a) &&
               match AuthorisationEntry.expires_at a with
               | Some expires_at =>
                   negb (truthy expires_at) || isAfter expires_at now
               | None => true
               end)
         (ConsentLedger.authorisations this)).

(** [filters?.field], when it is a non-empty string *)
Definition wanted (filters : option ActionFilters.t)
    (field : ActionFilters.t → option string) : option string :=
  match filters with
  | Some f => match field f with
              | Some text => if truthy text then Some text else None
              | None => None
              end
  | None => None
  end.

Definition getActions (this : ConsentLedger.t) (filters : option ActionFilters.t)
    : M (list ActionRecord.t) :=
  let list := ConsentLedger.actions this in
  let list :=
    match wanted filters ActionFilters.agent_id with
    | Some agent_id =>
        List.filter (λ a, String.eqb (ActionRecord.agent_id a) agent_id) list
    | None => list
    end in
  let list :=
    match wanted filters ActionFilters.authorisation_id with
    | Some authorisation_id =>
        List.filter (λ a, String.eqb (ActionRecord.authorisation_id a)
                                      authorisation_id) list
    | None => list
    end in
  match filters with
  | Some {| ActionFilters.status := Some status |} =>
      matches <~ ConsentLedger.checkAllActions this ;;
      let matchByAction :=
        ConsentLedger.indexById ConsentMatch.action_id matches in
      ret (List.filter
             (λ a, match matchByAction !! ActionRecord.id a with
                   | Some m => bool_decide (ConsentMatch.status m = status)
                   | None => false
                   end)
             list)
  | _ => ret list
  end.

Definition getViolations (this : ConsentLedger.t) : M (list ConsentMatch.t) :=
  matches <~ ConsentLedger.checkAllActions this ;;
  ret (List.filter (λ m, (0 <? length (ConsentMatch.violations m))%nat) matches).

(** A filter whose test may read the clock. *)
Fixpoint filterM {A} (test : A → M bool) (l : list A) : M (list A) :=
  match l with
  | [] => ret []
  | x :: l' =>
      keep <~ test x ;;
      kept <~ filterM test l' ;;
      ret (if keep then x :: kept else kept)
  end.

(** [!a.revoked && (!a.expires_at || new Date(a.expires_at) > new Date())]:
    the clock is read only when the comparison is reached. *)
Definition isActiveNow (a : AuthorisationEntry.t) : M bool :=
  if AuthorisationEntry.revoked a then ret false
  else
    match AuthorisationEntry.expires_at a with
    | Some expires_at =>
        if truthy expires_at then
          now <~ DateNow ;; ret (isAfter expires_at now)
        else ret true
    | None => ret true
    end.

(** The loop of [buildComplianceReport] over the matches: the matches per
    status and the violations per severity. *)
Definition tally (matches : list ConsentMatch.t)
    : gmap string nat * ComplianceReport.violations_summary_t :=
  foldl (λ counts m,
           let '(byStatus, violationsSummary) := counts in
           let status := ConsentStatus_str (ConsentMatch.status m) in
           let byStatus :=
             <[status := (default 0 (byStatus !! status) + 1)%nat]> byStatus in
           let violationsSummary :=
             foldl (λ s v,
                      match ConsentViolation.severity v with
                      | critical =>
                          ComplianceReport.mkViolationsSummary
                            (ComplianceReport.critical s + 1)
                            (ComplianceReport.major s)
                            (ComplianceReport.minor s)
                      | major =>
                          ComplianceReport.mkViolationsSummary
                            (ComplianceReport.critical s)
                            (ComplianceReport.major s + 1)
                            (ComplianceReport.minor s)
                      | minor =>
                          ComplianceReport.mkViolationsSummary
                            (ComplianceReport.critical s)
                            (ComplianceReport.major s)
                            (ComplianceReport.minor s + 1)
                      end)
                   violationsSummary (ConsentMatch.violations m) in
           (byStatus, violationsSummary))
        (∅, ComplianceReport.mkViolationsSummary 0 0 0) matches.

(** Build a compliance summary from ledger snapshot, matches, and optional
    integrity result. *)
Definition buildComplianceReport (snapshot : LedgerSnapshot.t)
    (matches : list ConsentMatch.t) (scopeCreep : list ScopeCreepPattern.t)
    (integrity : option VerifyResult.t) : M ComplianceReport.t :=
  active <~ filterM isActiveNow (LedgerSnapshot.authorisations snapshot) ;;
  let '(byStatus, violationsSummary) := tally matches in
  let noAuth :=
    length
      (List.filter
         (λ m, bool_decide (ConsentMatch.status m = exceeded) &&
               existsb (λ v, String.eqb (ConsentViolation.constraint_type v)
                                        "authorisation")
                       (ConsentMatch.violations m))
         matches) in
  generated_at <~ isoNow ;;
  ret {|
    ComplianceReport.schema := schema;
    ComplianceReport.generated_at := generated_at;
    ComplianceReport.principal_id := LedgerSnapshot.principal_id snapshot;
    ComplianceReport.summary := {|
      ComplianceReport.total_authorisations :=
        length (LedgerSnapshot.authorisations snapshot);
      ComplianceReport.active_authorisations := length active;
      ComplianceReport.total_actions := length (LedgerSnapshot.actions snapshot);
      ComplianceReport.within_bounds := default 0 (byStatus !! "within_bounds");
      ComplianceReport.exceeded := default 0 (byStatus !! "exceeded");
      ComplianceReport.revoked := default 0 (byStatus !! "revoked");
      ComplianceReport.expired := default 0 (byStatus !! "expired");
      ComplianceReport.pending_ratification :=
        default 0 (byStatus !! "pending_ratification");
      ComplianceReport.no_authorisation := noAuth;
    |};
    ComplianceReport.violations_summary := violationsSummary;
    ComplianceReport.scope_creep_patterns := length scopeCreep;
    ComplianceReport.integrity := integrity;
  |}.

(** Build a full audit report (detailed) including all matches and
    violations. *)
Definition buildAuditReport (snapshot : LedgerSnapshot.t)
    (matches : list ConsentMatch.t) (scopeCreep : list ScopeCreepPattern.t)
    (integrity : option VerifyResult.t) : M AuditReport.t :=
  let violations :=
    List.filter (λ m, (0 <? length (ConsentMatch.violations m))%nat) matches in
  generated_at <~ isoNow ;;
  ret {|
    AuditReport.schema := schema;
    AuditReport.generated_at := generated_at;
    AuditReport.principal_id := LedgerSnapshot.principal_id snapshot;
    AuditReport.authorisations := LedgerSnapshot.authorisations snapshot;
    AuditReport.actions := LedgerSnapshot.actions snapshot;
    AuditReport.matches := matches;
    AuditReport.violations := violations;
    AuditReport.scope_creep := scopeCreep;
    AuditReport.integrity := integrity;
  |}.

Definition apply_call (this : ConsentLedger.t) (call : Call) : M ConsentLedger.t :=
  match call with
  | CallAuthorise entry => r <~ ConsentLedger.authorise this entry ;; ret r.1
  | CallRecordAction action =>
      r <~ ConsentLedger.recordAction this action ;; ret r.1
  | CallRevoke authorisation_id =>
      r <~ ConsentLedger.revoke this authorisation_id ;;
      ret match r with
          | Ok (this', _) => this'
          | Throw _ => this
          end
  end.

Fixpoint run_calls (calls : list Call) (this : ConsentLedger.t)
    : M ConsentLedger.t :=
  match calls with
  | [] => ret this
  | call :: calls' => this' <~ apply_call this call ;; run_calls calls' this'
  end.
End Queries.

(** * Further properties *)

Section MatchShape.
Context `{JSRuntime}.

Lemma matchConsent_at authorisation action context w :
  (matchConsent authorisation action context w).1
  = matchConsentAt (Date_now_iso (clock_reads w)) authorisation action context.
Proof. done. Qed.

(** A match names the action it was computed for; its status is never
    [authorised]; it has no violation exactly when its status is
    [within_bounds] or [pending_ratification], and so it has one exactly when
    its status is [exceeded], [revoked] or [expired]. *)
Theorem match_status_and_violations (authorisation : option AuthorisationEntry.t)
    (action : ActionRecord.t) (context : option MatcherContext.t) (w : World) :
  let m := (matchConsent authorisation action context w).1 in
  ConsentMatch.action_id m = ActionRecord.id action ∧
  ConsentMatch.status m ≠ authorised ∧
  (ConsentMatch.violations m = [] ↔
   ConsentMatch.status m = within_bounds ∨
   ConsentMatch.status m = pending_ratification) ∧
  (ConsentMatch.violations m ≠ [] ↔
   ConsentMatch.status m = exceeded ∨ ConsentMatch.status m = revoked_status ∨
   ConsentMatch.status m = expired).
Proof.
  cbn zeta. rewrite matchConsent_at. unfold matchConsentAt.
  destruct authorisation as [auth|];
    [destruct (AuthorisationEntry.revoked auth);
       [|destruct (isExpired auth action);
           [|destruct (decide (AuthorisationEntry.scope auth = emergency));
               [|destruct (omap _ _) as [|v violations]]]]|];
    cbn [ConsentMatch.action_id ConsentMatch.status ConsentMatch.violations
         length Nat.ltb Nat.leb];
    intuition congruence.
Qed.

(** An emergency-scoped authorisation that is neither revoked nor expired
    puts every action under it in [pending_ratification] with no violation,
    whatever its constraints are: they are not evaluated. *)
Theorem emergency_awaits_ratification (authorisation : AuthorisationEntry.t)
    (action : ActionRecord.t) (context : option MatcherContext.t) (w : World) :
  AuthorisationEntry.revoked authorisation = false →
  isExpired authorisation action = false →
  AuthorisationEntry.scope authorisation = emergency →
  let m := (matchConsent (Some authorisation) action context w).1 in
  ConsentMatch.status m = pending_ratification ∧ ConsentMatch.violations m = [].
Proof.
  intros Hrevoked Hexpired Hscope. cbn zeta. rewrite matchConsent_at.
  unfold matchConsentAt. rewrite Hrevoked, Hexpired.
  by rewrite decide_True.
Qed.

(** An authorisation is expired for an action exactly when it has a non-empty
    expiry text, the expiry and the action's timestamp are both valid dates,
    and the expiry is strictly before the timestamp.  On an expired
    authorisation that is not revoked, the match is [expired] with exactly one
    violation, of constraint type "expiry" and severity critical. *)
Theorem expired_authorisation_match (authorisation : AuthorisationEntry.t)
    (action : ActionRecord.t) (context : option MatcherContext.t) (w : World) :
  (isExpired authorisation action = true ↔
   ∃ text e t,
     AuthorisationEntry.expires_at authorisation = Some text ∧ text ≠ "" ∧
     Date_getTime text = Some e ∧
     Date_getTime (ActionRecord.timestamp action) = Some t ∧ (e < t)%Z) ∧
  (AuthorisationEntry.revoked authorisation = false →
   isExpired authorisation action = true →
   let m := (matchConsent (Some authorisation) action context w).1 in
   ConsentMatch.status m = expired ∧
   ∃ v, ConsentMatch.violations m = [v] ∧
        ConsentViolation.constraint_type v = "expiry" ∧
        ConsentViolation.severity v = critical ∧
        ConsentViolation.actual v = ActionRecord.timestamp action).
Proof.
  split.
  - unfold isExpired, truthy.
    destruct (AuthorisationEntry.expires_at authorisation) as [text|].
    + destruct (String.eqb_spec text "") as [->|Hne]; cbn [negb andb].
      * split; [done|]. by intros (? & ? & ? & [= <-] & ? & _).
      * destruct (Date_getTime text) as [e|] eqn:He.
        -- destruct (Date_getTime (ActionRecord.timestamp action)) as [t|] eqn:Ht.
           ++ rewrite Z.ltb_lt. split.
              ** intros Hlt. by exists text, e, t.
              ** intros (? & ? & ? & [= <-] & _ & Hx & [= <-] & Hlt). congruence.
           ++ split; [done|]. by intros (? & ? & ? & _ & _ & _ & ? & _).
        -- split; [done|].
           intros (? & ? & ? & [= <-] & _ & Hx & _). congruence.
    + split; [done|]. by intros (? & ? & ? & ? & _).
  - intros Hrevoked Hexpired. cbn zeta. rewrite matchConsent_at.
    unfold matchConsentAt. rewrite Hrevoked, Hexpired.
    split; [done|]. eexists. by split.
Qed.
End MatchShape.

Section ConstraintRules.
Context `{JSRuntime}.

(** [needle] occurs in [s]. *)
Definition occurs_in (needle s : string) : Prop :=
  ∃ before after, s = before +:+ needle +:+ after.

Lemma append_cons c (a b : string) : String c a +:+ b = String c (a +:+ b).
Proof. reflexivity. Qed.

Lemma append_empty (b : string) : "" +:+ b = b.
Proof. reflexivity. Qed.

Lemma prefix_occurs needle s :
  String.prefix needle s = true ↔ ∃ after, s = needle +:+ after.
Proof.
  revert s. induction needle as [|c needle IH]; intros s.
  - destruct s; simpl; (split; [|done]); intros _; by eexists.
  - destruct s as [|c' s]; simpl.
    + split; [done|]. by intros [? [=]].
    + destruct (Ascii.ascii_dec c c') as [->|Hne].
      * rewrite IH. split; intros [after Hs]; exists after;
          rewrite append_cons in *; congruence.
      * split; [done|]. intros [after Hs]. rewrite append_cons in Hs.
        congruence.
Qed.

Lemma includes_occurs s needle : includes s needle = true ↔ occurs_in needle s.
Proof.
  unfold occurs_in. induction s as [|c s IH]; cbn [includes].
  - rewrite orb_false_r, prefix_occurs. split.
    + intros [after Hs]. by exists "", after.
    + intros ([|? before] & after & Hs); [by exists after|done].
  - rewrite orb_true_iff, prefix_occurs, IH. split.
    + intros [[after Hs]|(before & after & Hs)].
      * by exists "", after.
      * exists (String c before), after. rewrite append_cons. by rewrite Hs.
    + intros ([|c' before] & after & Hs).
      * left. by exists after.
      * right. exists before, after. rewrite append_cons in Hs. congruence.
Qed.

Lemma allowedMatch_occurs allowed token :
  allowedMatch allowed token = true ↔
  ∃ d, d ∈ allowed ∧ (occurs_in d token ∨ occurs_in token d).
Proof.
  unfold allowedMatch. rewrite existsb_exists. split.
  - intros (d & Hd & Hmatch). exists d. rewrite list_elem_of_In.
    by rewrite orb_true_iff, !includes_occurs in Hmatch.
  - intros (d & Hd & Hmatch). exists d. rewrite <- list_elem_of_In.
    by rewrite orb_true_iff, !includes_occurs.
Qed.

Lemma truthy_false s : truthy s = false ↔ s = "".
Proof. unfold truthy. by destruct (String.eqb_spec s ""). Qed.

(** The text rules.  A domain restriction is satisfied exactly when the
    action names no domain, or some allowed token occurs in the action's
    domain or the domain occurs in the token; a violation is major.  A
    recipient restriction is the same rule on the recipient, and a violation
    is critical.  A custom constraint is satisfied exactly when its
    description occurs in the action's description, case aside; a violation
    is minor. *)
Theorem text_constraint_rules (constraint : ConsentConstraint.t)
    (action : ActionRecord.t) :
  let parameters := ActionRecord.parameters action in
  let domain :=
    toLowerCase (ToString (prop parameters "domain" ?? prop parameters "category"
                           ?? prop parameters "type" ?? JString "")) in
  let domains :=
    map trim (split ","%char (toLowerCase (ConsentConstraint.parameter constraint))) in
  let recipient :=
    toLowerCase (ToString (prop parameters "recipient" ?? prop parameters "to"
                           ?? prop parameters "payee" ?? JString "")) in
  let recipients :=
    map (λ s, toLowerCase (trim s))
        (split ","%char (ConsentConstraint.parameter constraint)) in
  (checkDomainRestriction constraint parameters = None ↔
   domain = "" ∨ ∃ d, d ∈ domains ∧ (occurs_in d domain ∨ occurs_in domain d)) ∧
  (∀ v, checkDomainRestriction constraint parameters = Some v →
        ConsentViolation.severity v = major ∧
        ConsentViolation.actual v = domain) ∧
  (checkRecipientRestriction constraint parameters = None ↔
   recipient = "" ∨
   ∃ r, r ∈ recipients ∧ (occurs_in r recipient ∨ occurs_in recipient r)) ∧
  (∀ v, checkRecipientRestriction constraint parameters = Some v →
        ConsentViolation.severity v = critical ∧
        ConsentViolation.actual v = recipient) ∧
  (checkCustom constraint action = None ↔
   occurs_in (toLowerCase (ConsentConstraint.description constraint))
             (toLowerCase (ActionRecord.description action))) ∧
  (∀ v, checkCustom constraint action = Some v →
        ConsentViolation.severity v = minor).
Proof.
  cbn zeta. split_and!.
  - unfold checkDomainRestriction. rewrite <- allowedMatch_occurs, <- truthy_false.
    destruct (truthy _); cbn [negb]; [|by split; [left|]].
    destruct (allowedMatch _ _); cbn [negb]; intuition congruence.
  - unfold checkDomainRestriction. intros v.
    destruct (truthy _); cbn [negb]; [|done].
    destruct (allowedMatch _ _); cbn [negb]; [done|]. by intros [= <-].
  - unfold checkRecipientRestriction.
    rewrite <- allowedMatch_occurs, <- truthy_false.
    destruct (truthy _); cbn [negb]; [|by split; [left|]].
    destruct (allowedMatch _ _); cbn [negb]; intuition congruence.
  - unfold checkRecipientRestriction. intros v.
    destruct (truthy _); cbn [negb]; [|done].
    destruct (allowedMatch _ _); cbn [negb]; [done|]. by intros [= <-].
  - unfold checkCustom. rewrite <- includes_occurs.
    destruct (includes _ _); cbn [negb]; intuition congruence.
  - unfold checkCustom. intros v.
    destruct (includes _ _); cbn [negb]; [done|]. by intros [= <-].
Qed.

(** The approval rule: no violation exactly when the first of the keys
    approval_obtained and approved that holds a value holds the boolean true
    or the string "true"; a violation is major. *)
Theorem approval_required_rule (constraint : ConsentConstraint.t)
    (parameters : gmap string JSValue) :
  let approved :=
    prop parameters "approval_obtained" ?? prop parameters "approved" in
  (checkApprovalRequired constraint parameters = None ↔
   approved = JBool true ∨ approved = JString "true") ∧
  (∀ v, checkApprovalRequired constraint parameters = Some v →
        ConsentViolation.constraint_type v = "approval_required" ∧
        ConsentViolation.severity v = major).
Proof.
  cbn zeta. unfold checkApprovalRequired. split.
  - destruct (prop parameters "approval_obtained" ?? prop parameters "approved")
      as [| |[|]| |s| |]; cbn [isApproved negb]; try (intuition congruence).
    destruct (String.eqb_spec s "true") as [->|Hne]; cbn [negb].
    + intuition congruence.
    + split; [done|]. intros [[=]|[=]]. done.
  - intros v. destruct (isApproved _); cbn [negb]; [done|]. by intros [= <-].
Qed.

(** The frequency rule, for a limit [limit] and the count supplied for the
    authorisation, 0 when none is supplied: a violation exactly when the
    count is greater than the limit, critical when it is greater than twice
    the limit and major otherwise.  With no count supplied and a limit of at
    least 0 there is no violation.  A limit given by the context for the
    constraint's parameter takes the place of the parsed parameter. *)
Theorem frequency_limit_rule (authorisation : AuthorisationEntry.t)
    (action : ActionRecord.t) (context : option MatcherContext.t)
    (constraint : ConsentConstraint.t) (count : option float) (limit : float) :
  let parameters := ActionRecord.parameters action in
  ((limit <? default 0 count)%float = false →
   checkFrequencyLimit constraint parameters count (Some limit) = None) ∧
  ((limit <? default 0 count)%float = true →
   ∃ v, checkFrequencyLimit constraint parameters count (Some limit) = Some v ∧
        ConsentViolation.constraint_type v = "frequency_limit" ∧
        ConsentViolation.severity v
        = if (limit * 2 <? default 0 count)%float then critical else major) ∧
  ((0 <=? limit)%float = true →
   checkFrequencyLimit constraint parameters None (Some limit) = None) ∧
  (ConsentConstraint.type constraint = frequency_limit →
   optionalGet context MatcherContext.frequencyLimitByConstraint
               (ConsentConstraint.parameter constraint) = Some limit →
   evaluateConstraint authorisation action context constraint
   = checkFrequencyLimit constraint parameters
       (optionalGet context MatcherContext.actionCountByAuthorisationInPeriod
                    (AuthorisationEntry.id authorisation))
       (Some limit)).
Proof.
  cbn zeta. unfold checkFrequencyLimit. split_and!.
  - by intros ->.
  - intros ->. eexists. by split.
  - intros Hle. cbn [default]. by rewrite (leb_true_ltb_false _ _ Hle).
  - intros Htype Hlimit. unfold evaluateConstraint. by rewrite Htype, Hlimit.
Qed.

(** The time window rule, for a parameter of two non-empty parts that are
    valid dates and an action whose timestamp is a valid date: no violation
    exactly when the timestamp is within the window, both ends included; a
    violation is major. *)
Theorem time_window_rule (constraint : ConsentConstraint.t)
    (actionTimestamp start end_ : string) (s e t : Z) :
  map trim (split "/"%char (ConsentConstraint.parameter constraint)) !! 0%nat
  = Some start →
  map trim (split "/"%char (ConsentConstraint.parameter constraint)) !! 1%nat
  = Some end_ →
  start ≠ "" → end_ ≠ "" →
  Date_getTime start = Some s → Date_getTime end_ = Some e →
  Date_getTime actionTimestamp = Some t →
  (checkTimeWindow constraint actionTimestamp = None ↔ (s ≤ t ≤ e)%Z) ∧
  (∀ v, checkTimeWindow constraint actionTimestamp = Some v →
        ConsentViolation.constraint_type v = "time_window" ∧
        ConsentViolation.severity v = major).
Proof.
  intros Hstart Hend Hs He Hds Hde Hdt. unfold checkTimeWindow.
  rewrite Hstart, Hend, Hds, Hde, Hdt.
  assert (truthy start = true) as ->.
  { destruct (truthy start) eqn:Htruthy; [done|]. by apply truthy_false in Htruthy. }
  assert (truthy end_ = true) as ->.
  { destruct (truthy end_) eqn:Htruthy; [done|]. by apply truthy_false in Htruthy. }
  cbn [negb orb].
  destruct (Z.ltb_spec t s), (Z.ltb_spec e t); cbn [orb];
    (split; [split; [try done; lia|try done; lia]|]);
    intros v; try done; by intros [= <-].
Qed.
End ConstraintRules.

Section LedgerLaws.
Context `{JSRuntime}.

(** [verify] decides the chain invariant: for any ledger, however it was
    obtained, it answers valid exactly when both chains satisfy the
    invariant, and its two counts are the lengths of the chains. *)
Theorem verify_decides_invariant (this : ConsentLedger.t) :
  (VerifyResult.valid (ConsentLedger.verify this) = true ↔
   chain_invariant AuthorisationEntry.previous_hash AuthorisationEntry.hash
                   authorisationPayload (ConsentLedger.authorisations this) ∧
   chain_invariant ActionRecord.previous_hash ActionRecord.hash
                   actionPayload (ConsentLedger.actions this)) ∧
  VerifyResult.authorisations_checked (ConsentLedger.verify this)
  = length (ConsentLedger.authorisations this) ∧
  VerifyResult.actions_checked (ConsentLedger.verify this)
  = length (ConsentLedger.actions this).
Proof.
  split; [|done]. rewrite verify_chains_linked. unfold chains_linked.
  by rewrite !linked_from_invariant.
Qed.

(** What [revoke] does to a ledger, case by case. *)
Lemma revoke_cases this authorisation_id w :
  (ConsentLedger.authById this !! authorisation_id = None ∧
   ConsentLedger.revoke this authorisation_id w
   = (Throw ("Authorisation not found: " +:+ authorisation_id), w)) ∨
  (∃ auth, ConsentLedger.authById this !! authorisation_id = Some auth ∧
           AuthorisationEntry.revoked auth = true ∧
           ConsentLedger.revoke this authorisation_id w = (Ok (this, auth), w)) ∨
  (∃ auth updated this',
     ConsentLedger.authById this !! authorisation_id = Some auth ∧
     AuthorisationEntry.revoked auth = false ∧
     ConsentLedger.revoke this authorisation_id w
     = (Ok (this', updated), mkWorld (drawn w) (S (clock_reads w))) ∧
     AuthorisationEntry.revoked updated = true ∧
     AuthorisationEntry.id updated = AuthorisationEntry.id auth ∧
     AuthorisationEntry.previous_hash updated
     = AuthorisationEntry.previous_hash auth ∧
     AuthorisationEntry.hash updated
     = chainHash (AuthorisationEntry.previous_hash updated)
                 (authorisationPayload updated) ∧
     ConsentLedger.principal_id this' = ConsentLedger.principal_id this ∧
     ConsentLedger.actions this' = ConsentLedger.actions this ∧
     ConsentLedger.actionById this' = ConsentLedger.actionById this ∧
     ConsentLedger.authById this'
     = <[authorisation_id := updated]> (ConsentLedger.authById this) ∧
     ConsentLedger.authorisations this'
     = match list_find (λ a, AuthorisationEntry.id a = authorisation_id)
                       (ConsentLedger.authorisations this) with
       | Some (i, _) => <[i := updated]> (ConsentLedger.authorisations this)
       | None => ConsentLedger.authorisations this
       end).
Proof.
  unfold ConsentLedger.revoke.
  destruct (ConsentLedger.authById this !! authorisation_id) as [auth|] eqn:Hauth;
    [|by left].
  right. destruct (AuthorisationEntry.revoked auth) eqn:Hrevoked.
  - left. by exists auth.
  - right. unfold bind, isoNow, ret. eexists auth, _, _.
    split_and!; try reflexivity; done.
Qed.

End LedgerLaws.

Section CallResults.
Context `{JSRuntime}.

(** What [authorise] returns and leaves behind. *)
Lemma authorise_result this entry w :
  ∃ full,
    ConsentLedger.authorise this entry w
    = ((ConsentLedger.mk (ConsentLedger.principal_id this)
          (ConsentLedger.authorisations this ++ [full])
          (ConsentLedger.actions this)
          (<[AuthorisationEntry.id full := full]> (ConsentLedger.authById this))
          (ConsentLedger.actionById this), full),
       mkWorld (S (drawn w)) (S (clock_reads w))) ∧
    AuthorisationEntry.id full = randomBytes_hex (drawn w) ∧
    AuthorisationEntry.timestamp full = Date_now_iso (clock_reads w) ∧
    AuthorisationEntry.revoked full = false ∧
    AuthorisationEntry.revoked_at full = None ∧
    AuthorisationEntry.constraints full = ConsentLedger.entry_constraints entry ∧
    AuthorisationEntry.scope full = ConsentLedger.entry_scope entry ∧
    AuthorisationEntry.expires_at full = ConsentLedger.entry_expires_at entry ∧
    AuthorisationEntry.previous_hash full
    = tip AuthorisationEntry.hash GENESIS (ConsentLedger.authorisations this) ∧
    AuthorisationEntry.hash full
    = chainHash (AuthorisationEntry.previous_hash full) (authorisationPayload full).
Proof.
  exists (ConsentLedger.authorise this entry w).1.2.
  unfold ConsentLedger.authorise, bind, generateId, isoNow, ret, tip.
  split; [reflexivity|]. by split_and!.
Qed.

(** What [recordAction] returns and leaves behind. *)
Lemma recordAction_result this action w :
  ∃ full,
    ConsentLedger.recordAction this action w
    = ((ConsentLedger.mk (ConsentLedger.principal_id this)
          (ConsentLedger.authorisations this)
          (ConsentLedger.actions this ++ [full])
          (ConsentLedger.authById this)
          (<[ActionRecord.id full := full]> (ConsentLedger.actionById this)),
        full),
       mkWorld (S (drawn w)) (S (clock_reads w))) ∧
    ActionRecord.id full = randomBytes_hex (drawn w) ∧
    ActionRecord.timestamp full = Date_now_iso (clock_reads w) ∧
    ActionRecord.authorisation_id full
    = ConsentLedger.action_authorisation_id action ∧
    ActionRecord.parameters full = ConsentLedger.action_parameters action ∧
    ActionRecord.previous_hash full
    = tip ActionRecord.hash GENESIS (ConsentLedger.actions this) ∧
    ActionRecord.hash full
    = chainHash (ActionRecord.previous_hash full) (actionPayload full).
Proof.
  exists (ConsentLedger.recordAction this action w).1.2.
  unfold ConsentLedger.recordAction, bind, generateId, isoNow, ret, tip.
  split; [reflexivity|]. by split_and!.
Qed.
End CallResults.

Section AppendOnly.
Context `{JSRuntime}.

(** A later state of the chains: nothing was removed or reordered, the
    actions are untouched, and an authorisation entry is either what it was
    or revoked. *)
Definition extends (this this' : ConsentLedger.t) : Prop :=
  ConsentLedger.principal_id this' = ConsentLedger.principal_id this ∧
  ConsentLedger.actions this `prefix_of` ConsentLedger.actions this' ∧
  (length (ConsentLedger.authorisations this)
   ≤ length (ConsentLedger.authorisations this')) ∧
  ∀ i a, ConsentLedger.authorisations this !! i = Some a →
         ∃ a', ConsentLedger.authorisations this' !! i = Some a' ∧
               (a' = a ∨ AuthorisationEntry.revoked a' = true).

Lemma extends_refl this : extends this this.
Proof. split_and!; [done..|]. intros i a Hi. exists a. by split; [|left]. Qed.

Lemma extends_trans this1 this2 this3 :
  extends this1 this2 → extends this2 this3 → extends this1 this3.
Proof.
  intros (Hp1 & Hact1 & Hlen1 & Hauth1) (Hp2 & Hact2 & Hlen2 & Hauth2).
  split_and!; [congruence|by etrans|lia|].
  intros i a Hi. destruct (Hauth1 i a Hi) as (a' & Hi' & Ha').
  destruct (Hauth2 i a' Hi') as (a'' & Hi'' & Ha'').
  exists a''. split; [done|]. destruct Ha'' as [->|?]; [done|by right].
Qed.

Lemma apply_call_extends this call w : extends this (apply_call this call w).1.
Proof.
  destruct call as [entry|action|authorisation_id]; cbn [apply_call].
  - unfold bind, ret.
    destruct (authorise_result this entry w) as (full & -> & _).
    cbn [fst]. split_and!; [done..|cbn; rewrite length_app; lia|].
    intros i a Hi. exists a. split; [|by left].
    by apply lookup_app_l_Some.
  - unfold bind, ret.
    destruct (recordAction_result this action w) as (full & -> & _).
    cbn [fst]. split_and!; [done|by apply prefix_app_r|done|].
    intros i a Hi. exists a. by split; [|left].
  - unfold bind, ret.
    destruct (revoke_cases this authorisation_id w)
      as [[_ ->]|[(auth & _ & _ & ->)
                 |(auth & updated & this' & _ & _ & -> & Hrevoked & _ & _ & _
                   & Hp & Hactions & _ & _ & Hauths)]]; cbn [fst].
    + apply extends_refl.
    + apply extends_refl.
    + split_and!; [done|by rewrite Hactions| |].
      * rewrite Hauths. destruct (list_find _ _) as [[j ?]|]; [|done].
        by rewrite length_insert.
      * intros i a Hi. rewrite Hauths.
        destruct (list_find _ _) as [[j ?]|]; [|by exists a; split; [|left]].
        destruct (decide (i = j)) as [->|Hne].
        -- exists updated. split; [|by right].
           apply list_lookup_insert_eq. by eapply lookup_lt_Some.
        -- exists a. split; [|by left]. by rewrite list_lookup_insert_ne.
Qed.

(** The ledger is append-only.  After any sequence of [authorise],
    [recordAction] and [revoke] calls, the earlier action chain is a prefix of
    the later one, the authorisation chain is at least as long, and each of
    its earlier entries is in its place, unchanged or else revoked; so a
    revocation is never undone. *)
Theorem calls_only_append (calls : list Call) (this : ConsentLedger.t) (w : World) :
  let this' := (run_calls calls this w).1 in
  ConsentLedger.actions this `prefix_of` ConsentLedger.actions this' ∧
  (length (ConsentLedger.authorisations this)
   ≤ length (ConsentLedger.authorisations this')) ∧
  ∀ i a, ConsentLedger.authorisations this !! i = Some a →
         ∃ a', ConsentLedger.authorisations this' !! i = Some a' ∧
               (a' = a ∨ AuthorisationEntry.revoked a' = true) ∧
               (AuthorisationEntry.revoked a = true →
                AuthorisationEntry.revoked a' = true).
Proof.
  cbn zeta.
  assert (Hextends : extends this (run_calls calls this w).1).
  { revert this w. induction calls as [|call calls IH]; intros this w.
    - apply extends_refl.
    - cbn [run_calls]. unfold bind.
      pose proof (apply_call_extends this call w) as Hstep.
      destruct (apply_call this call w) as [this1 w1].
      eapply extends_trans; [exact Hstep|apply IH]. }
  destruct Hextends as (_ & Hactions & Hlen & Hauths). split_and!; [done..|].
  intros i a Hi. destruct (Hauths i a Hi) as (a' & Hi' & Ha').
  exists a'. split_and!; [done..|]. intros Hrevoked.
  destruct Ha' as [->|?]; done.
Qed.
End AppendOnly.

Section Indexes.
Context `{JSRuntime}.

(** An ID index finds exactly the entries of its chain, each under its id. *)
Definition index_agrees {A} (id : A → string) (entries : list A)
    (index : gmap string A) : Prop :=
  ∀ k a, index !! k = Some a ↔ a ∈ entries ∧ id a = k.

(** No two entries of a chain share an id, and both indexes agree with their
    chains. *)
Definition ledger_coherent (this : ConsentLedger.t) : Prop :=
  NoDup (map AuthorisationEntry.id (ConsentLedger.authorisations this)) ∧
  NoDup (map ActionRecord.id (ConsentLedger.actions this)) ∧
  index_agrees AuthorisationEntry.id (ConsentLedger.authorisations this)
               (ConsentLedger.authById this) ∧
  index_agrees ActionRecord.id (ConsentLedger.actions this)
               (ConsentLedger.actionById this).

(** Every id in the ledger is one of the ids drawn so far. *)
Definition ids_drawn (this : ConsentLedger.t) (w : World) : Prop :=
  ∀ k, k ∈ map AuthorisationEntry.id (ConsentLedger.authorisations this)
             ++ map ActionRecord.id (ConsentLedger.actions this) →
       ∃ j, j < drawn w ∧ k = randomBytes_hex j.

Lemma index_agrees_snoc {A} (id : A → string) entries index x :
  index_agrees id entries index → id x ∉ map id entries →
  index_agrees id (entries ++ [x]) (<[id x := x]> index).
Proof.
  intros Hagrees Hfresh k a. rewrite elem_of_app, list_elem_of_singleton.
  destruct (decide (id x = k)) as [<-|Hne].
  - rewrite lookup_insert_eq. split.
    + intros [= <-]. by split; [right|].
    + intros [[Ha| ->] Hid]; [|done].
      destruct Hfresh. rewrite <- Hid. apply list_elem_of_fmap. by exists a.
  - rewrite lookup_insert_ne by done. rewrite (Hagrees k a). split.
    + intros [Ha Hid]. by split; [left|].
    + intros [[Ha| ->] Hid]; [done|congruence].
Qed.

Lemma NoDup_snoc_fresh {A} (id : A → string) entries x :
  NoDup (map id entries) → id x ∉ map id entries →
  NoDup (map id (entries ++ [x])).
Proof.
  intros Hnodup Hfresh. rewrite map_app. apply NoDup_app. split_and!; [done| |].
  - intros k Hk. cbn [map]. rewrite list_elem_of_singleton. intros ->. done.
  - apply NoDup_singleton.
Qed.

Lemma insert_same_id {A} (id : A → string) (entries : list A) i old new :
  entries !! i = Some old → id new = id old →
  map id (<[i := new]> entries) = map id entries.
Proof.
  intros Hi Hid. rewrite list_fmap_insert. apply list_insert_id.
  by rewrite list_lookup_fmap, Hi, Hid.
Qed.

Lemma index_agrees_replace {A} (id : A → string) entries index i old new :
  NoDup (map id entries) → index_agrees id entries index →
  entries !! i = Some old → id new = id old →
  index_agrees id (<[i := new]> entries) (<[id old := new]> index).
Proof.
  intros Hnodup Hagrees Hi Hid k a.
  pose proof (lookup_lt_Some _ _ _ Hi) as Hlt.
  assert (Hunique : ∀ j b, entries !! j = Some b → id b = id old → j = i).
  { intros j b Hj Hb. eapply (NoDup_lookup _ j i (id old) Hnodup).
    - by rewrite list_lookup_fmap, Hj; simpl; rewrite Hb.
    - by rewrite list_lookup_fmap, Hi. }
  destruct (decide (id old = k)) as [<-|Hne].
  - rewrite lookup_insert_eq. split.
    + intros [= <-]. split; [|done].
      apply list_elem_of_lookup. exists i. by apply list_lookup_insert_eq.
    + intros [Ha Hida]. apply list_elem_of_lookup in Ha as [j Hj].
      destruct (decide (j = i)) as [->|Hji].
      * rewrite list_lookup_insert_eq in Hj by done. congruence.
      * rewrite list_lookup_insert_ne in Hj by done.
        by destruct (Hji (Hunique j a Hj Hida)).
  - rewrite lookup_insert_ne by done. rewrite (Hagrees k a). split.
    + intros [Ha Hida]. split; [|done].
      apply list_elem_of_lookup in Ha as [j Hj].
      apply list_elem_of_lookup. exists j.
      rewrite list_lookup_insert_ne; [done|]. intros <-. congruence.
    + intros [Ha Hida]. split; [|done].
      apply list_elem_of_lookup in Ha as [j Hj].
      destruct (decide (j = i)) as [->|Hji].
      * rewrite list_lookup_insert_eq in Hj by done. congruence.
      * rewrite list_lookup_insert_ne in Hj by done.
        by eapply list_elem_of_lookup_2.
Qed.

Lemma fresh_id this w :
  Inj (=) (=) randomBytes_hex → ids_drawn this w →
  randomBytes_hex (drawn w)
  ∉ map AuthorisationEntry.id (ConsentLedger.authorisations this)
    ++ map ActionRecord.id (ConsentLedger.actions this).
Proof.
  intros Hinj Hdrawn Hin. destruct (Hdrawn _ Hin) as (j & Hlt & Heq).
  apply Hinj in Heq. lia.
Qed.

Lemma apply_call_coherent this call w :
  Inj (=) (=) randomBytes_hex →
  ledger_coherent this → ids_drawn this w →
  ledger_coherent (apply_call this call w).1 ∧
  ids_drawn (apply_call this call w).1 (apply_call this call w).2.
Proof.
  intros Hinj (Hnd1 & Hnd2 & Hidx1 & Hidx2) Hdrawn.
  pose proof (fresh_id this w Hinj Hdrawn) as Hfresh.
  rewrite elem_of_app in Hfresh.
  destruct call as [entry|action|authorisation_id]; cbn [apply_call];
    unfold bind, ret.
  - destruct (authorise_result this entry w) as (full & -> & Hid & _).
    cbn [fst snd]. rewrite <- Hid in Hfresh. split.
    + split_and!; cbn [ConsentLedger.authorisations ConsentLedger.actions
                       ConsentLedger.authById ConsentLedger.actionById].
      * apply NoDup_snoc_fresh; tauto.
      * done.
      * apply index_agrees_snoc; tauto.
      * done.
    + intros k. cbn [ConsentLedger.authorisations ConsentLedger.actions drawn].
      rewrite map_app, !elem_of_app. cbn [map]. rewrite list_elem_of_singleton.
      intros [[Hk| ->]|Hk].
      * destruct (Hdrawn k) as (j & ? & ?); [set_solver|]. exists j. split; [lia|done].
      * exists (drawn w). split; [lia|done].
      * destruct (Hdrawn k) as (j & ? & ?); [set_solver|]. exists j. split; [lia|done].
  - destruct (recordAction_result this action w) as (full & -> & Hid & _).
    cbn [fst snd]. rewrite <- Hid in Hfresh. split.
    + split_and!; cbn [ConsentLedger.authorisations ConsentLedger.actions
                       ConsentLedger.authById ConsentLedger.actionById].
      * done.
      * apply NoDup_snoc_fresh; tauto.
      * done.
      * apply index_agrees_snoc; tauto.
    + intros k. cbn [ConsentLedger.authorisations ConsentLedger.actions drawn].
      rewrite map_app, !elem_of_app. cbn [map]. rewrite list_elem_of_singleton.
      intros [Hk|[Hk| ->]].
      * destruct (Hdrawn k) as (j & ? & ?); [set_solver|]. exists j. split; [lia|done].
      * destruct (Hdrawn k) as (j & ? & ?); [set_solver|]. exists j. split; [lia|done].
      * exists (drawn w). split; [lia|done].
  - destruct (revoke_cases this authorisation_id w)
      as [[_ ->]|[(auth & _ & _ & ->)
                 |(auth & updated & this' & Hauth & _ & -> & _ & Hid & _ & _
                   & _ & Hactions & HactionById & HauthById & Hauths)]];
      cbn [fst snd]; [done..|].
    apply Hidx1 in Hauth as [Hin Hkey].
    apply list_elem_of_lookup in Hin as [i Hi].
    rewrite <- Hkey in Hauths, HauthById.
    rewrite (list_find_unique AuthorisationEntry.id _ i auth Hnd1 Hi) in Hauths.
    split.
    + split_and!.
      * rewrite Hauths. by rewrite (insert_same_id _ _ i auth updated).
      * by rewrite Hactions.
      * rewrite Hauths, HauthById. by apply index_agrees_replace.
      * by rewrite Hactions, HactionById.
    + intros k. rewrite Hauths, Hactions.
      rewrite (insert_same_id _ _ i auth updated) by done.
      intros Hk. destruct (Hdrawn k Hk) as (j & ? & ?). exists j.
      split; [cbn; lia|done].
Qed.

Lemma run_calls_coherent calls this w :
  Inj (=) (=) randomBytes_hex →
  ledger_coherent this → ids_drawn this w →
  ledger_coherent (run_calls calls this w).1.
Proof.
  intros Hinj. revert this w.
  induction calls as [|call calls IH]; intros this w Hcoherent Hdrawn; [done|].
  cbn [run_calls]. unfold bind.
  destruct (apply_call_coherent this call w Hinj Hcoherent Hdrawn) as [Hc Hd].
  destruct (apply_call this call w) as [this1 w1]. by apply IH.
Qed.

(** As long as the random source never repeats an id, after any sequence of
    [authorise], [recordAction] and [revoke] calls on a new ledger no two
    entries of a chain share an id, and [getAuthorisation] and the action
    index find exactly the entries of the chains, each under its own id. *)
Theorem calls_keep_indexes (principal_id : string) (calls : list Call)
    (w : World) :
  Inj (=) (=) randomBytes_hex →
  let this := (run_calls calls (ConsentLedger.new principal_id) w).1 in
  NoDup (map AuthorisationEntry.id (ConsentLedger.authorisations this)) ∧
  NoDup (map ActionRecord.id (ConsentLedger.actions this)) ∧
  (∀ k a, ConsentLedger.getAuthorisation this k = Some a ↔
          a ∈ ConsentLedger.authorisations this ∧ AuthorisationEntry.id a = k) ∧
  (∀ k a, ConsentLedger.actionById this !! k = Some a ↔
          a ∈ ConsentLedger.actions this ∧ ActionRecord.id a = k) ∧
  authorisations_indexed this.
Proof.
  intros Hinj this.
  assert (Hcoherent : ledger_coherent this).
  { apply run_calls_coherent; [done| |].
    - split_and!; cbn; try apply NoDup_nil_2;
        intros k a; rewrite lookup_empty, elem_of_nil; naive_solver.
    - intros k. cbn. by intros ?%elem_of_nil. }
  destruct Hcoherent as (Hnd1 & Hnd2 & Hidx1 & Hidx2).
  split_and!; [done..|]. split; [done|].
  intros a Ha. by apply Hidx1.
Qed.
End Indexes.

Section QueryLaws.
Context `{JSRuntime}.

Lemma matchConsentAt_status t1 t2 auth a ctx :
  ConsentMatch.status (matchConsentAt t1 auth a ctx)
  = ConsentMatch.status (matchConsentAt t2 auth a ctx).
Proof.
  destruct auth as [auth|]; unfold matchConsentAt; [|done].
  destruct (AuthorisationEntry.revoked auth); [done|].
  destruct (isExpired auth a); [done|].
  by destruct (decide _).
Qed.

Lemma matchConsentAt_action_id ts auth a ctx :
  ConsentMatch.action_id (matchConsentAt ts auth a ctx) = ActionRecord.id a.
Proof.
  destruct auth as [auth|]; unfold matchConsentAt; [|done].
  destruct (AuthorisationEntry.revoked auth); [done|].
  destruct (isExpired auth a); [done|].
  by destruct (decide _).
Qed.

Lemma matchConsentAt_failing ts auth a ctx :
  (0 <? length (ConsentMatch.violations (matchConsentAt ts auth a ctx)))%nat = true
  ↔ ConsentMatch.status (matchConsentAt ts auth a ctx) = exceeded ∨
    ConsentMatch.status (matchConsentAt ts auth a ctx) = revoked_status ∨
    ConsentMatch.status (matchConsentAt ts auth a ctx) = expired.
Proof.
  unfold matchConsentAt.
  destruct auth as [auth|];
    [destruct (AuthorisationEntry.revoked auth);
       [|destruct (isExpired auth a);
           [|destruct (decide (AuthorisationEntry.scope auth = emergency));
               [|destruct (omap _ _) as [|v violations]]]]|];
    cbn [ConsentMatch.status ConsentMatch.violations length Nat.ltb Nat.leb];
    intuition congruence.
Qed.

Lemma matchConsentAt_not_authorised ts auth a ctx :
  ConsentMatch.status (matchConsentAt ts auth a ctx) ≠ authorised.
Proof.
  unfold matchConsentAt.
  destruct auth as [auth|]; [|done].
  destruct (AuthorisationEntry.revoked auth); [done|].
  destruct (isExpired auth a); [done|].
  destruct (decide _); [done|]. cbn [ConsentMatch.status].
  by destruct (0 <? _)%nat.
Qed.

Lemma mapM_lookup {A B} (f : A → M B) (next : World → World) l w :
  (∀ a w', (f a w').2 = next w') →
  (mapM f l w).2 = Nat.iter (length l) next w ∧
  length (mapM f l w).1 = length l ∧
  ∀ i a, l !! i = Some a → (mapM f l w).1 !! i = Some (f a (Nat.iter i next w)).1.
Proof.
  intros Hnext. revert w. induction l as [|x l IH]; intros w.
  - split_and!; [done..|]. by intros i a ?.
  - cbn [mapM]. unfold bind, ret. specialize (IH (next w)).
    pose proof (Hnext x w) as Hx. destruct (f x w) as [y w1] eqn:Hf.
    cbn [snd] in Hx. subst w1.
    destruct (mapM f l (next w)) as [ys w2]. cbn [fst snd] in *.
    destruct IH as (Hw & Hlen & Hlookup). split_and!.
    + rewrite Hw. cbn [length]. by rewrite Nat.iter_succ_r.
    + cbn [length]. by rewrite Hlen.
    + intros [|i] a Ha.
      * injection Ha as ->. cbn. by rewrite Hf.
      * change ((x :: l) !! S i) with (l !! i) in Ha.
        change ((y :: ys) !! S i) with (ys !! i).
        rewrite (Hlookup i a Ha). by rewrite Nat.iter_succ_r.
Qed.

Lemma tick_iter n w :
  Nat.iter n (λ w, mkWorld (drawn w) (S (clock_reads w))) w
  = mkWorld (drawn w) (clock_reads w + n).
Proof.
  induction n as [|n IH].
  - destruct w. cbn. by rewrite Nat.add_0_r.
  - rewrite Nat.iter_succ, IH. cbn. f_equal. lia.
Qed.

Lemma checkAllActions_lookup (this : ConsentLedger.t) (w : World) :
  (ConsentLedger.checkAllActions this w).2
  = mkWorld (drawn w) (clock_reads w + length (ConsentLedger.actions this)) ∧
  map ConsentMatch.action_id (ConsentLedger.checkAllActions this w).1
  = map ActionRecord.id (ConsentLedger.actions this) ∧
  ∀ i a, ConsentLedger.actions this !! i = Some a →
         (ConsentLedger.checkAllActions this w).1 !! i
         = Some (matchConsentAt (Date_now_iso (clock_reads w + i))
                   (ConsentLedger.getAuthorisation this
                      (ActionRecord.authorisation_id a))
                   a (Some (ConsentLedger.buildMatcherContext this))).
Proof.
  unfold ConsentLedger.checkAllActions.
  edestruct (mapM_lookup
               (λ action,
                  matchConsent
                    (ConsentLedger.getAuthorisation this
                       (ActionRecord.authorisation_id action))
                    action (Some (ConsentLedger.buildMatcherContext this)))
               (λ w, mkWorld (drawn w) (S (clock_reads w)))
               (ConsentLedger.actions this) w) as (Hw & Hlen & Hlookup); [done|].
  assert (Hith : ∀ i a, ConsentLedger.actions this !! i = Some a →
            (mapM (λ action,
                     matchConsent
                       (ConsentLedger.getAuthorisation this
                          (ActionRecord.authorisation_id action))
                       action (Some (ConsentLedger.buildMatcherContext this)))
                  (ConsentLedger.actions this) w).1 !! i
            = Some (matchConsentAt (Date_now_iso (clock_reads w + i))
                      (ConsentLedger.getAuthorisation this
                         (ActionRecord.authorisation_id a))
                      a (Some (ConsentLedger.buildMatcherContext this)))).
  { intros i a Ha. rewrite (Hlookup i a Ha), matchConsent_at. by rewrite tick_iter. }
  split_and!.
  - by rewrite Hw, tick_iter.
  - apply list_eq. intros i. rewrite !list_lookup_fmap.
    destruct (ConsentLedger.actions this !! i) as [a|] eqn:Ha.
    + rewrite (Hith i a Ha). cbn [fmap option_fmap option_map]. f_equal.
      apply matchConsentAt_action_id.
    + rewrite lookup_ge_None_2; [done|].
      rewrite Hlen. by apply lookup_ge_None.
  - done.
Qed.

(** [checkAllActions] answers with one match per recorded action, in the
    order of the chain: the [i]-th match is the one [matchConsent] computes for
    the [i]-th action, its indexed authorisation and the ledger's matcher
    context, at the [i]-th reading of the clock.  It draws no id. *)
Theorem checkAllActions_per_action (this : ConsentLedger.t) (w : World) :
  (ConsentLedger.checkAllActions this w).2
  = mkWorld (drawn w) (clock_reads w + length (ConsentLedger.actions this)) ∧
  map ConsentMatch.action_id (ConsentLedger.checkAllActions this w).1
  = map ActionRecord.id (ConsentLedger.actions this) ∧
  ∀ i a, ConsentLedger.actions this !! i = Some a →
         (ConsentLedger.checkAllActions this w).1 !! i
         = Some (matchConsentAt (Date_now_iso (clock_reads w + i))
                   (ConsentLedger.getAuthorisation this
                      (ActionRecord.authorisation_id a))
                   a (Some (ConsentLedger.buildMatcherContext this))).
Proof. apply checkAllActions_lookup. Qed.

Lemma checkAllActions_elem this w m :
  m ∈ (ConsentLedger.checkAllActions this w).1 →
  ∃ a ts, a ∈ ConsentLedger.actions this ∧
          m = matchConsentAt ts
                (ConsentLedger.getAuthorisation this
                   (ActionRecord.authorisation_id a))
                a (Some (ConsentLedger.buildMatcherContext this)).
Proof.
  destruct (checkAllActions_lookup this w) as (_ & Hids & Hlookup).
  intros [i Hi]%list_elem_of_lookup.
  destruct (ConsentLedger.actions this !! i) as [a|] eqn:Ha.
  - rewrite (Hlookup i a Ha) in Hi. exists a, (Date_now_iso (clock_reads w + i)).
    split; [by eapply list_elem_of_lookup_2|congruence].
  - apply lookup_ge_None in Ha.
    assert (Hlen : length (ConsentLedger.checkAllActions this w).1
                   = length (ConsentLedger.actions this)).
    { by rewrite <- (List.length_map ConsentMatch.action_id), Hids, List.length_map. }
    apply lookup_lt_Some in Hi. lia.
Qed.

Lemma filter_elem {A} (test : A → bool) (l : list A) x :
  x ∈ List.filter test l ↔ x ∈ l ∧ test x = true.
Proof. rewrite !list_elem_of_In. apply filter_In. Qed.

Lemma and_iff_compat_l_elem (P Q R : Prop) : (P → (Q ↔ R)) → (P ∧ Q ↔ P ∧ R).
Proof. tauto. Qed.

Lemma filter_sublist {A} (test : A → bool) (l : list A) :
  sublist (List.filter test l) l.
Proof.
  induction l as [|x l IH]; cbn [List.filter]; [done|].
  destruct (test x); by constructor.
Qed.

(** [getViolations] answers with the matches of [checkAllActions] whose
    status is [exceeded], [revoked] or [expired], in their order, and with no
    other: a match has a violation exactly when it has one of these
    statuses. *)
Theorem getViolations_are_failures (this : ConsentLedger.t) (w : World) :
  sublist (getViolations this w).1 (ConsentLedger.checkAllActions this w).1 ∧
  ∀ m, m ∈ (getViolations this w).1 ↔
       m ∈ (ConsentLedger.checkAllActions this w).1 ∧
       (ConsentMatch.status m = exceeded ∨
        ConsentMatch.status m = revoked_status ∨
        ConsentMatch.status m = expired).
Proof.
  unfold getViolations, bind, ret.
  destruct (ConsentLedger.checkAllActions this w) as [matches w1] eqn:Hall.
  cbn [fst]. split; [apply filter_sublist|].
  intros m. rewrite filter_elem. apply and_iff_compat_l_elem. intros Hm.
  assert (Hm' : m ∈ (ConsentLedger.checkAllActions this w).1) by by rewrite Hall.
  apply checkAllActions_elem in Hm' as (a & ts & _ & ->).
  apply matchConsentAt_failing.
Qed.
End QueryLaws.

Section Imports.
Context `{JSRuntime}.

Lemma indexById_fold {A} (id : A → string) (entries : list A)
    (index : gmap string A) (k : string) :
  foldl (λ index a, <[id a := a]> index) index entries !! k
  = match last (List.filter (λ a, String.eqb (id a) k) entries) with
    | Some a => Some a
    | None => index !! k
    end.
Proof.
  revert index. induction entries as [|x entries IH]; intros index; [done|].
  cbn [foldl List.filter]. rewrite IH.
  destruct (String.eqb (id x) k) eqn:Hx.
  - apply String.eqb_eq in Hx. rewrite last_cons.
    destruct (last _); [done|]. by rewrite Hx, lookup_insert_eq.
  - apply String.eqb_neq in Hx. destruct (last _); [done|].
    by rewrite lookup_insert_ne.
Qed.

Lemma indexById_lookup {A} (id : A → string) (entries : list A) (k : string) :
  ConsentLedger.indexById id entries !! k
  = last (List.filter (λ a, String.eqb (id a) k) entries).
Proof.
  unfold ConsentLedger.indexById. rewrite indexById_fold.
  by destruct (last _).
Qed.

Lemma filter_none {A} (test : A → bool) (l : list A) :
  (∀ x, x ∈ l → test x = false) → List.filter test l = [].
Proof.
  induction l as [|x l IH]; intros Hl; [done|]. cbn [List.filter].
  rewrite (Hl x) by left. apply IH. intros y Hy. apply Hl. by right.
Qed.

Lemma indexById_unique {A} (id : A → string) (entries : list A) (a : A) :
  NoDup (map id entries) → a ∈ entries →
  ConsentLedger.indexById id entries !! id a = Some a.
Proof.
  rewrite indexById_lookup.
  induction entries as [|x entries IH]; intros Hnodup Ha; [by inversion Ha|].
  cbn [map] in Hnodup. apply NoDup_cons in Hnodup as [Hx Hnodup].
  cbn [List.filter]. destruct (String.eqb (id x) (id a)) eqn:Hxa.
  - apply String.eqb_eq in Hxa.
    assert (a = x) as ->.
    { apply elem_of_cons in Ha as [->|Ha]; [done|].
      exfalso. apply Hx. rewrite Hxa. apply list_elem_of_In, in_map.
      by apply list_elem_of_In. }
    rewrite filter_none; [done|]. intros y Hy. apply String.eqb_neq.
    intros Heq. apply Hx. rewrite <- Heq. apply list_elem_of_In, in_map.
    by apply list_elem_of_In.
  - apply String.eqb_neq in Hxa.
    apply elem_of_cons in Ha as [->|Ha]; [done|]. by apply IH.
Qed.


(** [getActiveAuthorisations] reads the clock once and answers with the
    authorisations, in their order, that are not revoked and whose expiry is
    absent, the empty text, or a valid date after the clock's; an expiry text
    that is no date leaves the authorisation out. *)
Theorem getActiveAuthorisations_rule (this : ConsentLedger.t) (w : World) :
  (getActiveAuthorisations this w).2 = mkWorld (drawn w) (S (clock_reads w)) ∧
  sublist (getActiveAuthorisations this w).1 (ConsentLedger.authorisations this) ∧
  ∀ a, a ∈ (getActiveAuthorisations this w).1 ↔
       a ∈ ConsentLedger.authorisations this ∧
       AuthorisationEntry.revoked a = false ∧
       (AuthorisationEntry.expires_at a = None ∨
        AuthorisationEntry.expires_at a = Some EmptyString ∨
        ∃ text expiry now,
          AuthorisationEntry.expires_at a = Some text ∧
          Date_getTime text = Some expiry ∧
          Date_getTime (Date_now_iso (clock_reads w)) = Some now ∧
          (now < expiry)%Z).
Proof.
  unfold getActiveAuthorisations, DateNow, isoNow, bind, ret. cbn [fst snd].
  split; [done|]. split; [apply filter_sublist|].
  intros a. rewrite filter_elem. apply and_iff_compat_l.
  destruct (AuthorisationEntry.revoked a); cbn [negb andb]; [naive_solver|].
  destruct (AuthorisationEntry.expires_at a) as [text|]; [|naive_solver].
  destruct text as [|c text]; [cbn; naive_solver|].
  cbn [truthy negb orb]. unfold isAfter.
  destruct (Date_getTime (String c text)) as [expiry|] eqn:Hexpiry.
  - destruct (Date_getTime (Date_now_iso (clock_reads w))) as [now|] eqn:Hnow.
    + split.
      * intros Hlt%Z.ltb_lt. split; [done|]. right; right.
        by exists (String c text), expiry, now.
      * intros [_ [?|[?|(? & ? & ? & ? & ? & ? & ?)]]]; simplify_eq.
        by apply Z.ltb_lt.
    + split; [done|]. intros [_ [?|[?|(? & ? & ? & ? & ? & ? & ?)]]]; simplify_eq.
  - split; [done|]. intros [_ [?|[?|(? & ? & ? & ? & ? & ? & ?)]]]; simplify_eq.
Qed.
End Imports.

Section ActionQueries.
Context `{JSRuntime}.

Lemma checkAllActions_index (this : ConsentLedger.t) (w : World) a :
  NoDup (map ActionRecord.id (ConsentLedger.actions this)) →
  a ∈ ConsentLedger.actions this →
  ∃ ts,
    ConsentLedger.indexById ConsentMatch.action_id
      (ConsentLedger.checkAllActions this w).1 !! ActionRecord.id a
    = Some (matchConsentAt ts
              (ConsentLedger.getAuthorisation this
                 (ActionRecord.authorisation_id a))
              a (Some (ConsentLedger.buildMatcherContext this))).
Proof.
  intros Hnodup [i Hi]%list_elem_of_lookup.
  destruct (checkAllActions_lookup this w) as (_ & Hids & Hlookup).
  exists (Date_now_iso (clock_reads w + i)).
  rewrite <- (matchConsentAt_action_id (Date_now_iso (clock_reads w + i))
                (ConsentLedger.getAuthorisation this
                   (ActionRecord.authorisation_id a))
                a (Some (ConsentLedger.buildMatcherContext this))) at 1.
  apply indexById_unique; [by rewrite Hids|].
  eapply list_elem_of_lookup_2. by apply Hlookup.
Qed.

(** [getActions] keeps the order of the chain.  On a ledger whose action ids
    are distinct it answers with exactly the actions that pass every filter
    given: the agent when [agent_id] is a non-empty text, the authorisation
    when [authorisation_id] is a non-empty text, and the status that
    [matchConsent] gives the action when [status] is given.  An absent or
    empty filter lets every action pass. *)
Theorem getActions_filters (this : ConsentLedger.t)
    (filters : option ActionFilters.t) (w : World) :
  NoDup (map ActionRecord.id (ConsentLedger.actions this)) →
  sublist (getActions this filters w).1 (ConsentLedger.actions this) ∧
  ∀ a, a ∈ (getActions this filters w).1 ↔
       a ∈ ConsentLedger.actions this ∧
       match wanted filters ActionFilters.agent_id with
       | Some agent_id => ActionRecord.agent_id a = agent_id
       | None => True
       end ∧
       match wanted filters ActionFilters.authorisation_id with
       | Some authorisation_id => ActionRecord.authorisation_id a = authorisation_id
       | None => True
       end ∧
       match filters ≫= ActionFilters.status with
       | Some status =>
           ConsentMatch.status
             (matchConsent
                (ConsentLedger.getAuthorisation this
                   (ActionRecord.authorisation_id a))
                a (Some (ConsentLedger.buildMatcherContext this)) w).1
           = status
       | None => True
       end.
Proof.
  intros Hnodup. unfold getActions.
  set (byAgent :=
         match wanted filters ActionFilters.agent_id with
         | Some agent_id =>
             List.filter (λ a, String.eqb (ActionRecord.agent_id a) agent_id)
                         (ConsentLedger.actions this)
         | None => ConsentLedger.actions this
         end).
  set (byAuthorisation :=
         match wanted filters ActionFilters.authorisation_id with
         | Some authorisation_id =>
             List.filter (λ a, String.eqb (ActionRecord.authorisation_id a)
                                           authorisation_id) byAgent
         | None => byAgent
         end).
  assert (Hagent : sublist byAgent (ConsentLedger.actions this) ∧
            ∀ a, a ∈ byAgent ↔
                 a ∈ ConsentLedger.actions this ∧
                 match wanted filters ActionFilters.agent_id with
                 | Some agent_id => ActionRecord.agent_id a = agent_id
                 | None => True
                 end).
  { subst byAgent. destruct (wanted filters ActionFilters.agent_id).
    - split; [apply filter_sublist|]. intros a.
      by rewrite filter_elem, String.eqb_eq.
    - split; [done|]. tauto. }
  destruct Hagent as [Hsub1 Hin1].
  assert (Hauth : sublist byAuthorisation (ConsentLedger.actions this) ∧
            ∀ a, a ∈ byAuthorisation ↔
                 a ∈ ConsentLedger.actions this ∧
                 match wanted filters ActionFilters.agent_id with
                 | Some agent_id => ActionRecord.agent_id a = agent_id
                 | None => True
                 end ∧
                 match wanted filters ActionFilters.authorisation_id with
                 | Some authorisation_id =>
                     ActionRecord.authorisation_id a = authorisation_id
                 | None => True
                 end).
  { subst byAuthorisation.
    destruct (wanted filters ActionFilters.authorisation_id).
    - split; [by etrans; [apply filter_sublist|]|]. intros a.
      rewrite filter_elem, String.eqb_eq, Hin1. tauto.
    - split; [done|]. intros a. rewrite Hin1. tauto. }
  clearbody byAuthorisation. clear byAgent Hsub1 Hin1.
  destruct Hauth as [Hsub2 Hin2].
  assert (Hplain : sublist byAuthorisation (ConsentLedger.actions this) ∧
            ∀ a, a ∈ byAuthorisation ↔
                 a ∈ ConsentLedger.actions this ∧
                 match wanted filters ActionFilters.agent_id with
                 | Some agent_id => ActionRecord.agent_id a = agent_id
                 | None => True
                 end ∧
                 match wanted filters ActionFilters.authorisation_id with
                 | Some authorisation_id =>
                     ActionRecord.authorisation_id a = authorisation_id
                 | None => True
                 end ∧ True).
  { split; [done|]. intros a. rewrite Hin2. tauto. }
  destruct filters as [[agent authorisation [status|]]|]; cbn [mbind option_bind
    ActionFilters.status]; cbn [ret fst]; try exact Hplain.
  clear Hplain. unfold bind, ret.
  destruct (ConsentLedger.checkAllActions this w) as [matches w1] eqn:Hall.
  cbn [fst]. split; [by etrans; [apply filter_sublist|]|].
  intros a. rewrite filter_elem, Hin2.
  split.
  - intros [(Ha & Hagent & Hauth) Hstatus]. split_and!; try done.
    destruct (checkAllActions_index this w a Hnodup Ha) as [ts Hm].
    rewrite Hall in Hm. cbn [fst] in Hm. rewrite Hm in Hstatus.
    apply bool_decide_eq_true in Hstatus.
    rewrite matchConsent_at.
    by rewrite (matchConsentAt_status _ ts).
  - intros (Ha & Hagent & Hauth & Hstatus). split; [done|].
    destruct (checkAllActions_index this w a Hnodup Ha) as [ts Hm].
    rewrite Hall in Hm. cbn [fst] in Hm. rewrite Hm.
    apply bool_decide_eq_true.
    rewrite matchConsent_at in Hstatus.
    by rewrite (matchConsentAt_status _ (Date_now_iso (clock_reads w))).
Qed.
End ActionQueries.

(** The matches of a list with a given status, and the violations of a given
    severity among all the matches of a list. *)
Definition with_status (status : ConsentStatus) (matches : list ConsentMatch.t)
    : nat :=
  length (List.filter (λ m, bool_decide (ConsentMatch.status m = status)) matches).

Definition with_severity (severity : ViolationSeverity)
    (matches : list ConsentMatch.t) : nat :=
  length (List.filter
            (λ v, bool_decide (ConsentViolation.severity v = severity))
            (concat (map ConsentMatch.violations matches))).

Section Reports.
Context `{JSRuntime}.

Lemma ConsentStatus_str_inj : Inj (=) (=) ConsentStatus_str.
Proof. by intros [] [] ?. Qed.

Lemma filterM_sublist {A} (test : A → M bool) (l : list A) (w : World) :
  sublist (filterM test l w).1 l.
Proof.
  revert w. induction l as [|x l IH]; intros w; [done|].
  cbn [filterM]. unfold bind, ret.
  destruct (test x w) as [keep w1]. specialize (IH w1).
  destruct (filterM test l w1) as [kept w2]. cbn [fst] in *.
  destruct keep; by constructor.
Qed.

Lemma severity_fold (violations : list ConsentViolation.t)
    (s : ComplianceReport.violations_summary_t) :
  let step := λ s v,
    match ConsentViolation.severity v with
    | critical =>
        ComplianceReport.mkViolationsSummary
          (ComplianceReport.critical s + 1) (ComplianceReport.major s)
          (ComplianceReport.minor s)
    | major =>
        ComplianceReport.mkViolationsSummary
          (ComplianceReport.critical s) (ComplianceReport.major s + 1)
          (ComplianceReport.minor s)
    | minor =>
        ComplianceReport.mkViolationsSummary
          (ComplianceReport.critical s) (ComplianceReport.major s)
          (ComplianceReport.minor s + 1)
    end in
  let count := λ severity,
    length (List.filter
              (λ v, bool_decide (ConsentViolation.severity v = severity))
              violations) in
  ComplianceReport.critical (foldl step s violations)
  = ComplianceReport.critical s + count critical ∧
  ComplianceReport.major (foldl step s violations)
  = ComplianceReport.major s + count major ∧
  ComplianceReport.minor (foldl step s violations)
  = ComplianceReport.minor s + count minor.
Proof.
  cbn zeta. revert s. induction violations as [|v violations IH]; intros s.
  - cbn. lia.
  - cbn [foldl List.filter].
    destruct (IH (match ConsentViolation.severity v with
                  | critical =>
                      ComplianceReport.mkViolationsSummary
                        (ComplianceReport.critical s + 1)
                        (ComplianceReport.major s) (ComplianceReport.minor s)
                  | major =>
                      ComplianceReport.mkViolationsSummary
                        (ComplianceReport.critical s)
                        (ComplianceReport.major s + 1)
                        (ComplianceReport.minor s)
                  | minor =>
                      ComplianceReport.mkViolationsSummary
                        (ComplianceReport.critical s)
                        (ComplianceReport.major s)
                        (ComplianceReport.minor s + 1)
                  end)) as (-> & -> & ->).
    destruct (ConsentViolation.severity v);
      repeat case_bool_decide; try done; cbn; lia.
Qed.

Lemma tally_counts (matches : list ConsentMatch.t) :
  (∀ status, default 0 ((tally matches).1 !! ConsentStatus_str status)
             = with_status status matches) ∧
  ComplianceReport.critical (tally matches).2 = with_severity critical matches ∧
  ComplianceReport.major (tally matches).2 = with_severity major matches ∧
  ComplianceReport.minor (tally matches).2 = with_severity minor matches.
Proof.
  unfold tally, with_status, with_severity.
  set (step := λ (counts : gmap string nat * ComplianceReport.violations_summary_t)
                 (m : ConsentMatch.t), _).
  assert (Hgen : ∀ matches counts,
            (∀ status,
               default 0 ((foldl step counts matches).1
                            !! ConsentStatus_str status)
               = default 0 (counts.1 !! ConsentStatus_str status)
                 + length (List.filter
                             (λ m, bool_decide (ConsentMatch.status m = status))
                             matches)) ∧
            ∀ severity (field : ComplianceReport.violations_summary_t → nat),
              (severity = critical ∧ field = ComplianceReport.critical) ∨
              (severity = major ∧ field = ComplianceReport.major) ∨
              (severity = minor ∧ field = ComplianceReport.minor) →
              field (foldl step counts matches).2
              = field counts.2
                + length (List.filter
                            (λ v, bool_decide
                                    (ConsentViolation.severity v = severity))
                            (concat (map ConsentMatch.violations matches)))).
  { clear matches. induction matches as [|m matches IH]; intros [byStatus summary].
    - split; [intros; cbn; lia|]. intros; cbn; lia.
    - cbn [foldl]. destruct (IH (step (byStatus, summary) m)) as [IHs IHv].
      split.
      + intros status. rewrite IHs. subst step. cbn [fst List.filter].
        destruct (decide (ConsentMatch.status m = status)) as [->|Hne].
        * rewrite lookup_insert_eq, bool_decide_eq_true_2 by done. cbn. lia.
        * rewrite lookup_insert_ne, bool_decide_eq_false_2 by
            (try done; by intros ?%ConsentStatus_str_inj). lia.
      + intros severity field Hfield. rewrite (IHv severity field Hfield).
        subst step. cbn [snd map concat].
        rewrite List.filter_app, length_app.
        pose proof (severity_fold (ConsentMatch.violations m) summary)
          as (Hc & Hma & Hmi). cbn zeta in Hc, Hma, Hmi.
        destruct Hfield as [[-> ->]|[[-> ->]|[-> ->]]]; lia. }
  destruct (Hgen matches (∅, ComplianceReport.mkViolationsSummary 0 0 0))
    as [Hs Hv].
  split_and!.
  - intros status. rewrite Hs. cbn [fst]. by rewrite lookup_empty.
  - rewrite (Hv critical ComplianceReport.critical) by tauto. done.
  - rewrite (Hv major ComplianceReport.major) by tauto. done.
  - rewrite (Hv minor ComplianceReport.minor) by tauto. done.
Qed.

Lemma status_partition (matches : list ConsentMatch.t) :
  with_status authorised matches + with_status within_bounds matches
  + with_status exceeded matches + with_status revoked_status matches
  + with_status expired matches + with_status pending_ratification matches
  = length matches.
Proof.
  unfold with_status. induction matches as [|m matches IH]; [done|].
  cbn [List.filter length].
  destruct (ConsentMatch.status m);
    repeat case_bool_decide; try done; cbn [length]; lia.
Qed.

Lemma severity_partition (matches : list ConsentMatch.t) :
  with_severity critical matches + with_severity major matches
  + with_severity minor matches
  = length (concat (map ConsentMatch.violations matches)).
Proof.
  unfold with_severity.
  induction (concat (map ConsentMatch.violations matches)) as [|v l IH]; [done|].
  cbn [List.filter length].
  destruct (ConsentViolation.severity v);
    repeat case_bool_decide; try done; cbn [length]; lia.
Qed.

(** The counts of a compliance report: each status count is the number of
    matches with that status, each severity count the number of violations of
    that severity over all matches, so the severity counts add up to the number
    of violations and the status counts, with the matches of status
    [authorised] that the report does not show, to the number of matches;
    [no_authorisation] is at most [exceeded] and the active authorisations are
    at most the authorisations. *)
Theorem compliance_report_counts (snapshot : LedgerSnapshot.t)
    (matches : list ConsentMatch.t) (scopeCreep : list ScopeCreepPattern.t)
    (integrity : option VerifyResult.t) (w : World) :
  let report := (buildComplianceReport snapshot matches scopeCreep integrity w).1 in
  let summary := ComplianceReport.summary report in
  let violations := ComplianceReport.violations_summary report in
  ComplianceReport.within_bounds summary = with_status within_bounds matches ∧
  ComplianceReport.exceeded summary = with_status exceeded matches ∧
  ComplianceReport.revoked summary = with_status revoked_status matches ∧
  ComplianceReport.expired summary = with_status expired matches ∧
  ComplianceReport.pending_ratification summary
  = with_status pending_ratification matches ∧
  ComplianceReport.within_bounds summary + ComplianceReport.exceeded summary
  + ComplianceReport.revoked summary + ComplianceReport.expired summary
  + ComplianceReport.pending_ratification summary
  + with_status authorised matches
  = length matches ∧
  ComplianceReport.critical violations = with_severity critical matches ∧
  ComplianceReport.major violations = with_severity major matches ∧
  ComplianceReport.minor violations = with_severity minor matches ∧
  ComplianceReport.critical violations + ComplianceReport.major violations
  + ComplianceReport.minor violations
  = length (concat (map ConsentMatch.violations matches)) ∧
  ComplianceReport.no_authorisation summary ≤ ComplianceReport.exceeded summary ∧
  ComplianceReport.active_authorisations summary
  ≤ ComplianceReport.total_authorisations summary ∧
  ComplianceReport.scope_creep_patterns report = length scopeCreep.
Proof.
  cbn zeta. unfold buildComplianceReport, bind, ret, isoNow.
  pose proof (filterM_sublist isActiveNow
                (LedgerSnapshot.authorisations snapshot) w) as Hactive.
  destruct (filterM isActiveNow (LedgerSnapshot.authorisations snapshot) w)
    as [active w1]. cbn [fst] in Hactive.
  pose proof (tally_counts matches) as (Hs & Hc & Hma & Hmi).
  destruct (tally matches) as [byStatus summary]. cbn [fst snd] in *.
  pose proof (Hs within_bounds) as Hwithin. pose proof (Hs exceeded) as Hexceeded.
  pose proof (Hs revoked_status) as Hrevoked. pose proof (Hs expired) as Hexpired.
  pose proof (Hs pending_ratification) as Hpending.
  cbn [ConsentStatus_str] in Hwithin, Hexceeded, Hrevoked, Hexpired, Hpending.
  cbn [ComplianceReport.summary ComplianceReport.violations_summary
       ComplianceReport.within_bounds ComplianceReport.exceeded
       ComplianceReport.revoked ComplianceReport.expired
       ComplianceReport.pending_ratification ComplianceReport.no_authorisation
       ComplianceReport.active_authorisations
       ComplianceReport.total_authorisations
       ComplianceReport.scope_creep_patterns].
  rewrite Hwithin, Hexceeded, Hrevoked, Hexpired, Hpending, Hc, Hma, Hmi.
  pose proof (status_partition matches). pose proof (severity_partition matches).
  split_and!; try done; try lia.
  - unfold with_status. clear.
    induction matches as [|m matches IH]; [done|]. cbn [List.filter].
    destruct (bool_decide (ConsentMatch.status m = exceeded));
      cbn [andb]; [destruct (existsb _ _)|]; cbn [length]; lia.
  - by apply sublist_length.
Qed.
End Reports.

Section LedgerReports.
Context `{JSRuntime}.

Lemma evaluateConstraint_type authorisation action context c v :
  evaluateConstraint authorisation action context c = Some v →
  ConsentViolation.constraint_type v = ConstraintType_str (ConsentConstraint.type c).
Proof.
  unfold evaluateConstraint, checkMonetaryLimit, checkDomainRestriction,
    checkTimeWindow, checkApprovalRequired, checkRecipientRestriction,
    checkFrequencyLimit, checkCustom.
  intros Hv. repeat case_match; by simplify_eq.
Qed.

Lemma filter_length_related {A B} (R : A → B → Prop) (f : A → bool)
    (g : B → bool) (l : list A) (k : list B) :
  Forall2 R l k → (∀ a b, R a b → f a = g b) →
  length (List.filter f l) = length (List.filter g k).
Proof.
  intros Hlk Hfg. induction Hlk as [|a b l k Hab _ IH]; [done|].
  cbn [List.filter]. rewrite (Hfg a b Hab). destruct (g b); cbn [length]; lia.
Qed.

Lemma checkAllActions_related (this : ConsentLedger.t) (w : World) :
  Forall2 (λ a m, ∃ ts, m = matchConsentAt ts
                           (ConsentLedger.getAuthorisation this
                              (ActionRecord.authorisation_id a))
                           a (Some (ConsentLedger.buildMatcherContext this)))
          (ConsentLedger.actions this) (ConsentLedger.checkAllActions this w).1.
Proof.
  destruct (checkAllActions_lookup this w) as (_ & Hids & Hlookup).
  apply Forall2_same_length_lookup_2.
  - by rewrite <- (List.length_map ActionRecord.id), <- Hids, List.length_map.
  - intros i a m Ha Hm. rewrite (Hlookup i a Ha) in Hm. simplify_eq. by eexists.
Qed.

(** The compliance report of a ledger over its own matches accounts for every
    recorded action: the counts of [within_bounds], [exceeded], [revoked],
    [expired] and [pending_ratification] add up to [total_actions], the number
    of recorded actions; [no_authorisation] counts the actions whose
    authorisation id is not in the ledger, and [revoked] those whose
    authorisation is revoked. *)
Theorem ledger_report_accounts_for_actions (this : ConsentLedger.t)
    (scopeCreep : list ScopeCreepPattern.t) (integrity : option VerifyResult.t)
    (w w' : World) :
  let matches := (ConsentLedger.checkAllActions this w).1 in
  let summary :=
    ComplianceReport.summary
      (buildComplianceReport (snapshot_of this) matches scopeCreep integrity w').1 in
  ComplianceReport.total_actions summary = length (ConsentLedger.actions this) ∧
  ComplianceReport.within_bounds summary + ComplianceReport.exceeded summary
  + ComplianceReport.revoked summary + ComplianceReport.expired summary
  + ComplianceReport.pending_ratification summary
  = ComplianceReport.total_actions summary ∧
  ComplianceReport.no_authorisation summary
  = length (List.filter
              (λ a, match ConsentLedger.getAuthorisation this
                            (ActionRecord.authorisation_id a) with
                    | Some _ => false
                    | None => true
                    end)
              (ConsentLedger.actions this)) ∧
  ComplianceReport.revoked summary
  = length (List.filter
              (λ a, match ConsentLedger.getAuthorisation this
                            (ActionRecord.authorisation_id a) with
                    | Some authorisation => AuthorisationEntry.revoked authorisation
                    | None => false
                    end)
              (ConsentLedger.actions this)).
Proof.
  cbn zeta.
  pose proof (checkAllActions_related this w) as Hrel.
  set (matches := (ConsentLedger.checkAllActions this w).1) in *. clearbody matches.
  unfold buildComplianceReport, bind, ret, isoNow.
  destruct (filterM isActiveNow _ w') as [active w1].
  pose proof (tally_counts matches) as (Hs & _).
  destruct (tally matches) as [byStatus violations]. cbn [fst snd] in *.
  pose proof (Hs within_bounds) as Hwithin. pose proof (Hs exceeded) as Hexceeded.
  pose proof (Hs revoked_status) as Hrevoked. pose proof (Hs expired) as Hexpired.
  pose proof (Hs pending_ratification) as Hpending.
  cbn [ConsentStatus_str] in Hwithin, Hexceeded, Hrevoked, Hexpired, Hpending.
  cbn [ComplianceReport.summary ComplianceReport.within_bounds
       ComplianceReport.exceeded ComplianceReport.revoked
       ComplianceReport.expired ComplianceReport.pending_ratification
       ComplianceReport.no_authorisation ComplianceReport.total_actions
       snapshot_of LedgerSnapshot.actions].
  rewrite Hwithin, Hexceeded, Hrevoked, Hexpired, Hpending.
  assert (Hnone : with_status authorised matches = 0).
  { unfold with_status. rewrite filter_none; [done|].
    intros m [i Hm]%list_elem_of_lookup.
    destruct (Forall2_lookup_r _ _ _ _ _ Hrel Hm) as (a & _ & ts & ->).
    apply bool_decide_eq_false_2, matchConsentAt_not_authorised. }
  pose proof (status_partition matches) as Hsum.
  pose proof (Forall2_length _ _ _ Hrel) as Hlen.
  split_and!; [done|lia|..].
  - symmetry. apply (filter_length_related _ _ _ _ _ Hrel).
    intros a m [ts ->]. unfold matchConsentAt.
    destruct (ConsentLedger.getAuthorisation _ _) as [auth|]; [|done].
    destruct (AuthorisationEntry.revoked auth); [done|].
    destruct (isExpired auth a); [done|].
    destruct (decide _); [done|].
    cbn [ConsentMatch.status ConsentMatch.violations].
    destruct (0 <? _)%nat; [|done].
    rewrite bool_decide_eq_true_2 by done. cbn [andb]. symmetry.
    apply not_true_is_false. intros (v & Hv & Heq)%existsb_exists.
    apply list_elem_of_In, list_elem_of_omap in Hv as (c & _ & Hv).
    apply evaluateConstraint_type in Hv. apply String.eqb_eq in Heq.
    rewrite Heq in Hv. by destruct (ConsentConstraint.type c).
  - unfold with_status. symmetry. apply (filter_length_related _ _ _ _ _ Hrel).
    intros a m [ts ->]. unfold matchConsentAt.
    destruct (ConsentLedger.getAuthorisation _ _) as [auth|]; [|done].
    destruct (AuthorisationEntry.revoked auth); [done|].
    destruct (isExpired auth a); [done|].
    destruct (decide _); [done|]. cbn [ConsentMatch.status].
    by destruct (0 <? _)%nat.
Qed.
End LedgerReports.

(** ** The detectors through the facade *)

Section DetectorSources.
Context `{JSRuntime}.

Lemma slice_last_subseteq {A} n (l : list A) : slice_last n l ⊆ l.
Proof. unfold slice_last. apply sublist_subseteq, sublist_drop. Qed.

Lemma slice_last_length {A} n (l : list A) :
  n ≤ length l → length (slice_last n l) = n.
Proof. intros Hn. unfold slice_last. rewrite length_drop. lia. Qed.

Lemma frequencyEscalationFor_source byAuth auth w p :
  (frequencyEscalationFor byAuth auth w).1 = Some p →
  ScopeCreepPattern.pattern_type p = frequency_escalation ∧
  3 ≤ length (sortedActionsOf byAuth auth) ∧
  ScopeCreepPattern.evidence_ids p
  = map ActionRecord.id (slice_last 3 (sortedActionsOf byAuth auth)).
Proof.
  unfold frequencyEscalationFor, MIN_DATA_POINTS.
  destruct (Nat.ltb_spec (length (sortedActionsOf byAuth auth)) 3); [done|].
  destruct (_ <? 3); [done|]. destruct (rising _ _); [|done].
  unfold bind, generateId, ret. cbn [fst]. by intros [= <-].
Qed.

Lemma domainDriftFor_source byAuth auth w p :
  (domainDriftFor byAuth auth w).1 = Some p →
  ScopeCreepPattern.pattern_type p = domain_drift ∧
  3 ≤ length (sortedActionsOf byAuth auth) ∧
  ScopeCreepPattern.evidence_ids p
  ⊆ map ActionRecord.id (sortedActionsOf byAuth auth).
Proof.
  unfold domainDriftFor, MIN_DATA_POINTS.
  destruct (List.find _ _); [|done].
  destruct (Nat.ltb_spec (length (sortedActionsOf byAuth auth)) 3); [done|].
  destruct (3 <=? _); [|done].
  unfold bind, generateId, ret. cbn [fst]. intros [= <-].
  cbn [ScopeCreepPattern.pattern_type ScopeCreepPattern.evidence_ids].
  split_and!; [done..|].
  intros e. rewrite !list_elem_of_fmap. intros ([id ts] & -> & Hx).
  apply list_elem_of_omap in Hx as (a & Ha & Hsome).
  exists a. split; [|done]. repeat case_match; by simplify_eq.
Qed.

Lemma constraintErosionFor_source entry w p :
  (constraintErosionFor entry w).1 = Some p →
  ScopeCreepPattern.pattern_type p = constraint_erosion ∧
  3 ≤ length entry.2 ∧
  rising Nat.leb (map (λ x, severityOrder x.2) entry.2) = true.
Proof.
  destruct entry as [constraintType filed].
  unfold constraintErosionFor, MIN_DATA_POINTS.
  destruct (Nat.ltb_spec (length filed) 3); [done|].
  destruct (rising _ _); [|done].
  unfold bind, generateId, isoNow, ret. cbn [fst]. by intros [= <-].
Qed.

(** The actions [detectAuthorityInflation] reports: the ones with a failing
    status whose authorisation id is the id of no authorisation. *)
Definition inflating (authorisations : list AuthorisationEntry.t)
    (actions : list ActionRecord.t) (matchStatusByAction : gmap string string)
    : list ActionRecord.t :=
  filter (λ a, ActionRecord.authorisation_id a
               ∉ (list_to_set (map AuthorisationEntry.id authorisations)
                    : gset string))
         (filter (λ a, default "" (matchStatusByAction !! ActionRecord.id a)
                       ∈ ["exceeded"; "revoked"; "expired"]) actions).

Lemma detectAuthorityInflation_cases authorisations actions statuses w :
  let noAuth := inflating authorisations actions statuses in
  if (3 <=? length noAuth) then
    ∃ p, (detectAuthorityInflation authorisations actions statuses w).1 = [p] ∧
         ScopeCreepPattern.pattern_type p = authority_inflation ∧
         ScopeCreepPattern.evidence_ids p = map ActionRecord.id noAuth ∧
         ScopeCreepPattern.severity p = 0.8%float ∧
         ScopeCreepPattern.occurrences p = length noAuth
  else (detectAuthorityInflation authorisations actions statuses w).1 = [].
Proof.
  cbn zeta. unfold detectAuthorityInflation, inflating, MIN_DATA_POINTS.
  set (inflated := filter _ actions).
  set (noAuth := filter _ inflated).
  assert (Hle : length noAuth ≤ length inflated) by apply length_filter.
  destruct (Nat.leb_spec 3 (length noAuth)) as [Hlong|Hshort].
  - destruct (Nat.ltb_spec (length inflated) 3); [lia|].
    unfold bind, generateId, ret. cbn [fst]. by eexists.
  - by destruct (_ <? 3).
Qed.

(** A strict rise of three or more steps needs three different heights. *)
Lemma rising_bounded (base : nat) (l : list nat) :
  Forall (λ x, base ≤ x ≤ base + 1) l → 3 ≤ length l →
  rising Nat.leb l = false.
Proof.
  intros Hall Hlen. destruct l as [|x [|y [|z l]]]; cbn [length] in Hlen; try lia.
  apply Forall_cons in Hall as [Hx Hall]. apply Forall_cons in Hall as [Hy Hall].
  apply Forall_cons in Hall as [Hz _]. cbn [rising].
  destruct (Nat.leb_spec y x); [done|]. destruct (Nat.leb_spec z y); [done|]. lia.
Qed.
End DetectorSources.

(** The lowest place a violation of a constraint type takes in
    [severityOrder]: a [custom] violation is minor, every other one is major or
    critical. *)
Definition severity_floor (constraint_type : string) : nat :=
  if String.eqb constraint_type "custom" then 1 else 2.

Definition filed_in_range (constraint_type severity : string) : Prop :=
  severity_floor constraint_type ≤ severityOrder severity
  ≤ severity_floor constraint_type + 1.

Section DetectorCases.
Context `{JSRuntime}.

Lemma detectScopeCreep_cases input w p :
  let authorisations := DriftDetectorInput.authorisations input in
  let actions := DriftDetectorInput.actions input in
  let sorted := λ auth,
    Array_sort byTimestamp (claiming (AuthorisationEntry.id auth) actions) in
  let noAuth :=
    inflating authorisations actions
      (default ∅ (DriftDetectorInput.matchStatusByAction input)) in
  p ∈ (detectScopeCreep input w).1 →
  3 ≤ length (ScopeCreepPattern.evidence_ids p) ∧
  ((ScopeCreepPattern.pattern_type p = gradual_expansion ∧
    ∃ auth limit,
      auth ∈ authorisations ∧
      getLimitForAuth auth monetary_limit = Some limit ∧
      gradual_condition limit (gradual_values actions auth) ∧
      gradual_pattern_of limit (gradual_values actions auth) p) ∨
   (ScopeCreepPattern.pattern_type p = frequency_escalation ∧
    ∃ auth, auth ∈ authorisations ∧ 3 ≤ length (sorted auth) ∧
            ScopeCreepPattern.evidence_ids p
            = map ActionRecord.id (slice_last 3 (sorted auth))) ∨
   (ScopeCreepPattern.pattern_type p = domain_drift ∧
    ∃ auth, auth ∈ authorisations ∧ 3 ≤ length (sorted auth) ∧
            ScopeCreepPattern.evidence_ids p ⊆ map ActionRecord.id (sorted auth)) ∨
   (ScopeCreepPattern.pattern_type p = constraint_erosion ∧
    ∃ w', p ∈ (detectConstraintErosion authorisations actions
                 (default [] (DriftDetectorInput.violationsByAction input)) w').1) ∨
   (ScopeCreepPattern.pattern_type p = authority_inflation ∧
    3 ≤ length noAuth ∧
    ScopeCreepPattern.evidence_ids p = map ActionRecord.id noAuth ∧
    ScopeCreepPattern.severity p = 0.8%float ∧
    ScopeCreepPattern.occurrences p = length noAuth)).
Proof.
  cbn zeta. intros Hp.
  apply detectScopeCreep_source in Hp as [Hlen Hp]. split; [done|].
  destruct Hp as [[w' Hp]|[[w' Hp]|[[w' Hp]|[[w' Hp]|[w' Hp]]]]].
  - left. apply detectGradualExpansion_source in Hp as (auth & limit & ? & ? & ? & Hshape).
    split; [apply Hshape|]. by exists auth, limit.
  - right; left. unfold detectFrequencyEscalation in Hp.
    apply pushEach_source in Hp as (auth & w'' & Hauth & Hbody).
    apply frequencyEscalationFor_source in Hbody as (? & ? & ?).
    rewrite sortedActionsOf_claiming in *. split; [done|]. by exists auth.
  - do 2 right; left. unfold detectDomainDrift in Hp.
    apply pushEach_source in Hp as (auth & w'' & Hauth & Hbody).
    apply domainDriftFor_source in Hbody as (? & ? & ?).
    rewrite sortedActionsOf_claiming in *. split; [done|]. by exists auth.
  - do 3 right; left. split; [|by exists w'].
    unfold detectConstraintErosion in Hp.
    apply pushEach_source in Hp as (entry & w'' & _ & Hbody).
    by apply constraintErosionFor_source in Hbody as (? & _).
  - do 4 right.
    pose proof (detectAuthorityInflation_cases
                  (DriftDetectorInput.authorisations input)
                  (DriftDetectorInput.actions input)
                  (default ∅ (DriftDetectorInput.matchStatusByAction input)) w')
      as Hcases. cbn zeta in Hcases.
    destruct (Nat.leb_spec 3
                (length (inflating (DriftDetectorInput.authorisations input)
                           (DriftDetectorInput.actions input)
                           (default ∅ (DriftDetectorInput.matchStatusByAction input)))))
      as [Hlong|Hshort].
    + destruct Hcases as (q & Hq & ? & ? & ? & ?). rewrite Hq in Hp.
      apply list_elem_of_singleton in Hp as ->. by split_and!.
    + rewrite Hcases in Hp. by apply elem_of_nil in Hp.
Qed.

Lemma JSMap_set_elem {V} (m : list (string * V)) key value k v :
  (k, v) ∈ JSMap.set m key value → (k = key ∧ v = value) ∨ (k, v) ∈ m.
Proof.
  induction m as [|[k0 v0] m IH]; cbn [JSMap.set].
  - intros ?%list_elem_of_singleton. left. by simplify_eq.
  - destruct (decide (key = k0)) as [->|Hne].
    + intros [?|?]%elem_of_cons; [left; by simplify_eq|right; by right].
    + intros [?|Hin]%elem_of_cons; [simplify_eq; right; by left|].
      destruct (IH Hin) as [?|?]; [by left|right; by right].
Qed.

Lemma JSMap_get_elem {V} (m : list (string * V)) key v :
  JSMap.get m key = Some v → (key, v) ∈ m.
Proof.
  induction m as [|[k0 v0] m IH]; cbn [JSMap.get]; [done|].
  destruct (decide (key = k0)) as [->|Hne].
  - intros [= ->]. by left.
  - intros Hget. right. by apply IH.
Qed.

Lemma indexMatches_source (R : list (string * string) → Prop)
    (matches : list ConsentMatch.t) :
  (∀ m, m ∈ matches →
        R (map (λ v, (ConsentViolation.constraint_type v,
                      ViolationSeverity_str (ConsentViolation.severity v)))
               (ConsentMatch.violations m))) →
  ∀ k vs, (k, vs) ∈ (ConsentLedger.indexMatches matches).1 → R vs.
Proof.
  unfold ConsentLedger.indexMatches.
  set (step := λ (maps : list (string * list (string * string))
                         * gmap string string) (m : ConsentMatch.t), _).
  assert (Hgen : ∀ matches maps,
            (∀ m, m ∈ matches →
                  R (map (λ v, (ConsentViolation.constraint_type v,
                                ViolationSeverity_str (ConsentViolation.severity v)))
                         (ConsentMatch.violations m))) →
            (∀ k vs, (k, vs) ∈ maps.1 → R vs) →
            ∀ k vs, (k, vs) ∈ (foldl step maps matches).1 → R vs).
  { clear matches. induction matches as [|m matches IH];
      intros [byAction statuses] HR Hmaps; [done|].
    cbn [foldl]. apply IH.
    - intros m' Hm'. apply HR. by right.
    - subst step. cbn [fst]. intros k vs.
      destruct (0 <? _); [|by apply Hmaps].
      intros [[_ ->]|?]%JSMap_set_elem; [apply HR; by left|by eapply Hmaps]. }
  intros HR. apply Hgen; [done|]. intros k vs Hin. by apply elem_of_nil in Hin.
Qed.

Lemma groupByType_range (violationsByAction : list (string * list (string * string))) :
  (∀ k vs, (k, vs) ∈ violationsByAction →
           Forall (λ v, filed_in_range v.1 v.2) vs) →
  ∀ constraintType filed,
    (constraintType, filed) ∈ groupByType violationsByAction →
    Forall (λ x, filed_in_range constraintType x.2) filed.
Proof.
  unfold groupByType.
  pose (inner := λ (actionId : string)
                  (byType : list (string * list (string * string)))
                  (v : string * string),
          let '(constraint_type, severity) := v in
          let filed := default [] (JSMap.get byType constraint_type) in
          JSMap.set byType constraint_type (filed ++ [(actionId, severity)])).
  set (Inv := λ byType : list (string * list (string * string)),
         ∀ constraintType filed,
           (constraintType, filed) ∈ byType →
           Forall (λ x : string * string, filed_in_range constraintType x.2) filed).
  assert (Hinner : ∀ actionId vs byType,
            Forall (λ v, filed_in_range v.1 v.2) vs → Inv byType →
            Inv (foldl (inner actionId) byType vs)).
  { intros actionId vs. induction vs as [|[ct sev] vs IH];
      intros byType Hvs Hinv; [done|].
    apply Forall_cons in Hvs as [Hv Hvs]. cbn [foldl]. apply IH; [done|].
    subst inner. cbn beta iota. intros ct' filed.
    intros [[-> ->]|?]%JSMap_set_elem; [|by apply Hinv].
    apply Forall_app. split; [|by apply Forall_singleton].
    destruct (JSMap.get byType ct) as [old|] eqn:Hget; [|by constructor].
    apply (Hinv ct old). by apply JSMap_get_elem. }
  assert (Houter : ∀ entries byType,
            (∀ k vs, (k, vs) ∈ entries → Forall (λ v, filed_in_range v.1 v.2) vs) →
            Inv byType →
            Inv (foldl (λ byType entry,
                          let '(actionId, violations) := entry in
                          foldl (inner actionId) byType violations)
                       byType entries)).
  { induction entries as [|[actionId vs] entries IH];
      intros byType Hentries Hinv; [done|].
    cbn [foldl]. apply IH.
    - intros k vs' ?. apply (Hentries k). by right.
    - apply Hinner; [|done]. apply (Hentries actionId). by left. }
  intros Hentries constraintType filed Hin.
  apply (Houter violationsByAction [] Hentries); [|exact Hin].
  intros ct filed' Hnil. by apply elem_of_nil in Hnil.
Qed.

Lemma evaluateConstraint_range authorisation action context c v :
  evaluateConstraint authorisation action context c = Some v →
  filed_in_range (ConsentViolation.constraint_type v)
                 (ViolationSeverity_str (ConsentViolation.severity v)).
Proof.
  unfold evaluateConstraint, checkMonetaryLimit, checkDomainRestriction,
    checkTimeWindow, checkApprovalRequired, checkRecipientRestriction,
    checkFrequencyLimit, checkCustom.
  intros Hv.
  repeat case_match; simplify_eq;
    unfold filed_in_range, severity_floor, severityOrder; cbn; lia.
Qed.

Lemma matchConsentAt_range ts auth a ctx :
  Forall (λ v, filed_in_range v.1 v.2)
         (map (λ v, (ConsentViolation.constraint_type v,
                     ViolationSeverity_str (ConsentViolation.severity v)))
              (ConsentMatch.violations (matchConsentAt ts auth a ctx))).
Proof.
  unfold matchConsentAt.
  destruct auth as [auth|];
    [|repeat constructor; unfold filed_in_range, severity_floor, severityOrder;
      cbn; lia].
  destruct (AuthorisationEntry.revoked auth);
    [repeat constructor; unfold filed_in_range, severity_floor, severityOrder;
     cbn; lia|].
  destruct (isExpired auth a);
    [repeat constructor; unfold filed_in_range, severity_floor, severityOrder;
     cbn; lia|].
  destruct (decide _); [constructor|].
  cbn [ConsentMatch.violations]. apply Forall_fmap, Forall_forall.
  intros v (c & _ & Hv)%list_elem_of_omap. cbn.
  by eapply evaluateConstraint_range.
Qed.

Lemma facade_erosion_silent (this : ConsentLedger.t) (w w' : World) :
  (detectConstraintErosion (ConsentLedger.authorisations this)
     (ConsentLedger.actions this)
     (ConsentLedger.indexMatches (ConsentLedger.checkAllActions this w).1).1 w').1
  = [].
Proof.
  unfold detectConstraintErosion. apply pushEach_none.
  intros [constraintType filed] w'' Hentry.
  destruct (constraintErosionFor (constraintType, filed) w'').1 as [p|] eqn:Hbody;
    [|done].
  apply constraintErosionFor_source in Hbody as (_ & Hlen & Hrising).
  cbn [snd] in *.
  assert (Hrange : Forall (λ x : string * string,
                             filed_in_range constraintType x.2) filed).
  { eapply groupByType_range; [|done].
    apply (indexMatches_source (Forall (λ v, filed_in_range v.1 v.2))).
    intros m Hm. apply checkAllActions_elem in Hm as (a & ts & _ & ->).
    apply matchConsentAt_range. }
  rewrite (rising_bounded (severity_floor constraintType)) in Hrising; [done| |].
  - apply Forall_fmap. by eapply Forall_impl.
  - by rewrite length_fmap.
Qed.
End DetectorCases.

(** The recorded actions whose authorisation id is the id of no authorisation
    of the ledger. *)
Definition unauthorised (this : ConsentLedger.t) : list ActionRecord.t :=
  filter (λ a, ActionRecord.authorisation_id a
               ∉ map AuthorisationEntry.id (ConsentLedger.authorisations this))
         (ConsentLedger.actions this).

Section DetectorLaws.
Context `{JSRuntime}.

Lemma filter_ext_elem {A} (P Q : A → Prop) `{∀ x, Decision (P x)}
    `{∀ x, Decision (Q x)} (l : list A) :
  (∀ x, x ∈ l → (P x ↔ Q x)) → filter P l = filter Q l.
Proof.
  induction l as [|x l IH]; intros Hl; [done|].
  rewrite !filter_cons. rewrite IH by (intros y Hy; apply Hl; by right).
  pose proof (Hl x (list_elem_of_here _ _)).
  destruct (decide (P x)), (decide (Q x)); tauto.
Qed.

Lemma built_coherent principal_id calls w :
  Inj (=) (=) randomBytes_hex →
  ledger_coherent (run_calls calls (ConsentLedger.new principal_id) w).1.
Proof.
  intros Hinj. apply run_calls_coherent; [done| |].
  - split_and!; cbn; try apply NoDup_nil_2;
      intros k a; rewrite lookup_empty, elem_of_nil; naive_solver.
  - intros k. cbn. by intros ?%elem_of_nil.
Qed.

Lemma indexMatches_statuses (matches : list ConsentMatch.t) :
  (ConsentLedger.indexMatches matches).2
  = (λ m, ConsentStatus_str (ConsentMatch.status m))
    <$> ConsentLedger.indexById ConsentMatch.action_id matches.
Proof.
  unfold ConsentLedger.indexMatches, ConsentLedger.indexById.
  set (step := λ (maps : list (string * list (string * string))
                         * gmap string string) (m : ConsentMatch.t), _).
  assert (Hgen : ∀ matches maps index,
            maps.2 = (λ m, ConsentStatus_str (ConsentMatch.status m)) <$> index →
            (foldl step maps matches).2
            = (λ m, ConsentStatus_str (ConsentMatch.status m))
              <$> foldl (λ index a, <[ConsentMatch.action_id a := a]> index)
                        index matches).
  { clear matches. induction matches as [|m matches IH];
      intros [byAction statuses] index Hmaps; [done|].
    cbn [foldl]. apply IH. subst step. cbn [snd] in *.
    by rewrite Hmaps, fmap_insert. }
  apply Hgen. cbn [snd]. by rewrite fmap_empty.
Qed.

Lemma facade_inflating (this : ConsentLedger.t) (w : World) :
  ledger_coherent this →
  inflating (ConsentLedger.authorisations this) (ConsentLedger.actions this)
            (ConsentLedger.indexMatches (ConsentLedger.checkAllActions this w).1).2
  = unauthorised this.
Proof.
  intros (_ & Hnodup & Hauths & _). unfold inflating, unauthorised.
  rewrite list_filter_filter. apply filter_ext_elem. intros a Ha.
  rewrite elem_of_list_to_set. split; [tauto|]. intros Hunknown. split; [done|].
  rewrite indexMatches_statuses, lookup_fmap.
  destruct (checkAllActions_index this w a Hnodup Ha) as [ts ->].
  assert (Hnone : ConsentLedger.getAuthorisation this
                    (ActionRecord.authorisation_id a) = None).
  { destruct (ConsentLedger.getAuthorisation _ _) as [auth|] eqn:Hget; [|done].
    apply Hauths in Hget as [Hin Hid]. exfalso. apply Hunknown.
    rewrite <- Hid. apply list_elem_of_In, in_map. by apply list_elem_of_In. }
  rewrite Hnone. cbn. set_solver.
Qed.

Lemma detectScopeCreep_inflation input w :
  let noAuth :=
    inflating (DriftDetectorInput.authorisations input)
              (DriftDetectorInput.actions input)
              (default ∅ (DriftDetectorInput.matchStatusByAction input)) in
  3 ≤ length noAuth →
  ∃ p, p ∈ (detectScopeCreep input w).1 ∧
       ScopeCreepPattern.pattern_type p = authority_inflation ∧
       ScopeCreepPattern.evidence_ids p = map ActionRecord.id noAuth ∧
       ScopeCreepPattern.severity p = 0.8%float ∧
       ScopeCreepPattern.occurrences p = length noAuth.
Proof.
  cbn zeta. intros Hlong. unfold detectScopeCreep, bind, ret.
  destruct (detectGradualExpansion _ _ w) as [gradual w1].
  destruct (detectFrequencyEscalation _ _ w1) as [frequency w2].
  destruct (detectDomainDrift _ _ w2) as [drift w3].
  destruct (detectConstraintErosion _ _ _ w3) as [erosion w4].
  pose proof (detectAuthorityInflation_cases
                (DriftDetectorInput.authorisations input)
                (DriftDetectorInput.actions input)
                (default ∅ (DriftDetectorInput.matchStatusByAction input)) w4)
    as Hcases. cbn zeta in Hcases.
  apply Nat.leb_le in Hlong as Hleb. rewrite Hleb in Hcases.
  destruct Hcases as (p & Hp & Htype & Hevidence & Hrest).
  destruct (detectAuthorityInflation _ _ _ w4) as [inflation w5].
  cbn [fst] in *. subst inflation. exists p. split; [|done].
  rewrite list_elem_of_filter, !elem_of_app. split.
  - unfold MIN_DATA_POINTS. by rewrite Hevidence, length_map.
  - do 4 right. by apply list_elem_of_singleton.
Qed.

(** Through [ConsentLedger.detectScopeCreep] the constraint-erosion detector
    finds nothing: the violations of one constraint type that [matchConsent]
    files take at most two places in the severity order, and the detector
    wants three or more in strict rise.  So no pattern the ledger reports is a
    [constraint_erosion]. *)
Theorem constraint_erosion_unreachable (this : ConsentLedger.t) (w : World) :
  (∀ w', (detectConstraintErosion (ConsentLedger.authorisations this)
            (ConsentLedger.actions this)
            (ConsentLedger.indexMatches
               (ConsentLedger.checkAllActions this w).1).1 w').1 = []) ∧
  Forall (λ p, ScopeCreepPattern.pattern_type p ≠ constraint_erosion)
         (ConsentLedger.detectScopeCreep this w).1.
Proof.
  split; [intros w'; apply facade_erosion_silent|].
  rewrite facade_detectScopeCreep. apply Forall_forall. intros p Hp Htype.
  apply detectScopeCreep_cases in Hp as (_ & Hcases).
  destruct Hcases as [[? _]|[[? _]|[[? _]|[[_ [w' Hin]]|[? _]]]]]; try congruence.
  cbn [drift_input DriftDetectorInput.authorisations DriftDetectorInput.actions
       DriftDetectorInput.violationsByAction default] in Hin.
  unfold id in Hin.
  rewrite facade_erosion_silent in Hin. by apply elem_of_nil in Hin.
Qed.

(** Every pattern [ConsentLedger.detectScopeCreep] reports has at least three
    evidence ids, and they are ids of recorded actions: either of actions that
    claim one authorisation of the ledger, which then has at least three
    actions claiming it, or, for an [authority_inflation], of actions whose
    authorisation id is the id of no authorisation. *)
Theorem scope_creep_evidence (this : ConsentLedger.t) (w : World) :
  Forall
    (λ p,
       3 ≤ length (ScopeCreepPattern.evidence_ids p) ∧
       ((∃ auth,
           auth ∈ ConsentLedger.authorisations this ∧
           3 ≤ length (claiming (AuthorisationEntry.id auth)
                         (ConsentLedger.actions this)) ∧
           ScopeCreepPattern.evidence_ids p
           ⊆ map ActionRecord.id
               (claiming (AuthorisationEntry.id auth)
                  (ConsentLedger.actions this))) ∨
        (ScopeCreepPattern.pattern_type p = authority_inflation ∧
         ScopeCreepPattern.evidence_ids p
         ⊆ map ActionRecord.id (unauthorised this))))
    (ConsentLedger.detectScopeCreep this w).1.
Proof.
  rewrite facade_detectScopeCreep. apply Forall_forall. intros p Hp.
  apply detectScopeCreep_cases in Hp as (Hlen & Hcases). split; [done|].
  cbn [drift_input DriftDetectorInput.authorisations DriftDetectorInput.actions
       DriftDetectorInput.violationsByAction
       DriftDetectorInput.matchStatusByAction default] in Hcases.
  unfold id in Hcases.
  assert (Hsorted : ∀ auth (ids : list string),
            ids ⊆ map ActionRecord.id
                    (Array_sort byTimestamp
                       (claiming (AuthorisationEntry.id auth)
                          (ConsentLedger.actions this))) →
            ids ⊆ map ActionRecord.id
                    (claiming (AuthorisationEntry.id auth)
                       (ConsentLedger.actions this))).
  { intros auth ids Hids e He. apply Hids in He.
    apply list_elem_of_fmap in He as (a & -> & Ha).
    apply Array_sort_elem in Ha. apply list_elem_of_fmap. by exists a. }
  destruct Hcases as [[_ Hg]|[[_ Hf]|[[_ Hd]|[[_ [w' Hin]]|[Htype Hi]]]]].
  - left. destruct Hg as (auth & limit & Hauth & _ & (Hthree & _) & Hshape).
    destruct Hshape as (_ & Hevidence & _). exists auth. split_and!; [done| |].
    + pose proof (monetaryValues_length
                    (Array_sort byTimestamp
                       (claiming (AuthorisationEntry.id auth)
                          (ConsentLedger.actions this)))) as Hle.
      rewrite Array_sort_length in Hle. unfold gradual_values in Hthree. lia.
    + apply Hsorted. rewrite Hevidence. apply monetaryValues_ids.
  - left. destruct Hf as (auth & Hauth & Hthree & Hevidence). exists auth.
    rewrite Array_sort_length in Hthree. split_and!; [done..|].
    apply Hsorted. rewrite Hevidence. intros e.
    rewrite !list_elem_of_fmap. intros (a & -> & Ha). exists a.
    split; [done|]. by apply slice_last_subseteq in Ha.
  - left. destruct Hd as (auth & Hauth & Hthree & Hevidence). exists auth.
    rewrite Array_sort_length in Hthree. split_and!; [done..|].
    by apply Hsorted.
  - rewrite facade_erosion_silent in Hin. by apply elem_of_nil in Hin.
  - right. split; [done|]. destruct Hi as (_ & -> & _).
    intros e. rewrite !list_elem_of_fmap. intros (a & -> & Ha). exists a.
    split; [done|]. unfold inflating in Ha. unfold unauthorised.
    apply list_elem_of_filter in Ha as [Hunknown Ha].
    apply list_elem_of_filter in Ha as [_ Ha].
    apply list_elem_of_filter. split; [|done].
    by rewrite elem_of_list_to_set in Hunknown.
Qed.


(** On a ledger whose ids are distinct and indexed,
    [ConsentLedger.detectScopeCreep] reports an [authority_inflation] exactly
    when three or more recorded actions name an authorisation id that is the
    id of no authorisation; its evidence is the ids of those actions in the
    order they were recorded, its severity 0.8. *)
Theorem authority_inflation_reported (this : ConsentLedger.t) (w : World) :
  ledger_coherent this →
  (3 ≤ length (unauthorised this) →
   ∃ p, p ∈ (ConsentLedger.detectScopeCreep this w).1 ∧
        ScopeCreepPattern.pattern_type p = authority_inflation ∧
        ScopeCreepPattern.evidence_ids p = map ActionRecord.id (unauthorised this) ∧
        ScopeCreepPattern.severity p = 0.8%float ∧
        ScopeCreepPattern.occurrences p = length (unauthorised this)) ∧
  (∀ p, p ∈ (ConsentLedger.detectScopeCreep this w).1 →
        ScopeCreepPattern.pattern_type p = authority_inflation →
        3 ≤ length (unauthorised this) ∧
        ScopeCreepPattern.evidence_ids p = map ActionRecord.id (unauthorised this)).
Proof.
  intros Hcoherent. rewrite facade_detectScopeCreep.
  pose proof (facade_inflating this w Hcoherent) as Hinflating.
  split.
  - intros Hlong.
    pose proof (detectScopeCreep_inflation
                  (drift_input this (ConsentLedger.checkAllActions this w).1)
                  (ConsentLedger.checkAllActions this w).2) as Hfires.
    cbn zeta in Hfires.
    cbn [drift_input DriftDetectorInput.authorisations DriftDetectorInput.actions
         DriftDetectorInput.matchStatusByAction default] in Hfires.
    unfold id in Hfires.
    rewrite Hinflating in Hfires. by apply Hfires.
  - intros p Hp Htype. apply detectScopeCreep_cases in Hp as (_ & Hcases).
    cbn [drift_input DriftDetectorInput.authorisations DriftDetectorInput.actions
         DriftDetectorInput.matchStatusByAction default] in Hcases.
    unfold id in Hcases.
    rewrite Hinflating in Hcases.
    destruct Hcases as [[? _]|[[? _]|[[? _]|[[? _]|[_ Hi]]]]]; try congruence.
    by destruct Hi as (? & ? & _).
Qed.
End DetectorLaws.

(** An authorisation with other constraints, every other field kept. *)
Definition with_constraints (constraints : list ConsentConstraint.t)
    (a : AuthorisationEntry.t) : AuthorisationEntry.t :=
  AuthorisationEntry.mk
    (AuthorisationEntry.id a) (AuthorisationEntry.timestamp a)
    (AuthorisationEntry.principal_id a) (AuthorisationEntry.agent_id a)
    (AuthorisationEntry.scope a) (AuthorisationEntry.description a)
    constraints (AuthorisationEntry.expires_at a) (AuthorisationEntry.revoked a)
    (AuthorisationEntry.revoked_at a) (AuthorisationEntry.hash a)
    (AuthorisationEntry.previous_hash a).

Section PayloadLaws.
Context `{JSRuntime}.

Lemma append_assoc (a b c : string) : (a +:+ b) +:+ c = a +:+ (b +:+ c).
Proof.
  induction a as [|x a IH]; [by rewrite !append_empty|].
  by rewrite !append_cons, IH.
Qed.

Lemma verifyChain_same_fields {A} (previous_hash hash payload : A → string)
    (l l' : list A) :
  Forall2 (λ a b, previous_hash a = previous_hash b ∧ hash a = hash b ∧
                  payload a = payload b) l l' →
  ConsentLedger.verifyChain previous_hash hash payload l
  = ConsentLedger.verifyChain previous_hash hash payload l'.
Proof.
  unfold ConsentLedger.verifyChain. generalize (true, GENESIS).
  intros state Hall. f_equal. revert state.
  induction Hall as [|a b l l' (Hprev & Hhash & Hpayload) _ IH]; intros state;
    [done|].
  cbn [foldl]. rewrite <- IH. f_equal. destruct state as [ok prev].
  by rewrite Hprev, Hhash, Hpayload.
Qed.

(** The payload of an authorisation joins the description and the parameter
    of a constraint with a colon, so text can move across that colon with the
    payload unchanged: a ledger in which a stored constraint reads
    [description = d:x, parameter = p] and the ledger in which it reads
    [description = d, parameter = x:p] have the same hashes and get the same
    answer from [verify]. *)
Theorem verify_blind_to_colon_shift (principal_id : string)
    (before after : list AuthorisationEntry.t) (actions : list ActionRecord.t)
    (authById : gmap string AuthorisationEntry.t)
    (actionById : gmap string ActionRecord.t)
    (entry : AuthorisationEntry.t) (type : ConstraintType) (d x p : string)
    (rest : list ConsentConstraint.t) :
  let stored :=
    with_constraints
      (ConsentConstraint.mk type (d +:+ ":" +:+ x) p :: rest) entry in
  let altered :=
    with_constraints
      (ConsentConstraint.mk type d (x +:+ ":" +:+ p) :: rest) entry in
  authorisationPayload altered = authorisationPayload stored ∧
  AuthorisationEntry.hash altered = AuthorisationEntry.hash stored ∧
  ConsentLedger.verify
    (ConsentLedger.mk principal_id (before ++ altered :: after) actions
                      authById actionById)
  = ConsentLedger.verify
      (ConsentLedger.mk principal_id (before ++ stored :: after) actions
                        authById actionById).
Proof.
  cbn zeta.
  assert (Hpayload :
            authorisationPayload
              (with_constraints
                 (ConsentConstraint.mk type d (x +:+ ":" +:+ p) :: rest) entry)
            = authorisationPayload
                (with_constraints
                   (ConsentConstraint.mk type (d +:+ ":" +:+ x) p :: rest) entry)).
  { unfold authorisationPayload, with_constraints.
    cbn [AuthorisationEntry.id AuthorisationEntry.timestamp
         AuthorisationEntry.principal_id AuthorisationEntry.agent_id
         AuthorisationEntry.scope AuthorisationEntry.description
         AuthorisationEntry.constraints AuthorisationEntry.expires_at
         AuthorisationEntry.revoked AuthorisationEntry.revoked_at map].
    do 2 f_equal. unfold constraintStr.
    cbn [ConsentConstraint.type ConsentConstraint.description
         ConsentConstraint.parameter].
    by rewrite !append_assoc. }
  split_and!; [done..|].
  unfold ConsentLedger.verify.
  cbn [ConsentLedger.authorisations ConsentLedger.actions].
  rewrite !length_app. cbn [length]. do 2 f_equal.
  apply verifyChain_same_fields, Forall2_app.
  - by apply Forall_Forall2_diag, Forall_true.
  - constructor; [by split_and!|]. by apply Forall_Forall2_diag, Forall_true.
Qed.

(** On a ledger whose ids are distinct and indexed, [checkConsent] answers
    for the id of a recorded action with the match of that action against its
    indexed authorisation, reading the clock once, and throws
    [Action not found: id] for every other id, then reading nothing. *)
Theorem checkConsent_outcome (this : ConsentLedger.t) (w : World) :
  ledger_coherent this →
  (∀ a, a ∈ ConsentLedger.actions this →
        ConsentLedger.checkConsent this (ActionRecord.id a) w
        = (Ok (matchConsentAt (Date_now_iso (clock_reads w))
                 (ConsentLedger.getAuthorisation this
                    (ActionRecord.authorisation_id a))
                 a (Some (ConsentLedger.buildMatcherContext this))),
           mkWorld (drawn w) (S (clock_reads w)))) ∧
  (∀ k, k ∉ map ActionRecord.id (ConsentLedger.actions this) →
        ConsentLedger.checkConsent this k w
        = (Throw ("Action not found: " +:+ k), w)).
Proof.
  intros (_ & _ & _ & Hindex). split.
  - intros a Ha. unfold ConsentLedger.checkConsent.
    assert (Hget : ConsentLedger.actionById this !! ActionRecord.id a = Some a)
      by by apply Hindex.
    by rewrite Hget.
  - intros k Hk. unfold ConsentLedger.checkConsent.
    destruct (ConsentLedger.actionById this !! k) as [a|] eqn:Hget; [|done].
    apply Hindex in Hget as [Ha <-]. exfalso. apply Hk.
    apply list_elem_of_In, in_map. by apply list_elem_of_In.
Qed.
End PayloadLaws.

(** * A ledger at work

    The laws above that rest on a precondition, met on a small ledger under
    the reference runtime. *)

Module Scenario.
#[local] Existing Instance Example.ExampleRuntime.

Definition w0 : World := mkWorld 0 0.

Definition monthly_cap : ConsentConstraint.t :=
  ConsentConstraint.mk monetary_limit "Up to 500 a purchase" "500".

Definition january : ConsentConstraint.t :=
  ConsentConstraint.mk time_window "January only"
    "2024-01-01T00:00:00.000Z / 2024-01-31T00:00:00.000Z".

Definition groceries : ConsentLedger.AuthorisationFields :=
  ConsentLedger.mkAuthorisationFields "alice" "agent-1" standing "Groceries"
    [monthly_cap] None.

Definition rescue : ConsentLedger.AuthorisationFields :=
  ConsentLedger.mkAuthorisationFields "alice" "agent-1" emergency "Locksmith"
    [monthly_cap] None.

(** A purchase under the authorisation with the given id. *)
Definition purchase (authorisation_id : string) (amount : float)
    : ConsentLedger.ActionFields :=
  ConsentLedger.mkActionFields "agent-1" authorisation_id "purchase"
    "Weekly shop" {["amount" := JNumber amount]} None.

Definition unpriced (authorisation_id : string) : ConsentLedger.ActionFields :=
  ConsentLedger.mkActionFields "agent-1" authorisation_id "purchase"
    "Weekly shop" ∅ None.

(** One authorisation, the first id drawn, and two purchases under it. *)
Definition calls : list Call :=
  [CallAuthorise groceries;
   CallRecordAction (purchase "id-0" 320);
   CallRecordAction (purchase "id-0" 1200)].

Definition ledger : ConsentLedger.t :=
  (run_calls calls (ConsentLedger.new "alice") w0).1.

Definition now : World := (run_calls calls (ConsentLedger.new "alice") w0).2.

(** Three purchases that name an authorisation nobody gave. *)
Definition stray_calls : list Call :=
  [CallRecordAction (purchase "nobody" 10);
   CallRecordAction (purchase "nobody" 20);
   CallRecordAction (purchase "nobody" 30)].

Definition stray_ledger : ConsentLedger.t :=
  (run_calls stray_calls (ConsentLedger.new "alice") w0).1.

Definition granted : AuthorisationEntry.t :=
  (ConsentLedger.authorise (ConsentLedger.new "alice") groceries w0).1.2.

Definition granted_in_emergency : AuthorisationEntry.t :=
  (ConsentLedger.authorise (ConsentLedger.new "alice") rescue w0).1.2.

Definition withdrawn : AuthorisationEntry.t :=
  AuthorisationEntry.mk "id-0" "2024-01-01T00:00:00.000Z" "alice" "agent-1"
    standing "Groceries" [monthly_cap] None true
    (Some "2024-01-02T00:00:00.000Z") "h1" "0".

Definition bought (amount : float) : ActionRecord.t :=
  ActionRecord.mk "id-1" "2024-01-15T12:00:00.000Z" "agent-1" "id-0" "purchase"
    "Weekly shop" {["amount" := JNumber amount]} None "h2" "0".

Definition bought_unpriced : ActionRecord.t :=
  ActionRecord.mk "id-1" "2024-01-15T12:00:00.000Z" "agent-1" "id-0" "purchase"
    "Weekly shop" ∅ None "h2" "0".

Lemma ids_distinct : Inj (=) (=) (@randomBytes_hex Example.ExampleRuntime).
Proof.
  intros m n Heq.
  change (Example.randomBytes_hex m = Example.randomBytes_hex n) in Heq.
  unfold Example.randomBytes_hex in Heq.
  apply append_cancel_l in Heq. by apply (inj pretty) in Heq.
Qed.
End Scenario.

Section Witnesses.
Import Scenario.
#[local] Existing Instance Example.ExampleRuntime.

Ltac computed := vm_compute; reflexivity.

Lemma revoke_then_verify_witness :
  ∃ this' updated w',
    ConsentLedger.revoke ledger "id-0" now = (Ok (this', updated), w') ∧
    AuthorisationEntry.revoked updated = true ∧
    VerifyResult.valid (ConsentLedger.verify this') = true.
Proof.
  assert (Hindexed : authorisations_indexed ledger).
  { destruct (built_coherent "alice" calls w0 ids_distinct)
      as (Hnodup & _ & Hindex & _).
    split; [exact Hnodup|]. intros a Ha. by apply Hindex. }
  destruct (@revoke_then_verify Example.ExampleRuntime ledger 0 granted now
              ltac:(computed) Hindexed ltac:(computed) ltac:(computed))
    as (this' & updated & w' & Hrevoke & _ & Hrevoked & _ & Hlast & _).
  exists this', updated, w'. split; [exact Hrevoke|].
  split; [exact Hrevoked|]. apply Hlast. reflexivity.
Defined.

Lemma recordAction_without_authorisation_witness :
  ∃ this' record w1 m w2,
    ConsentLedger.recordAction ledger (purchase "nobody" 10) now
    = ((this', record), w1) ∧
    ConsentLedger.checkConsent this' (ActionRecord.id record) w1 = (Ok m, w2) ∧
    ConsentMatch.status m = exceeded.
Proof.
  destruct (@recordAction_without_authorisation Example.ExampleRuntime ledger
              (purchase "nobody" 10) now ltac:(computed))
    as (this' & record & w1 & m & w2 & Hrecord & _ & _ & Hcheck & Hstatus & _).
  exists this', record, w1, m, w2. split; [exact Hrecord|].
  split; [exact Hcheck|exact Hstatus].
Defined.

Lemma revoked_authorisation_match_witness :
  ConsentMatch.status (matchConsent (Some withdrawn) (bought 320) None now).1
  = revoked_status.
Proof.
  pose proof (@revoked_authorisation_match Example.ExampleRuntime withdrawn
                (bought 320) None ledger now ltac:(computed)) as [Hmatch _].
  cbn zeta in Hmatch. exact (proj1 Hmatch).
Defined.

Lemma monetary_limit_rule_witness :
  ConsentMatch.status (matchConsent (Some granted) (bought 1200) None now).1
  = exceeded.
Proof.
  assert (Hscope : AuthorisationEntry.scope granted ≠ emergency) by discriminate.
  assert (Hin : monthly_cap ∈ AuthorisationEntry.constraints granted)
    by apply list_elem_of_here.
  pose proof (@monetary_limit_rule Example.ExampleRuntime granted (bought 1200)
                None now monthly_cap 500%float 1200%float
                ltac:(computed) ltac:(computed) Hscope Hin
                ltac:(computed) ltac:(computed) ltac:(computed)) as Hrule.
  cbn zeta in Hrule. destruct Hrule as (_ & Hover & _).
  destruct (Hover ltac:(computed)) as (v & _ & _ & Hstatus & _).
  exact Hstatus.
Defined.

Lemma unavailable_inputs_rule_witness :
  evaluateConstraint granted bought_unpriced None monthly_cap = None.
Proof.
  assert (Hmissing : inputs_unavailable monthly_cap bought_unpriced None).
  { left. repeat constructor. }
  destruct (@unavailable_inputs_rule Example.ExampleRuntime granted
              bought_unpriced None monthly_cap Hmissing) as [Hnone _].
  apply Hnone. discriminate.
Defined.

Lemma export_import_round_trip_witness :
  ∃ restored,
    @ConsentLedger.fromJSON (Example.runtime_holding (Some (snapshot_of ledger)))
      (@ConsentLedger.toJSON (Example.runtime_holding (Some (snapshot_of ledger)))
         ledger)
    = Ok restored ∧
    ConsentLedger.authorisations restored = ConsentLedger.authorisations ledger ∧
    ConsentLedger.actions restored = ConsentLedger.actions ledger.
Proof.
  destruct (@export_import_round_trip
              (Example.runtime_holding (Some (snapshot_of ledger))) ledger)
    as (restored & Hrestored & _ & Hauthorisations & Hactions & _).
  - vm_compute. reflexivity.
  - exists restored. split; [exact Hrestored|].
    split; [exact Hauthorisations|exact Hactions].
Defined.

Lemma emergency_awaits_ratification_witness :
  ConsentMatch.status
    (matchConsent (Some granted_in_emergency) (bought 1200) None now).1
  = pending_ratification.
Proof.
  pose proof (@emergency_awaits_ratification Example.ExampleRuntime
                granted_in_emergency (bought 1200) None now
                ltac:(computed) ltac:(computed) ltac:(computed)) as Hrule.
  cbn zeta in Hrule. exact (proj1 Hrule).
Defined.

Lemma time_window_rule_witness :
  checkTimeWindow january "2024-01-15T12:00:00.000Z" = None.
Proof.
  assert (Hstart : "2024-01-01T00:00:00.000Z" ≠ EmptyString) by discriminate.
  assert (Hend : "2024-01-31T00:00:00.000Z" ≠ EmptyString) by discriminate.
  destruct (@time_window_rule Example.ExampleRuntime january
              "2024-01-15T12:00:00.000Z"
              "2024-01-01T00:00:00.000Z" "2024-01-31T00:00:00.000Z"
              1704067200000 1706659200000 1705320000000
              ltac:(computed) ltac:(computed) Hstart Hend
              ltac:(computed) ltac:(computed) ltac:(computed))
    as [Hinside _].
  apply Hinside. lia.
Defined.

Lemma calls_keep_indexes_witness :
  NoDup (map ActionRecord.id (ConsentLedger.actions ledger)).
Proof.
  pose proof (@calls_keep_indexes Example.ExampleRuntime "alice" calls w0
                ids_distinct) as Hkept.
  cbn zeta in Hkept. exact (proj1 (proj2 Hkept)).
Defined.

Lemma getActions_filters_witness :
  sublist (getActions ledger (Some (ActionFilters.mk None None (Some exceeded)))
             now).1
          (ConsentLedger.actions ledger).
Proof.
  destruct (built_coherent "alice" calls w0 ids_distinct) as (_ & Hnodup & _).
  exact (proj1 (@getActions_filters Example.ExampleRuntime ledger
                  (Some (ActionFilters.mk None None (Some exceeded))) now
                  Hnodup)).
Defined.

Lemma authority_inflation_reported_witness :
  ∃ p, p ∈ (ConsentLedger.detectScopeCreep stray_ledger now).1 ∧
       ScopeCreepPattern.pattern_type p = authority_inflation ∧
       ScopeCreepPattern.evidence_ids p
       = map ActionRecord.id (unauthorised stray_ledger).
Proof.
  destruct (@authority_inflation_reported Example.ExampleRuntime stray_ledger now
              (built_coherent "alice" stray_calls w0 ids_distinct))
    as [Hfires _].
  destruct Hfires as (p & Hp & Htype & Hevidence & _).
  - vm_compute. lia.
  - exists p. split; [exact Hp|]. split; [exact Htype|exact Hevidence].
Defined.

Lemma checkConsent_outcome_witness :
  ConsentLedger.checkConsent ledger "id-9" now
  = (Throw "Action not found: id-9", now).
Proof.
  destruct (@checkConsent_outcome Example.ExampleRuntime ledger now
              (built_coherent "alice" calls w0 ids_distinct)) as [_ Hunknown].
  apply Hunknown. apply (bool_decide_unpack _). vm_compute. exact I.
Defined.
End Witnesses.
